(** * HaWebsocket: the Home Assistant websocket client of
      node-red-contrib-home-assistant-websocket

    A shallow embedding of the class [HaWebsocket] (connection life
    cycle, subscription multiplexer, entity snapshot cache and event
    dispatcher) and the properties its specification states about it.

    Modelling conventions.
    - JavaScript values are primitives or references into a heap of
      objects; an object is the finite map of its own properties.
      Properties inherited from [Object.prototype] are not modelled: a
      lookup of one of their names ([Object_prototype_members]) on an
      object is outside the model, and a statement about a key that may
      be missing says that the key is not one of them.  Numbers are
      restricted to integers.
    - A JS [Set] iterates in insertion order and is a duplicate-free
      list; a JS object used as a dictionary is a [gmap].
    - Methods run in a state-and-exception monad over the [World]: the
      fields of [this], the heap, the requests received by the external
      connection object, the notifications emitted and the pending
      timers.  An exception leaves the updates made before it in place.
    - A promise of the external connection carries what it settles
      with.  A method written as one monadic run is the call as its
      caller sees it when it awaits the result before doing anything
      else.  [subscribeEvents] suspends at each [await]; it is also given
      in steps ([subscribeEvents_start], [subscribeEvents_resume]), which
      calls that are not awaited interleave. *)

From stdpp Require Import base strings gmap list pretty.

Open Scope string_scope.
Open Scope list_scope.

#[global] Set Warnings "-clear-no-such-hyp,-notation-incompatible-prefix".

(** ** JavaScript values and the object heap *)

Abbreviation loc := positive (only parsing).

Inductive value :=
  | VUndef
  | VNull
  | VBool (b : bool)
  | VNum (n : Z)
  | VStr (s : string)
  | VRef (l : loc).

#[global] Instance value_eq_dec : EqDecision value.
Proof. solve_decision. Defined.

Abbreviation obj := (gmap string value) (only parsing).
Abbreviation heap := (gmap positive (gmap string value)) (only parsing).

(** ToBoolean. *)
Definition truthy (v : value) : bool :=
  match v with
  | VUndef | VNull => false
  | VBool b => b
  | VNum n => negb (n =? 0)%Z
  | VStr s => negb (String.eqb s "")
  | VRef _ => true
  end.

(** ToString, as used for property keys and template literals. *)
Definition to_key (v : value) : string :=
  match v with
  | VUndef => "undefined"
  | VNull => "null"
  | VBool true => "true"
  | VBool false => "false"
  | VNum n => pretty n
  | VStr s => s
  | VRef _ => "[object Object]"
  end.

(** The characters of a string, as one-character strings. *)
Fixpoint chars (s : string) : list string :=
  match s with
  | EmptyString => []
  | String c r => String c EmptyString :: chars r
  end.

(** The own enumerable properties of a value: those of the object a
    reference points to, the indexed characters of a string, none for
    the other primitives. *)
Definition own_props (h : heap) (v : value) : obj :=
  match v with
  | VRef l => default ∅ (h !! l)
  | VStr s => list_to_map (imap (λ i c, (pretty i, VStr c)) (chars s))
  | _ => ∅
  end.

(** [Object.keys(v).length]. *)
Definition keys_length (h : heap) (v : value) : nat := size (own_props h v).

(** ** Exceptions and the method monad *)

(** The error constants of home-assistant-js-websocket. *)
Inductive hass_error :=
  | ERR_CANNOT_CONNECT
  | ERR_INVALID_AUTH
  | ERR_CONNECTION_LOST
  | ERR_HASS_HOST_REQUIRED
  | ERR_INVALID_HTTPS_TO_HTTP.

#[global] Instance hass_error_eq_dec : EqDecision hass_error.
Proof. solve_decision. Defined.

(** What a promise of the library is rejected with: one of its error
    constants, or another value.  The constants are the numbers 1 to 5
    in the library, so [OtherRejection v] stands for a [v] that is none
    of these numbers. *)
Inductive rejection :=
  | HassErr (c : hass_error)
  | OtherRejection (v : value).

Inductive exn :=
  | TypeError
  | JsError (message : string)
  | Thrown (r : rejection).

Inductive outcome (A : Type) :=
  | Ret (a : A)
  | Throw (e : exn).
Arguments Ret {A} a.
Arguments Throw {A} e.

(** ** The state of the program *)

Inductive conn_state := CONNECTING | CONNECTED | DISCONNECTED | ERROR.

(** Index of a state in [connectionStates], the number stored in the
    static fields [HaWebsocket.CONNECTING] ... [HaWebsocket.ERROR]. *)
Definition conn_state_index (c : conn_state) : nat :=
  match c with CONNECTING => 0 | CONNECTED => 1 | DISCONNECTED => 2 | ERROR => 3 end.

Record Config := {
  baseUrl : string;
  legacy : bool;
  apiPass : string;
  rejectUnauthorizedCerts : value;
  connectionDelay : value;
}.

(** The connection object of home-assistant-js-websocket held in
    [this.client]: whether [close()] was called on it, the event
    listeners added to it, the collections subscribed on it, and what
    the hub answers to the subscribe request with a given number:
    [None] when it acknowledges the request, the rejection when it
    refuses it. *)
Record Client := {
  closeCalled : bool;
  eventListeners : list string;
  collections : list string;
  subscribe_reply : nat → option rejection;
}.

(** A request the connection object was asked to send. *)
Inductive net_op :=
  | NetSubscribe (type : option string) (id : nat)
  | NetUnsubscribe (id : nat).

#[global] Instance net_op_eq_dec : EqDecision net_op.
Proof. solve_decision. Defined.

Record HaWebsocket := {
  config : Config;
  connectionState : conn_state;
  states : value;
  services : value;
  statesLoaded : bool;
  servicesLoaded : bool;   (* not set by the constructor: undefined, read only through [!] *)
  client : option Client;
  subscribedEvents : list string;
  unsubCallback : gmap string nat;
  integrationVersion : value;
}.

(** A notification passed to [emit], with the object and the heap its
    listeners are run in. *)
Record emission := {
  em_topic : string;
  em_args : list value;
  em_this : HaWebsocket;
  em_heap : heap;
}.

(** A socket of one handshake attempt: the closure variables of
    [connect] in [createSocket]. *)
Inductive ready_state := SockConnecting | SockOpen | SockErrored | SockClosed.

#[global] Instance ready_state_eq_dec : EqDecision ready_state.
Proof. solve_decision. Defined.

Record Socket := {
  lOpen : bool;
  lMessage : bool;
  lClose : bool;
  lError : bool;
  invalidAuth : bool;
  closeRequested : bool;
  sentAuth : nat;
  phase : ready_state;
}.

Inductive promise_state :=
  | Pending
  | Resolved (socket : nat)
  | Rejected (r : rejection).

Record World := {
  this : HaWebsocket;
  wheap : heap;
  network : list net_op;
  next_sub : nat;
  emitted : list emission;
  timers : list Z;
  sockets : list Socket;
  promise : promise_state;
}.

Definition M (A : Type) : Type := World → outcome A * World.

#[global] Instance M_ret : MRet M := λ A a w, (Ret a, w).

#[global] Instance M_bind : MBind M := λ A B f m w,
  match m w with
  | (Ret a, w') => f a w'
  | (Throw e, w') => (Throw e, w')
  end.

Definition throw {A} (e : exn) : M A := λ w, (Throw e, w).

Definition get_this : M HaWebsocket := λ w, (Ret (this w), w).

Definition with_this (f : HaWebsocket → HaWebsocket) (w : World) : World :=
  {| this := f (this w); wheap := wheap w; network := network w;
     next_sub := next_sub w; emitted := emitted w; timers := timers w;
     sockets := sockets w; promise := promise w |}.

Definition modify_this (f : HaWebsocket → HaWebsocket) : M unit :=
  λ w, (Ret tt, with_this f w).

(** [arr.forEach(f)] and [for (const x of arr)]. *)
Fixpoint forEach {A} (l : list A) (f : A → M unit) : M unit :=
  match l with
  | [] => mret tt
  | x :: r => f x ;; forEach r f
  end.

(** Field updates of [this]. *)
Definition set_connectionState (c : conn_state) (t : HaWebsocket) :=
  {| config := config t; connectionState := c; states := states t;
     services := services t; statesLoaded := statesLoaded t;
     servicesLoaded := servicesLoaded t; client := client t;
     subscribedEvents := subscribedEvents t; unsubCallback := unsubCallback t;
     integrationVersion := integrationVersion t |}.

Definition set_states (v : value) (t : HaWebsocket) :=
  {| config := config t; connectionState := connectionState t; states := v;
     services := services t; statesLoaded := statesLoaded t;
     servicesLoaded := servicesLoaded t; client := client t;
     subscribedEvents := subscribedEvents t; unsubCallback := unsubCallback t;
     integrationVersion := integrationVersion t |}.

Definition set_services (v : value) (t : HaWebsocket) :=
  {| config := config t; connectionState := connectionState t; states := states t;
     services := v; statesLoaded := statesLoaded t;
     servicesLoaded := servicesLoaded t; client := client t;
     subscribedEvents := subscribedEvents t; unsubCallback := unsubCallback t;
     integrationVersion := integrationVersion t |}.

Definition set_statesLoaded (b : bool) (t : HaWebsocket) :=
  {| config := config t; connectionState := connectionState t; states := states t;
     services := services t; statesLoaded := b;
     servicesLoaded := servicesLoaded t; client := client t;
     subscribedEvents := subscribedEvents t; unsubCallback := unsubCallback t;
     integrationVersion := integrationVersion t |}.

Definition set_servicesLoaded (b : bool) (t : HaWebsocket) :=
  {| config := config t; connectionState := connectionState t; states := states t;
     services := services t; statesLoaded := statesLoaded t;
     servicesLoaded := b; client := client t;
     subscribedEvents := subscribedEvents t; unsubCallback := unsubCallback t;
     integrationVersion := integrationVersion t |}.

Definition set_client (c : option Client) (t : HaWebsocket) :=
  {| config := config t; connectionState := connectionState t; states := states t;
     services := services t; statesLoaded := statesLoaded t;
     servicesLoaded := servicesLoaded t; client := c;
     subscribedEvents := subscribedEvents t; unsubCallback := unsubCallback t;
     integrationVersion := integrationVersion t |}.

Definition set_subscribedEvents (s : list string) (t : HaWebsocket) :=
  {| config := config t; connectionState := connectionState t; states := states t;
     services := services t; statesLoaded := statesLoaded t;
     servicesLoaded := servicesLoaded t; client := client t;
     subscribedEvents := s; unsubCallback := unsubCallback t;
     integrationVersion := integrationVersion t |}.

Definition set_unsubCallback (m : gmap string nat) (t : HaWebsocket) :=
  {| config := config t; connectionState := connectionState t; states := states t;
     services := services t; statesLoaded := statesLoaded t;
     servicesLoaded := servicesLoaded t; client := client t;
     subscribedEvents := subscribedEvents t; unsubCallback := m;
     integrationVersion := integrationVersion t |}.

Definition set_integrationVersion (v : value) (t : HaWebsocket) :=
  {| config := config t; connectionState := connectionState t; states := states t;
     services := services t; statesLoaded := statesLoaded t;
     servicesLoaded := servicesLoaded t; client := client t;
     subscribedEvents := subscribedEvents t; unsubCallback := unsubCallback t;
     integrationVersion := v |}.

(** [this.emit(topic, ...args)]: the listeners run now, in the current
    object and heap. *)
Definition emit (topic : string) (args : list value) : M unit :=
  λ w, (Ret tt,
        {| this := this w; wheap := wheap w; network := network w;
           next_sub := next_sub w;
           emitted := emitted w ++
             [{| em_topic := topic; em_args := args;
                 em_this := this w; em_heap := wheap w |}];
           timers := timers w; sockets := sockets w; promise := promise w |}).

(** ** JS [Set] as an insertion-ordered list *)

Definition set_has (x : string) (s : list string) : bool := bool_decide (x ∈ s).

Definition set_add (x : string) (s : list string) : list string :=
  if set_has x s then s else s ++ [x].

Definition set_delete (x : string) (s : list string) : list string :=
  filter (λ y, y ≠ x) s.

(** [new Set(iterable)]. *)
Definition new_Set (l : list string) : list string :=
  foldl (λ s x, set_add x s) [] l.

(** ** Subscription multiplexer *)

(** The promise of a subscribe request: the number of the request and
    what the hub answers to it. *)
Definition subscription : Type := nat * option rejection.

(** [this.client.subscribeEvents(callback, type)], the call: the
    connection object sends a subscribe request and returns a promise.
    With [this.client] still [null] the property access throws. *)
Definition send_subscribe (type : option string) : M subscription :=
  λ w, match client (this w) with
       | None => (Throw TypeError, w)
       | Some c =>
           (Ret (next_sub w, subscribe_reply c (next_sub w)),
            {| this := this w; wheap := wheap w;
               network := network w ++ [NetSubscribe type (next_sub w)];
               next_sub := S (next_sub w);
               emitted := emitted w; timers := timers w;
               sockets := sockets w; promise := promise w |})
       end.

(** [await] of that promise: it gives the function that undoes the
    subscription, represented by the number of the request, or throws
    what the promise was rejected with. *)
Definition await_subscription (p : subscription) : M nat :=
  match p.2 with
  | None => mret p.1
  | Some r => throw (Thrown r)
  end.

(** [await this.client.subscribeEvents(callback, type)]. *)
Definition client_subscribeEvents (type : option string) : M nat :=
  p ← send_subscribe type ;
  await_subscription p.

(** [this.unsubCallback[e]()]: calling [undefined] throws. *)
Definition call_unsub (e : string) : M unit :=
  λ w, match unsubCallback (this w) !! e with
       | None => (Throw TypeError, w)
       | Some id =>
           (Ret tt,
            {| this := this w; wheap := wheap w;
               network := network w ++ [NetUnsubscribe id];
               next_sub := next_sub w;
               emitted := emitted w; timers := timers w;
               sockets := sockets w; promise := promise w |})
       end.

Definition delete_unsub (e : string) : M unit :=
  modify_this (λ t, set_unsubCallback (delete e (unsubCallback t)) t).

Definition store_unsub (e : string) (cb : nat) : M unit :=
  modify_this (λ t, set_unsubCallback (<[e := cb]> (unsubCallback t)) t).

Definition ALL : string := "__ALL__".

Definition subscribeEvents (events : list string) : M unit :=
  let currentEvents := new_Set events in
  if set_has ALL currentEvents then
    t ← get_this ;
    if set_has ALL (subscribedEvents t) then mret tt
    else
      forEach (subscribedEvents t) (λ e,
        if bool_decide (e ≠ ALL) then
          call_unsub e ;;
          delete_unsub e ;;
          modify_this (λ t, set_subscribedEvents (set_delete e (subscribedEvents t)) t)
        else mret tt) ;;
      cb ← client_subscribeEvents None ;
      store_unsub ALL cb ;;
      modify_this (λ t, set_subscribedEvents (set_add ALL (subscribedEvents t)) t)
  else
    let currentEvents := set_add "nodered" (set_add "state_changed" currentEvents) in
    t ← get_this ;
    let add := new_Set (filter (λ x, x ∉ subscribedEvents t) currentEvents) in
    let remove := new_Set (filter (λ x, x ∉ currentEvents) (subscribedEvents t)) in
    modify_this (set_subscribedEvents
      (new_Set (filter (λ x, x ∈ subscribedEvents t) currentEvents ++ add))) ;;
    forEach remove (λ e, call_unsub e ;; delete_unsub e) ;;
    forEach add (λ type,
      cb ← client_subscribeEvents (Some type) ;
      store_unsub type cb).

(** ** Construction *)

(** [new HaWebsocket(config)]: the two empty objects of [states] and
    [services] are allocated at the first two locations. *)
Definition constructor (cfg : Config) : World :=
  {| this :=
       {| config := cfg; connectionState := DISCONNECTED;
          states := VRef 1%positive; services := VRef 2%positive;
          statesLoaded := false; servicesLoaded := false;
          client := None; subscribedEvents := []; unsubCallback := ∅;
          integrationVersion := VNum 0 |};
     wheap := <[2%positive := ∅]> (<[1%positive := ∅]> ∅);
     network := []; next_sub := 0; emitted := []; timers := [];
     sockets := []; promise := Pending |}.

(** A fresh connection object, as [createConnection] returns it, to a
    hub that acknowledges every subscribe request. *)
Definition new_client : Client :=
  {| closeCalled := false; eventListeners := []; collections := [];
     subscribe_reply := λ _, None |}.

(** A connection object to a hub that refuses the subscribe request
    with number [n]. *)
Definition refusing_client (n : nat) (r : rejection) : Client :=
  {| closeCalled := false; eventListeners := []; collections := [];
     subscribe_reply := λ i, if (i =? n)%nat then Some r else None |}.

(** ** [subscribeEvents] in steps *)

(** Where a call of [subscribeEvents] is suspended: at the [await] of
    the wildcard branch, or at the [await] in the loop over [add], with
    the event types still to come. *)
Inductive suspended :=
  | AwaitWildcard (p : subscription)
  | AwaitType (type : string) (p : subscription) (rest : list string).

(** The loop over [add] up to its next [await]. *)
Definition subscribe_next (add : list string) : M (option suspended) :=
  match add with
  | [] => mret None
  | type :: rest =>
      p ← send_subscribe (Some type) ;
      mret (Some (AwaitType type p rest))
  end.

(** The call up to its first [await]: what runs before the caller gets
    the promise back.  [None] when the call completes without waiting. *)
Definition subscribeEvents_start (events : list string) : M (option suspended) :=
  let currentEvents := new_Set events in
  if set_has ALL currentEvents then
    t ← get_this ;
    if set_has ALL (subscribedEvents t) then mret None
    else
      forEach (subscribedEvents t) (λ e,
        if bool_decide (e ≠ ALL) then
          call_unsub e ;;
          delete_unsub e ;;
          modify_this (λ t, set_subscribedEvents (set_delete e (subscribedEvents t)) t)
        else mret tt) ;;
      p ← send_subscribe None ;
      mret (Some (AwaitWildcard p))
  else
    let currentEvents := set_add "nodered" (set_add "state_changed" currentEvents) in
    t ← get_this ;
    let add := new_Set (filter (λ x, x ∉ subscribedEvents t) currentEvents) in
    let remove := new_Set (filter (λ x, x ∉ currentEvents) (subscribedEvents t)) in
    modify_this (set_subscribedEvents
      (new_Set (filter (λ x, x ∈ subscribedEvents t) currentEvents ++ add))) ;;
    forEach remove (λ e, call_unsub e ;; delete_unsub e) ;;
    subscribe_next add.

(** The call from the [await] it is suspended at to its next one, run
    when the hub's answer has arrived. *)
Definition subscribeEvents_resume (s : suspended) : M (option suspended) :=
  match s with
  | AwaitWildcard p =>
      cb ← await_subscription p ;
      store_unsub ALL cb ;;
      modify_this (λ t, set_subscribedEvents (set_add ALL (subscribedEvents t)) t) ;;
      mret None
  | AwaitType type p rest =>
      cb ← await_subscription p ;
      store_unsub type cb ;;
      subscribe_next rest
  end.

(** The number of answers a suspended call still waits for. *)
Definition pending_answers (s : option suspended) : nat :=
  match s with
  | None => 0
  | Some (AwaitWildcard _) => 1
  | Some (AwaitType _ _ rest) => S (length rest)
  end.

(** A suspended call resumed [n] times with nothing else in between. *)
Fixpoint resume_all (n : nat) (s : option suspended) : M unit :=
  match s, n with
  | Some s, S n => s' ← subscribeEvents_resume s ; resume_all n s'
  | _, _ => mret tt
  end.

(** The call awaited by its caller: started, then resumed until it
    completes. *)
Definition subscribeEvents_awaited (events : list string) : M unit :=
  s ← subscribeEvents_start events ;
  resume_all (pending_answers s) s.

(** Steps of calls in the order they run. *)
Inductive schedule_step :=
  | Start (call : nat) (events : list string)
  | Resume (call : nat).

(** The state of the calls in flight: where each one is suspended, and
    the calls that have thrown. *)
Record flight := {
  waiting : gmap nat suspended;
  failed : list (nat * exn);
}.

Definition run_step (fw : flight * World) (st : schedule_step) : flight * World :=
  let (f, w) := fw in
  let settle (call : nat) (r : outcome (option suspended) * World) :=
    match r with
    | (Ret (Some s), w') =>
        ({| waiting := <[call := s]> (waiting f); failed := failed f |}, w')
    | (Ret None, w') =>
        ({| waiting := delete call (waiting f); failed := failed f |}, w')
    | (Throw e, w') =>
        ({| waiting := delete call (waiting f);
            failed := failed f ++ [(call, e)] |}, w')
    end in
  match st with
  | Start call events => settle call (subscribeEvents_start events w)
  | Resume call =>
      match waiting f !! call with
      | Some s => settle call (subscribeEvents_resume s w)
      | None => (f, w)
      end
  end.

Definition run_schedule (sched : list schedule_step) (w : World) : flight * World :=
  foldl run_step ({| waiting := ∅; failed := [] |}, w) sched.

(** ** Closed forms for the loops of [subscribeEvents] *)

(** The world with the multiplexer's share replaced. *)
Definition mux_world (t : HaWebsocket) (net : list net_op) (nxt : nat)
    (w : World) : World :=
  {| this := t; wheap := wheap w; network := net; next_sub := nxt;
     emitted := emitted w; timers := timers w; sockets := sockets w;
     promise := promise w |}.

(** The unsubscribe requests for the event types [l], looked up in the
    registry [m]. *)
Definition unsub_ops (m : gmap string nat) (l : list string) : list net_op :=
  NetUnsubscribe <$> omap (λ e, m !! e) l.

Definition delete_all (l : list string) (m : gmap string nat) : gmap string nat :=
  foldl (λ m e, delete e m) m l.

(** The subscribe requests for the event types [l], numbered from [n]. *)
Fixpoint sub_ops (l : list string) (n : nat) : list net_op :=
  match l with
  | [] => []
  | ty :: r => NetSubscribe (Some ty) n :: sub_ops r (S n)
  end.

Fixpoint sub_map (l : list string) (n : nat) (m : gmap string nat) : gmap string nat :=
  match l with
  | [] => m
  | ty :: r => sub_map r (S n) (<[ty := n]> m)
  end.

Ltac mstep := unfold mbind, M_bind, mret, M_ret; simpl.

(** ** Vocabulary for the multiplexer *)

(** The registry of unsubscribe functions has an entry for exactly the
    active event types, and there is a connection to subscribe on. *)
Definition mux_inv (w : World) : Prop :=
  is_Some (client (this w)) ∧
  NoDup (subscribedEvents (this w)) ∧
  ∀ e, e ∈ subscribedEvents (this w) ↔ is_Some (unsubCallback (this w) !! e).

(** The hub acknowledges the next [n] subscribe requests. *)
Definition acknowledged (w : World) (n : nat) : Prop :=
  ∀ c i, client (this w) = Some c →
    (next_sub w ≤ i)%nat → (i < next_sub w + n)%nat → subscribe_reply c i = None.

(** The hub acknowledges every subscribe request from now on. *)
Definition always_acknowledged (w : World) : Prop := ∀ n, acknowledged w n.

(** The desired set of a call without the wildcard: the requested event
    types and the two that are always included. *)
Definition desired (events : list string) : list string :=
  set_add "nodered" (set_add "state_changed" (new_Set events)).

(** The desired set of any call: the wildcard alone when the requested
    event types include it. *)
Definition target (events : list string) : list string :=
  if bool_decide (ALL ∈ events) then [ALL] else desired events.

(** The subscribe requests a call has to send. *)
Definition to_subscribe (events : list string) (w : World) : list string :=
  filter (λ x, x ∉ subscribedEvents (this w)) (target events).

(** The requests issued between two worlds. *)
Definition issued (w w' : World) : list net_op :=
  drop (length (network w)) (network w').

Definition is_subscribe (o : net_op) : bool :=
  match o with NetSubscribe _ _ => true | NetUnsubscribe _ => false end.

Definition is_unsubscribe (o : net_op) : bool := negb (is_subscribe o).

(** A sequence of calls, each awaited before the next is made: each is
    run to its end in the world the previous one left. *)
Definition run_calls (calls : list (list string)) (w : World) : World :=
  foldl (λ w events, (subscribeEvents events w).2) w calls.


Definition example_config : Config :=
  {| baseUrl := "http://hass.local:8123"; legacy := false; apiPass := "token";
     rejectUnauthorizedCerts := VBool true; connectionDelay := VBool false |}.

(** A constructed object whose [client] holds a connection. *)
Definition connected_world (cfg : Config) : World :=
  with_this (set_client (Some new_client)) (constructor cfg).

(** ** Example inputs *)

(** A request that includes the wildcard next to a concrete type. *)
Definition wildcard_request : list string := [ALL; "a"].

(** The scenario of the specification: [{'__ALL__'}] then [{'lights_on'}]. *)
Definition wildcard_world : World :=
  (subscribeEvents [ALL] (connected_world example_config)).2.

Definition lights_world : World :=
  (subscribeEvents ["lights_on"] wildcard_world).2.

(** A connection to a hub that refuses the first subscribe request, and
    the world a call for the wildcard leaves there. *)
Definition refusing_world : World :=
  with_this
    (set_client (Some (refusing_client 0 (OtherRejection (VStr "unauthorized")))))
    (constructor example_config).

Definition refused_world : World := (subscribeEvents [ALL] refusing_world).2.

(** ** Objects on the heap *)

Definition with_heap (f : heap → heap) (w : World) : World :=
  {| this := this w; wheap := f (wheap w); network := network w;
     next_sub := next_sub w; emitted := emitted w; timers := timers w;
     sockets := sockets w; promise := promise w |}.

Definition get_heap : M heap := λ w, (Ret (wheap w), w).

(** The names that every object inherits from [Object.prototype]. *)
Definition Object_prototype_members : list string :=
  ["constructor"; "__defineGetter__"; "__defineSetter__"; "hasOwnProperty";
   "__lookupGetter__"; "__lookupSetter__"; "isPrototypeOf";
   "propertyIsEnumerable"; "toString"; "valueOf"; "__proto__";
   "toLocaleString"].

(** The value of [v[k]] for a [v] that is neither [undefined] nor [null]:
    an own property, the length of a string, or [undefined].  Own
    properties only: for a key in [Object_prototype_members] that is not
    an own property, JavaScript finds the inherited member where this
    gives [undefined]. *)
Definition prop_of (h : heap) (v : value) (k : string) : value :=
  match v, own_props h v !! k with
  | _, Some x => x
  | VStr s, None => if String.eqb k "length" then VNum (Z.of_nat (String.length s)) else VUndef
  | _, None => VUndef
  end.

Arguments own_props : simpl never.
Arguments prop_of : simpl never.
Arguments to_key : simpl never.

(** [v[k]]: reading a property of [undefined] or [null] throws. *)
Definition read_prop (v : value) (k : string) : M value :=
  λ w, match v with
       | VUndef | VNull => (Throw TypeError, w)
       | _ => (Ret (prop_of (wheap w) v k), w)
       end.

(** [Object.keys(v)], of which only the length is used: throws on
    [undefined] and [null]. *)
Definition object_keys_length (v : value) : M nat :=
  λ w, match v with
       | VUndef | VNull => (Throw TypeError, w)
       | _ => (Ret (keys_length (wheap w) v), w)
       end.

(** An object literal: a new object at a location not in use. *)
Definition alloc (o : obj) : M value :=
  λ w, let l := fresh (dom (wheap w)) in
       (Ret (VRef l), with_heap (λ h, <[l := o]> h) w).

(** [{ ...v }]: a new object with the own enumerable properties of [v]. *)
Definition spread (v : value) : M value :=
  h ← get_heap; alloc (own_props h v).

(** [target[k] = v] in strict mode: throws unless [target] is an object. *)
Definition write_prop (target : value) (k : string) (v : value) : M unit :=
  λ w, match target with
       | VRef l =>
           (Ret tt,
            with_heap (λ h, <[l := <[k := v]> (default ∅ (h !! l))]> h) w)
       | _ => (Throw TypeError, w)
       end.

(** ** Entity snapshot cache *)

Definition onClientStates (msg : value) : M unit :=
  h ← get_heap;
  if negb (truthy msg) || (keys_length h msg =? 0)%nat then mret tt
  else
    modify_this (set_states msg) ;;
    t ← get_this;
    if negb (statesLoaded t) then
      modify_this (set_statesLoaded true) ;;
      t ← get_this;
      emit "ha_client:states_loaded" [states t]
    else mret tt.

Definition onClientServices (msg : value) : M unit :=
  h ← get_heap;
  if negb (truthy msg) || (keys_length h msg =? 0)%nat then mret tt
  else
    modify_this (set_services msg) ;;
    t ← get_this;
    if negb (servicesLoaded t) then
      modify_this (set_servicesLoaded true) ;;
      t ← get_this;
      emit "ha_client:services_loaded" [services t]
    else mret tt.

Definition getStates (entityId forceRefresh : value) : M value :=
  t ← get_this;
  object_keys_length (states t) ;;
  if truthy entityId then
    v ← read_prop (states t) (to_key entityId);
    if truthy v then spread v else mret VNull
  else spread (states t).

Definition getServices (forceRefresh : value) : M value :=
  t ← get_this;
  spread (services t).

(** ** Event dispatcher *)

Definition onClientEvents (msg : value) : M unit :=
  if negb (truthy msg) then mret tt else
  data ← read_prop msg "data";
  if negb (truthy data) || bool_decide (data = VStr "ping") then mret tt else
  eventType ← read_prop msg "event_type";
  entityId ← read_prop data "entity_id";
  if bool_decide (eventType = VStr "nodered") then
    type ← read_prop data "type";
    (if bool_decide (type = VStr "loaded") then
       version ← read_prop data "version";
       modify_this (set_integrationVersion version)
     else if bool_decide (type = VStr "unloaded") then
       modify_this (set_integrationVersion (VNum 0))
     else mret tt) ;;
    emit "integration" [type]
  else
    emitEvent ← alloc (<["event" := data]>
                       (<["entity_id" := entityId]>
                        (<["event_type" := eventType]> ∅)));
    (if truthy entityId && bool_decide (eventType = VStr "state_changed")
        && truthy data
     then
       new_state ← read_prop data "new_state";
       if truthy new_state then
         t ← get_this;
         write_prop (states t) (to_key entityId) new_state
       else mret tt
     else mret tt) ;;
    (if truthy eventType then
       emit ("ha_events:" +:+ to_key eventType) [emitEvent] ;;
       if truthy entityId then
         emit ("ha_events:" +:+ to_key eventType +:+ ":" +:+ to_key entityId)
              [emitEvent]
       else mret tt
     else mret tt) ;;
    emit "ha_events:all" [emitEvent].

(** ** Example heap contents *)

(** Objects the library hands over have been allocated by it. *)
Definition install (l : loc) (o : obj) (w : World) : World :=
  with_heap (λ h, <[l := o]> h) w.

(** A bulk payload with one entity, [light.kitchen], whose record holds a
    state and an attributes object. *)
Definition bulk_world : World :=
  install 3%positive {["light.kitchen" := VRef 4%positive]}
    (install 4%positive (<["state" := VStr "on"]> {["attributes" := VRef 5%positive]})
       (install 5%positive {["brightness" := VNum 10]}
          (constructor example_config))).

Definition cache_world : World := (onClientStates (VRef 3%positive) bulk_world).2.

(** A [state_changed] frame for [light.kitchen] with a new state. *)
Definition frame_world : World :=
  install 6%positive (<["event_type" := VStr "state_changed"]> {["data" := VRef 7%positive]})
    (install 7%positive (<["entity_id" := VStr "light.kitchen"]> {["new_state" := VRef 8%positive]})
       (install 8%positive {["state" := VStr "off"]} cache_world)).

(** A bulk payload that is missing or has no keys. *)
Definition empty_payload (h : heap) (msg : value) : Prop :=
  truthy msg = false ∨ keys_length h msg = 0.

(** The world a listener of the emission [e] runs in. *)
Definition listener_world (e : emission) (w : World) : World :=
  {| this := em_this e; wheap := em_heap e; network := network w;
     next_sub := next_sub w; emitted := emitted w; timers := timers w;
     sockets := sockets w; promise := promise w |}.

(** ** Callers of the cache *)

Inductive read_call :=
  | GetStates (entityId forceRefresh : value)
  | GetServices (forceRefresh : value).

Definition run_read (c : read_call) : M value :=
  match c with
  | GetStates entityId forceRefresh => getStates entityId forceRefresh
  | GetServices forceRefresh => getServices forceRefresh
  end.

(** What a caller can do to an object it holds a reference to:
    [o[k] = v] and [delete o[k]]. *)
Inductive mutation :=
  | MSet (l : loc) (k : string) (v : value)
  | MDelete (l : loc) (k : string).

Definition mutation_target (mu : mutation) : loc :=
  match mu with MSet l _ _ | MDelete l _ => l end.

Definition mutate (h : heap) (mu : mutation) : heap :=
  match mu with
  | MSet l k v => alter (λ o, <[k := v]> o) l h
  | MDelete l k => alter (λ o, delete k o) l h
  end.

Definition caller_mutates (mus : list mutation) (w : World) : World :=
  with_heap (λ h, foldl mutate h mus) w.

(** What the caller sees of a result: the exception, the primitive, or
    the own properties of the object returned. *)
Inductive observed :=
  | ObsThrow (e : exn)
  | ObsValue (v : value)
  | ObsObject (o : obj).

Definition observe (r : outcome value * World) : observed :=
  match r with
  | (Ret (VRef l), w) => ObsObject (default ∅ (wheap w !! l))
  | (Ret v, _) => ObsValue v
  | (Throw e, _) => ObsThrow e
  end.

(** No object holds a reference to a location that is not allocated. *)
Definition value_allocated (h : heap) (v : value) : Prop :=
  match v with VRef n => is_Some (h !! n) | _ => True end.

#[global] Instance value_allocated_dec h v : Decision (value_allocated h v).
Proof. destruct v; simpl; apply _. Defined.

Definition heap_closed (h : heap) : Prop :=
  map_Forall (λ _ o, map_Forall (λ _ v, value_allocated h v) o) h.

#[global] Instance heap_closed_dec h : Decision (heap_closed h).
Proof. unfold heap_closed. apply _. Defined.

(** The two stores of the cache are allocated objects of a closed heap. *)
Definition cache_ok (w : World) : Prop :=
  heap_closed (wheap w) ∧
  (∃ sl, states (this w) = VRef sl ∧ is_Some (wheap w !! sl)) ∧
  (∃ vl, services (this w) = VRef vl ∧ is_Some (wheap w !! vl)).

(** The caller of [getStates()] switches the kitchen light off in the
    record it finds under the result. *)
Definition nested_result_world : World :=
  caller_mutates [MSet 4%positive "state" (VStr "off")]
    (getStates VUndef VUndef cache_world).2.

(** The caller of [getStates('light.kitchen')] changes the brightness in
    the attributes object it finds under the result. *)
Definition nested_attributes_world : World :=
  caller_mutates [MSet 5%positive "brightness" (VNum 99)]
    (getStates (VStr "light.kitchen") VUndef cache_world).2.

(** A property of what the caller sees. *)
Definition observed_prop (x : observed) (k : string) : option value :=
  match x with
  | ObsObject o => o !! k
  | _ => None
  end.

(** ** Transport handshake and reconnect supervisor: [createSocket] *)

#[global] Instance rejection_eq_dec : EqDecision rejection.
Proof. solve_decision. Defined.

Definition MSG_TYPE_AUTH_REQUIRED : string := "auth_required".
Definition MSG_TYPE_AUTH_INVALID : string := "auth_invalid".
Definition MSG_TYPE_AUTH_OK : string := "auth_ok".

Definition with_timers (f : list Z → list Z) (w : World) : World :=
  {| this := this w; wheap := wheap w; network := network w;
     next_sub := next_sub w; emitted := emitted w; timers := f (timers w);
     sockets := sockets w; promise := promise w |}.

Definition with_sockets (f : list Socket → list Socket) (w : World) : World :=
  {| this := this w; wheap := wheap w; network := network w;
     next_sub := next_sub w; emitted := emitted w; timers := timers w;
     sockets := f (sockets w); promise := promise w |}.

Definition with_promise (p : promise_state) (w : World) : World :=
  {| this := this w; wheap := wheap w; network := network w;
     next_sub := next_sub w; emitted := emitted w; timers := timers w;
     sockets := sockets w; promise := p |}.

Definition set_lOpen (b : bool) (s : Socket) : Socket :=
  {| lOpen := b; lMessage := lMessage s; lClose := lClose s; lError := lError s;
     invalidAuth := invalidAuth s; closeRequested := closeRequested s;
     sentAuth := sentAuth s; phase := phase s |}.

Definition set_lMessage (b : bool) (s : Socket) : Socket :=
  {| lOpen := lOpen s; lMessage := b; lClose := lClose s; lError := lError s;
     invalidAuth := invalidAuth s; closeRequested := closeRequested s;
     sentAuth := sentAuth s; phase := phase s |}.

Definition set_lClose (b : bool) (s : Socket) : Socket :=
  {| lOpen := lOpen s; lMessage := lMessage s; lClose := b; lError := lError s;
     invalidAuth := invalidAuth s; closeRequested := closeRequested s;
     sentAuth := sentAuth s; phase := phase s |}.

Definition set_lError (b : bool) (s : Socket) : Socket :=
  {| lOpen := lOpen s; lMessage := lMessage s; lClose := lClose s; lError := b;
     invalidAuth := invalidAuth s; closeRequested := closeRequested s;
     sentAuth := sentAuth s; phase := phase s |}.

Definition set_invalidAuth (b : bool) (s : Socket) : Socket :=
  {| lOpen := lOpen s; lMessage := lMessage s; lClose := lClose s; lError := lError s;
     invalidAuth := b; closeRequested := closeRequested s;
     sentAuth := sentAuth s; phase := phase s |}.

Definition set_closeRequested (b : bool) (s : Socket) : Socket :=
  {| lOpen := lOpen s; lMessage := lMessage s; lClose := lClose s; lError := lError s;
     invalidAuth := invalidAuth s; closeRequested := b;
     sentAuth := sentAuth s; phase := phase s |}.

Definition set_sentAuth (n : nat) (s : Socket) : Socket :=
  {| lOpen := lOpen s; lMessage := lMessage s; lClose := lClose s; lError := lError s;
     invalidAuth := invalidAuth s; closeRequested := closeRequested s;
     sentAuth := n; phase := phase s |}.

Definition set_phase (p : ready_state) (s : Socket) : Socket :=
  {| lOpen := lOpen s; lMessage := lMessage s; lClose := lClose s; lError := lError s;
     invalidAuth := invalidAuth s; closeRequested := closeRequested s;
     sentAuth := sentAuth s; phase := p |}.

(** [new WebSocket(url, options)]: a socket that is connecting, with no
    listener yet; [let invalidAuth = false]. *)
Definition new_socket : Socket :=
  {| lOpen := false; lMessage := false; lClose := false; lError := false;
     invalidAuth := false; closeRequested := false; sentAuth := 0;
     phase := SockConnecting |}.

(** The address is taken to be one that [new WebSocket] accepts, a
    [ws:] or [wss:] URL: for any other the constructor throws, which is
    not modelled. *)
Definition new_WebSocket : M nat :=
  λ w, (Ret (length (sockets w)), with_sockets (λ l, l ++ [new_socket]) w).

Definition update_socket (sid : nat) (f : Socket → Socket) : M unit :=
  λ w, (Ret tt, with_sockets (alter f sid) w).

(** The closure variables of the attempt that owns socket [sid]. *)
Definition get_socket (sid : nat) : M Socket :=
  λ w, (Ret (default new_socket (sockets w !! sid)), w).

(** [setTimeout(() => connect(promResolve, promReject), delay)]. *)
Definition setTimeout (delay : Z) : M unit :=
  λ w, (Ret tt, with_timers (λ l, l ++ [delay]) w).

(** Settling a promise that is settled already does nothing. *)
Definition promResolve (sid : nat) : M unit :=
  λ w, (Ret tt, match promise w with
                | Pending => with_promise (Resolved sid) w
                | _ => w
                end).

Definition promReject (r : rejection) : M unit :=
  λ w, (Ret tt, match promise w with
                | Pending => with_promise (Rejected r) w
                | _ => w
                end).

(** [socket.close()]. *)
Definition socket_close (sid : nat) : M unit :=
  update_socket sid (set_closeRequested true).

(** [onOpen]; [send_error] is what [socket.send] throws, if it throws. *)
Definition onOpen (sid : nat) (send_error : option rejection) : M unit :=
  match send_error with
  | None => s ← get_socket sid; update_socket sid (set_sentAuth (S (sentAuth s)))
  | Some err =>
      update_socket sid
        (set_invalidAuth (bool_decide (err = HassErr ERR_INVALID_AUTH))) ;;
      socket_close sid
  end.

Definition onClose (sid : nat) : M unit :=
  update_socket sid (set_lClose false) ;;
  s ← get_socket sid;
  if invalidAuth s then promReject (HassErr ERR_INVALID_AUTH)
  else setTimeout 5000.

(** [onMessage]; [type] is [message.type] of the parsed frame. *)
Definition onMessage (sid : nat) (type : value) : M unit :=
  if bool_decide (type = VStr MSG_TYPE_AUTH_INVALID) then
    update_socket sid (set_invalidAuth true) ;;
    socket_close sid
  else if bool_decide (type = VStr MSG_TYPE_AUTH_OK) then
    update_socket sid (set_lOpen false) ;;
    update_socket sid (set_lMessage false) ;;
    update_socket sid (set_lClose false) ;;
    update_socket sid (set_lError false) ;;
    promResolve sid
  else mret tt.

(** The function [connect] inside [createSocket]. *)
Definition createSocket_connect : M unit :=
  modify_this (set_connectionState CONNECTING) ;;
  emit "ha_client:connecting" [] ;;
  sid ← new_WebSocket;
  update_socket sid (set_lOpen true) ;;
  update_socket sid (set_lMessage true) ;;
  update_socket sid (set_lClose true) ;;
  update_socket sid (set_lError true).

(** [createSocket]: a new promise, and the timer of the first attempt. *)
Definition createSocket : M unit :=
  (λ w, (Ret tt, with_promise Pending w)) ;;
  t ← get_this;
  setTimeout (if bool_decide (connectionDelay (config t) ≠ VBool false)
              then 5000 else 0).

(** ** The environment of the handshake *)

(** What the run time delivers: a timer that expires, and the events of
    a socket. *)
Inductive event :=
  | EvTimer
  | EvOpen (sid : nat) (send_error : option rejection)
  | EvMessage (sid : nat) (type : value)
  | EvError (sid : nat)
  | EvClose (sid : nat).

(** The listeners registered for the event run; the socket moves on in
    its life cycle. *)
Definition deliver (ev : event) : M unit :=
  match ev with
  | EvTimer =>
      w ← (λ w, (Ret w, w));
      match timers w with
      | [] => mret tt
      | _ :: rest => (λ w, (Ret tt, with_timers (λ _, rest) w)) ;; createSocket_connect
      end
  | EvOpen sid send_error =>
      update_socket sid (set_phase SockOpen) ;;
      s ← get_socket sid;
      if lOpen s then onOpen sid send_error else mret tt
  | EvMessage sid type =>
      s ← get_socket sid;
      if lMessage s then onMessage sid type else mret tt
  | EvError sid =>
      update_socket sid (set_phase SockErrored) ;;
      s ← get_socket sid;
      if lError s then onClose sid else mret tt
  | EvClose sid =>
      update_socket sid (set_phase SockClosed) ;;
      s ← get_socket sid;
      if lClose s then onClose sid else mret tt
  end.

Definition step (ev : event) (w : World) : World := (deliver ev w).2.

(** The life cycle of a socket: it opens at most once and before
    anything else, delivers messages while open, reports an error at most
    once and closes last; a timer expires only if one is pending. *)
Definition enabled (w : World) (ev : event) : bool :=
  match ev with
  | EvTimer => bool_decide (timers w ≠ [])
  | EvOpen sid _ =>
      bool_decide (phase <$> sockets w !! sid = Some SockConnecting)
  | EvMessage sid _ =>
      bool_decide (phase <$> sockets w !! sid = Some SockOpen)
  | EvError sid =>
      bool_decide (phase <$> sockets w !! sid = Some SockConnecting ∨
                   phase <$> sockets w !! sid = Some SockOpen)
  | EvClose sid =>
      bool_decide (is_Some (sockets w !! sid) ∧
                   phase <$> sockets w !! sid ≠ Some SockClosed)
  end.

Fixpoint run_trace (evs : list event) (w : World) : option World :=
  match evs with
  | [] => Some w
  | ev :: rest => if enabled w ev then run_trace rest (step ev w) else None
  end.

(** The world in which [createSocket] has just been called. *)
Definition handshake_start (cfg : Config) : World :=
  (createSocket (constructor cfg)).2.

(** ** The retry discipline *)

Definition b2n (b : bool) : nat := if b then 1 else 0.
Arguments b2n : simpl never.

(** The sockets whose attempt is still running: [onClose] is still
    registered for their close event. *)
Definition live_count (l : list Socket) : nat :=
  sum_list_with (λ s, b2n (lClose s)) l.

(** What can still lead to a new attempt or settle the promise: the
    pending timers and the running attempts. *)
Definition pending_work (w : World) : nat :=
  length (timers w) + live_count (sockets w).

(** A socket either runs its attempt, with [onClose] registered for both
    events and the socket not yet failed, or is done with: [auth_ok]
    removed the listeners, or the socket has failed or closed. *)
Definition sock_ok (s : Socket) : Prop :=
  if lClose s
  then lError s = true ∧ (phase s = SockConnecting ∨ phase s = SockOpen)
  else (lError s = false ∧ lMessage s = false) ∨
       phase s = SockErrored ∨ phase s = SockClosed.

Definition hs_inv (w : World) : Prop :=
  Forall sock_ok (sockets w) ∧
  pending_work w = match promise w with Pending => 1 | _ => 0 end.

(** [n] attempts that each end with the socket closing. *)
Fixpoint failing_rounds (n : nat) (first : nat) : list event :=
  match n with
  | 0 => []
  | S n => EvTimer :: EvClose first :: failing_rounds n (S first)
  end.

(** ** Connection state machine: [connect] *)

Definition set_closeCalled (b : bool) (c : Client) : Client :=
  {| closeCalled := b; eventListeners := eventListeners c;
     collections := collections c; subscribe_reply := subscribe_reply c |}.

Definition add_eventListener (type : string) (c : Client) : Client :=
  {| closeCalled := closeCalled c;
     eventListeners := eventListeners c ++ [type];
     collections := collections c; subscribe_reply := subscribe_reply c |}.

Definition add_collection (name : string) (c : Client) : Client :=
  {| closeCalled := closeCalled c; eventListeners := eventListeners c;
     collections := collections c ++ [name];
     subscribe_reply := subscribe_reply c |}.

(** A method call on [this.client]; on [null] the access throws. *)
Definition on_client (f : Client → Client) : M unit :=
  λ w, match client (this w) with
       | None => (Throw TypeError, w)
       | Some c => (Ret tt, with_this (set_client (Some (f c))) w)
       end.

Definition onClientOpen : M unit :=
  modify_this (set_integrationVersion (VNum 0)) ;;
  modify_this (set_connectionState CONNECTED) ;;
  emit "ha_client:open" [].

(** The [catch] handler of [connect]. *)
Definition connect_catch (e : rejection) : M bool :=
  modify_this (set_connectionState ERROR) ;;
  emit "ha_client:close" [] ;;
  match e with
  | HassErr ERR_CANNOT_CONNECT =>
      throw (JsError "Cannot connect to Home Assistant server")
  | HassErr ERR_INVALID_AUTH =>
      throw (JsError "Invalid access token or password for websocket")
  | HassErr ERR_CONNECTION_LOST => throw (JsError "connection lost")
  | HassErr ERR_HASS_HOST_REQUIRED =>
      throw (JsError "Base URL not set in server config")
  | HassErr ERR_INVALID_HTTPS_TO_HTTP => throw (JsError "ERR_INVALID_HTTPS_TO_HTTP")
  | OtherRejection _ => throw (Thrown e)
  end.

(** [connect], from the point where the promise of [createConnection]
    has settled: [created] is the rejection or the connection object it
    settled with, [user] what [getUser] settles with. *)
Definition connect (created : rejection + Client) (user : rejection + value)
    : M bool :=
  match created with
  | inl e => connect_catch e
  | inr c =>
      modify_this (set_client (Some c)) ;;
      match user with
      | inl e => throw (Thrown e)
      | inr user =>
          is_admin ← read_prop user "is_admin";
          if bool_decide (is_admin = VBool false) then
            modify_this (set_connectionState ERROR) ;;
            on_client (set_closeCalled true) ;;
            throw (JsError "User required to have admin privileges in Home Assistant")
          else
            onClientOpen ;;
            emit "ha_client:connected" [] ;;
            on_client (add_eventListener "ready") ;;
            on_client (add_eventListener "disconnected") ;;
            on_client (add_eventListener "reconnect-error") ;;
            on_client (add_collection "entities") ;;
            on_client (add_collection "services") ;;
            on_client (add_collection "config") ;;
            mret true
      end
  end.

(** Modelled from the library: [createConnection] of
    home-assistant-js-websocket awaits the promise that [createSocket]
    returns and wraps the socket in a new connection object; a rejection
    passes through. *)
Definition createConnection_result (w : World) : option (rejection + Client) :=
  match promise w with
  | Pending => None
  | Resolved _ => Some (inr new_client)
  | Rejected r => Some (inl r)
  end.

(** ** Example handshakes *)

(** The first attempt has opened its socket and sent the auth frame; the
    server has asked for authentication. *)
Definition auth_phase_world : World :=
  step (EvMessage 0 (VStr MSG_TYPE_AUTH_REQUIRED))
    (step (EvOpen 0 None)
       (step EvTimer (handshake_start example_config))).

(** The server has accepted the credentials.  Three user records are on
    the heap: one that is not an admin, one that is, and one without the
    field. *)
Definition auth_ok_world : World :=
  install 3%positive {["is_admin" := VBool false]}
    (install 4%positive {["is_admin" := VBool true]}
       (install 5%positive {["name" := VStr "guest"]}
          (step (EvMessage 0 (VStr MSG_TYPE_AUTH_OK)) auth_phase_world))).

(** ** Further vocabulary for the multiplexer *)

(** The wildcard, when active, is the only active entry. *)
Definition wildcard_alone (w : World) : Prop :=
  ALL ∈ subscribedEvents (this w) → subscribedEvents (this w) = [ALL].

(** The event type a registry key stands for on the wire: the wildcard
    key is the subscription without a type. *)
Definition wire_type (e : string) : option string :=
  if bool_decide (e = ALL) then None else Some e.

(** The subscriptions open on the server after a request: a subscribe
    opens one under its id, an unsubscribe closes the one with its id.
    [None] when the request subscribes under an id that is open, or
    unsubscribes an id that is not. *)
Definition open_step (open : option (gmap nat (option string))) (o : net_op)
    : option (gmap nat (option string)) :=
  match open with
  | None => None
  | Some m =>
      match o with
      | NetSubscribe type id =>
          match m !! id with
          | None => Some (<[id := type]> m)
          | Some _ => None
          end
      | NetUnsubscribe id =>
          match m !! id with
          | Some _ => Some (delete id m)
          | None => None
          end
      end
  end.

Definition open_subscriptions (net : list net_op)
    : option (gmap nat (option string)) :=
  foldl open_step (Some ∅) net.

(** The registry [reg] holds the unsubscribe function of exactly the
    open subscriptions [m], each under the key of its type, and ids from
    [n] on are unused. *)
Definition tracks (reg : gmap string nat) (m : gmap nat (option string))
    (n : nat) : Prop :=
  (∀ e id, reg !! e = Some id → m !! id = Some (wire_type e)) ∧
  (∀ id ty, m !! id = Some ty → ∃ e, reg !! e = Some id ∧ wire_type e = ty) ∧
  (∀ e1 e2 id, reg !! e1 = Some id → reg !! e2 = Some id → e1 = e2) ∧
  (∀ id, is_Some (m !! id) → id < n).

(** The requests sent so far are consistent, and the registry holds the
    unsubscribe functions of exactly the subscriptions they left open. *)
Definition mux_tracked (w : World) : Prop :=
  ∃ m, open_subscriptions (network w) = Some m ∧
       tracks (unsubCallback (this w)) m (next_sub w).

(** ** Sequences of bulk payloads *)

(** The test at the head of [onClientStates] and [onClientServices],
    negated. *)
Definition nonempty_payload (h : heap) (msg : value) : bool :=
  truthy msg && negb (keys_length h msg =? 0)%nat.

Definition apply_states (msgs : list value) (w : World) : World :=
  foldl (λ w msg, (onClientStates msg w).2) w msgs.

Definition apply_services (msgs : list value) (w : World) : World :=
  foldl (λ w msg, (onClientServices msg w).2) w msgs.

(** Topic and arguments of a notification. *)
Definition em_call (e : emission) : string * list value :=
  (em_topic e, em_args e).

(** ** What a frame means for the cache *)


(** A frame the dispatcher drops: nothing, no payload, or a ping. *)
Definition dropped_frame (h : heap) (msg : value) : Prop :=
  truthy msg = false ∨
  truthy (prop_of h msg "data") = false ∨
  prop_of h msg "data" = VStr "ping".

(** The topics an event is published on, in order. *)
Definition event_topics (eventType entityId : value) : list string :=
  (if truthy eventType then
     ("ha_events:" +:+ to_key eventType) ::
     (if truthy entityId
      then ["ha_events:" +:+ to_key eventType +:+ ":" +:+ to_key entityId]
      else [])
   else []) ++ ["ha_events:all"].

(** A [nodered] frame that announces version 3 of the integration. *)
Definition nodered_world : World :=
  install 9%positive (<["event_type" := VStr "nodered"]> {["data" := VRef 10%positive]})
    (install 10%positive (<["type" := VStr "loaded"]> {["version" := VNum 3]})
       frame_world).


(** ** Connection state machine: the client's events *)

#[global] Instance conn_state_eq_dec : EqDecision conn_state.
Proof. solve_decision. Defined.

(** [get isConnected()]. *)
Definition isConnected (t : HaWebsocket) : bool :=
  bool_decide (connectionState t = CONNECTED).

(** [closeClient(err, logMsg)].  [readyState] and [CLOSED] are the values
    of [this.client.readyState] and [this.client.CLOSED], properties of the
    library's connection object that are read only when [this.client] is
    set; the log message goes to the debug log only. *)
Definition closeClient (err logMsg : value) (readyState CLOSED : value) : M unit :=
  (if truthy err then emit "ha_client:error" [err] else mret tt) ;;
  modify_this (set_servicesLoaded false) ;;
  modify_this (set_statesLoaded false) ;;
  t ← get_this;
  if bool_decide (is_Some (client t)) && bool_decide (readyState = CLOSED) then
    modify_this (set_connectionState DISCONNECTED) ;;
    emit "ha_client:close" []
  else mret tt.

Definition onClientClose (readyState CLOSED : value) : M unit :=
  modify_this (set_integrationVersion (VNum 0)) ;;
  modify_this (set_connectionState DISCONNECTED) ;;
  emit "ha_client:close" [] ;;
  closeClient VNull (VStr "events connection closed, cleaning up connection")
    readyState CLOSED.

Definition onClientError (data : value) (readyState CLOSED : value) : M unit :=
  closeClient data (VStr "events connection error, cleaning up connection")
    readyState CLOSED.

(** [send(data)]: [this.client.sendMessagePromise(data)], whose promise
    the library settles with [reply]; on [null] the access throws. *)
Definition send (reply : rejection + value) : M value :=
  λ w, match client (this w) with
       | None => (Throw TypeError, w)
       | Some _ =>
           match reply with
           | inl r => (Throw (Thrown r), w)
           | inr v => (Ret v, w)
           end
       end.

(** [try { m } catch (e) { handler }]. *)
Definition try_catch {A} (m : M A) (handler : exn → M A) : M A :=
  λ w, match m w with
       | (Throw e, w') => handler e w'
       | (Ret a, w') => (Ret a, w')
       end.

(** [onClientConfigUpdate(config)]: [components] are the elements of the
    array [config.components], [None] when the config has no such array;
    [reply] is what the library answers to the version request. *)
Definition onClientConfigUpdate (components : option (list value))
    (reply : rejection + value) : M unit :=
  modify_this (set_integrationVersion (VNum 0)) ;;
  match components with
  | None => throw TypeError
  | Some cs =>
      (if bool_decide (VStr "nodered" ∈ cs) then
         try_catch
           (version ← send reply; modify_this (set_integrationVersion version))
           (λ _, mret tt)
       else mret tt) ;;
      emit "ha_events:config_update" []
  end.

(** ** The preamble of [createSocket] *)

(** [s.substr(n)]: the string from index [n] on, empty when [n] is at or
    beyond its end. *)
Fixpoint substr (n : nat) (s : string) : string :=
  match n, s with
  | 0, _ => s
  | S n, String _ r => substr n r
  | S _, EmptyString => EmptyString
  end.

(** [const url = `ws${self.config.baseUrl.substr(4)}/api/websocket`]. *)
Definition socket_url (cfg : Config) : string :=
  "ws" +:+ substr 4 (baseUrl cfg) +:+ "/api/websocket".

(** [authObj], the frame that [onOpen] sends. *)
Definition authObj (cfg : Config) : gmap string value :=
  <[(if legacy cfg then "api_password" else "access_token") := VStr (apiPass cfg)]>
    {["type" := VStr "auth"]}.

(** The first attempt has created its socket, which has not opened yet. *)
Definition connecting_world : World :=
  step EvTimer (handshake_start example_config).

(** * A consumer of the cache: the trigger-state node *)

(** The node reaches the cache through
    [this.nodeConfig.server.homeAssistant].  That object is taken to be
    the [HaWebsocket] instance of the world, so that the [getStates] the
    node calls is the method of the class above; the code that stores the
    instance there is not part of this development. *)

(** Of a constraint of the node's configuration, the fields that
    [getConstraintTargetData] reads. *)
Record Constraint := {
  targetType : value;
  targetValue : value;
  propertyType : value;
}.

(** [this.nodeConfig], as far as the functions below read it. *)
Record NodeConfig := {
  entityid : value;
  entityidfiltertype : value;
  state_type : value;
  constraints : list Constraint;
}.

Record TriggerState := {
  nodeConfig : NodeConfig;
  isEnabled : value;
}.

(** What the node calls outside its file: the filter of [lib/utils], the
    cast of its base class, and the clock.  They return or throw, and are
    taken not to touch the objects of the heap.  [timeSinceChanged n v]
    is [Date.now() - new Date(v).getTime()] at the [n]-th event. *)
Class NodeExternals := {
  shouldIncludeEvent : value → value → value → outcome value;
  getCastValue : value → value → outcome value;
  timeSinceChanged : nat → value → value;
}.

(** A call of such a function. *)
Definition external {A} (r : outcome A) : M A := λ w, (r, w).

Definition is_object (v : value) : bool :=
  match v with VRef _ => true | _ => false end.

(** Modelled from the library: [selectn(path, object)] follows the path
    and yields [undefined] as soon as it stands on something that is not
    an object. *)
Definition selectn (path : list string) (object : value) : M value :=
  λ w, (Ret (foldl (λ ref k, if is_object ref then prop_of (wheap w) ref k
                             else VUndef) object path), w).

(** [v.k1.k2...]. *)
Fixpoint get_path (v : value) (path : list string) : M value :=
  match path with
  | [] => mret v
  | k :: rest => x ← read_prop v k; get_path x rest
  end.

Section trigger_state.
Context `{NodeExternals}.

(** [getConstraintTargetData] up to the point where it awaits
    [getStates]: the target object and the state it is about to store.
    For a constraint on the entity of the node nothing is awaited. *)
Definition targetData_begin (cfg : NodeConfig) (constraint : Constraint)
    (triggerEvent : value) : M (value * value) :=
  targetData ← alloc (<["entityid" := VNull]> {["state" := VNull]});
  let isTargetThisEntity := bool_decide (targetType constraint = VStr "this_entity") in
  write_prop targetData "entityid"
    (if isTargetThisEntity then entityid cfg else targetValue constraint) ;;
  state ← (if isTargetThisEntity then mret triggerEvent
           else id ← read_prop targetData "entityid"; getStates id (VBool false));
  mret (targetData, state).

Definition getConstraintTargetData (cfg : NodeConfig) (constraint : Constraint)
    (triggerEvent : value) : M value :=
  ts ← targetData_begin cfg constraint triggerEvent;
  write_prop ts.1 "state" ts.2 ;;
  (if negb (bool_decide (targetType constraint = VStr "this_entity")) &&
      bool_decide (propertyType constraint = VStr "current_state")
   then
     state ← read_prop ts.1 "state";
     wrapper ← alloc {["new_state" := state]};
     write_prop ts.1 "state" wrapper
   else mret tt) ;;
  mret ts.1.

(** [getConstraintComparatorResults] up to its first suspension, which
    is in the first round of its loop, at the call of
    [getConstraintTargetData]. *)
Definition getConstraintComparatorResults_start (cfg : NodeConfig)
    (eventMessage : value) : M unit :=
  match constraints cfg with
  | [] => mret tt
  | constraint :: _ =>
      event ← read_prop eventMessage "event";
      if bool_decide (targetType constraint = VStr "this_entity")
      then getConstraintTargetData cfg constraint event ;; mret tt
      else targetData_begin cfg constraint event ;; mret tt
  end.

(** The two assignments that convert [eventMessage.event.<which>.state]
    and keep the original. *)
Definition convert_state (cfg : NodeConfig) (eventMessage : value)
    (which : string) : M unit :=
  state ← get_path eventMessage ["event"; which; "state"];
  target ← get_path eventMessage ["event"; which];
  write_prop target "original_state" state ;;
  state ← get_path eventMessage ["event"; which; "state"];
  cast ← external (getCastValue (state_type cfg) state);
  target ← get_path eventMessage ["event"; which];
  write_prop target "state" cast.

(** [onEntityStateChanged] up to its first suspension.  The function is
    asynchronous: what it throws rejects its promise (or goes to
    [this.error]) and does not reach the caller. *)
Definition onEntityStateChanged_start (node : TriggerState) (tick : nat)
    (eventMessage : value) : M unit :=
  let cfg := nodeConfig node in
  try_catch
    (if bool_decide (isEnabled node = VBool false) then mret tt else
     new_state ← selectn ["event"; "new_state"] eventMessage;
     if negb (truthy new_state) then mret tt else
     eventMessage ← spread eventMessage;
     entity_id ← read_prop eventMessage "entity_id";
     include ← external (shouldIncludeEvent entity_id (entityid cfg)
                           (entityidfiltertype cfg));
     if negb (truthy include) then mret tt else
     (if truthy (state_type cfg) && negb (bool_decide (state_type cfg = VStr "str"))
      then
        old_state ← get_path eventMessage ["event"; "old_state"];
        (if truthy old_state then convert_state cfg eventMessage "old_state"
         else mret tt) ;;
        convert_state cfg eventMessage "new_state"
      else mret tt) ;;
     last_changed ← get_path eventMessage ["event"; "new_state"; "last_changed"];
     target ← get_path eventMessage ["event"; "new_state"];
     write_prop target "timeSinceChangedMs" (timeSinceChanged tick last_changed) ;;
     getConstraintComparatorResults_start cfg eventMessage)
    (λ _, mret tt).

(** One round of the loop of [onStatesLoaded]. *)
Definition onStatesLoaded_round (node : TriggerState) (entities : value)
    (round : nat * string) : M unit :=
  old_state ← read_prop entities round.2;
  new_state ← read_prop entities round.2;
  event ← alloc (<["entity_id" := VStr round.2]>
                   (<["old_state" := old_state]> {["new_state" := new_state]}));
  eventMessage ← alloc (<["event_type" := VStr "state_changed"]>
                          (<["entity_id" := VStr round.2]> {["event" := event]}));
  onEntityStateChanged_start node round.1 eventMessage.

(** [onStatesLoaded(entities)]; [order] lists the keys of [entities] in
    the order in which [for ... in] enumerates them. *)
Definition onStatesLoaded (node : TriggerState) (order : list string)
    (entities : value) : M unit :=
  forEach (zip (seq 0 (length order)) order) (onStatesLoaded_round node entities).

Definition onDeploy (node : TriggerState) (order : list string) : M unit :=
  entities ← getStates VUndef (VBool false);
  onStatesLoaded node order entities.
End trigger_state.

(** ** Vocabulary for the effect of the node on the heap *)

(** Every object of [h] is in [h'] as it was; [h'] may hold more. *)
Definition extends (h h' : heap) : Prop :=
  ∀ p, is_Some (h !! p) → h' !! p = h !! p.

(** Nothing but the heap differs. *)
Definition heap_only (w w' : World) : Prop :=
  w' = with_heap (λ _, wheap w') w.

(** What holds of the heap [hc] while [onEntityStateChanged] works on a
    message that [onStatesLoaded] built in the heap [h] for the record
    [rec]: the objects of [h] are still there; those that are not the
    record are as they were; the event object [e1] and the copy [e3] of
    the message, both new, are as they were built. *)
Definition round_inv (h : heap) (rec : value) (e1 e3 : loc) (EO MO : obj)
    (hc : heap) : Prop :=
  (∀ p, is_Some (h !! p) → is_Some (hc !! p)) ∧
  (∀ p, is_Some (h !! p) → VRef p ≠ rec → hc !! p = h !! p) ∧
  h !! e1 = None ∧ h !! e3 = None ∧
  hc !! e1 = Some EO ∧ hc !! e3 = Some MO ∧
  MO !! "event" = Some (VRef e1) ∧
  EO !! "old_state" = Some rec ∧ EO !! "new_state" = Some rec ∧
  value_allocated h rec.

(** The record after one conversion of its state. *)
Definition converted (original cast : value) (o : obj) : obj :=
  <["state" := cast]> (<["original_state" := original]> o).

Section trigger_state_effect.
Context `{NodeExternals}.

(** Whether the node converts states. *)
Definition casting (cfg : NodeConfig) : bool :=
  truthy (state_type cfg) && negb (bool_decide (state_type cfg = VStr "str")).

(** The two casts of a record whose old and new state are one object,
    if the node converts states. *)
Definition cast_ok (cfg : NodeConfig) (casts : option (value * value))
    (ro : obj) : Prop :=
  match casts with
  | Some (c1, c2) =>
      casting cfg = true ∧
      getCastValue (state_type cfg) (default VUndef (ro !! "state")) = Ret c1 ∧
      getCastValue (state_type cfg) c1 = Ret c2
  | None => casting cfg = false
  end.

Definition cast_result (casts : option (value * value)) (ro : obj) : obj :=
  match casts with
  | Some (c1, c2) => converted c1 c2 (converted (default VUndef (ro !! "state")) c1 ro)
  | None => ro
  end.

(** The record as [onEntityStateChanged] leaves it. *)
Definition deployed_record (tick : nat) (casts : option (value * value))
    (ro : obj) : obj :=
  <["timeSinceChangedMs" :=
      timeSinceChanged tick (default VUndef (ro !! "last_changed"))]>
    (cast_result casts ro).
End trigger_state_effect.

(** ** An example node *)

(** Functions of the kind the node is given: the filter lets the
    configured entity through, the cast turns the strings [on] and [off]
    into booleans and leaves every other value alone, the clock advances
    by a second with every event. *)
Definition example_externals : NodeExternals :=
  {| shouldIncludeEvent := λ id configured _,
       Ret (VBool (bool_decide (id = configured)));
     getCastValue := λ _ v,
       Ret (if bool_decide (v = VStr "on") then VBool true
            else if bool_decide (v = VStr "off") then VBool false
            else v);
     timeSinceChanged := λ n _, VNum (1000 * Z.of_nat n) |}.

(** A node on the kitchen light that converts states, with a constraint
    on another entity. *)
Definition example_node : TriggerState :=
  {| nodeConfig :=
       {| entityid := VStr "light.kitchen";
          entityidfiltertype := VStr "exact";
          state_type := VStr "habool";
          constraints :=
            [{| targetType := VStr "entity_id";
                targetValue := VStr "sun.sun";
                propertyType := VStr "current_state" |}] |};
     isEnabled := VUndef |}.

(** A constraint on the state of the kitchen light. *)
Definition kitchen_constraint : Constraint :=
  {| targetType := VStr "entity_id";
     targetValue := VStr "light.kitchen";
     propertyType := VStr "current_state" |}.

(** * Properties *)

Section filters.
Context {A : Type} (P : A → Prop) `{∀ y, Decision (P y)}.

Lemma filter_all (s : list A) : (∀ y, y ∈ s → P y) → filter P s = s.
Proof.
  induction s as [|y s IH]; intros HP; [done|].
  rewrite filter_cons_True by (apply HP; by left).
  f_equal. apply IH. intros z Hz. apply HP. by right.
Qed.

Lemma filter_none (s : list A) : (∀ y, y ∈ s → ¬ P y) → filter P s = [].
Proof.
  intros HP. apply elem_of_nil_inv. intros x Hx.
  apply list_elem_of_filter in Hx as [Hx Hin]. by apply (HP x).
Qed.
End filters.

Section sets.
Implicit Types (s l acc : list string) (x y : string).

Lemma set_has_true x s : set_has x s = true ↔ x ∈ s.
Proof. unfold set_has. by rewrite bool_decide_eq_true. Qed.

Lemma set_has_false x s : set_has x s = false ↔ x ∉ s.
Proof. unfold set_has. by rewrite bool_decide_eq_false. Qed.

Lemma elem_of_set_add x y s : x ∈ set_add y s ↔ x = y ∨ x ∈ s.
Proof.
  unfold set_add. destruct (set_has y s) eqn:E.
  - apply set_has_true in E. naive_solver.
  - rewrite elem_of_app, list_elem_of_singleton. naive_solver.
Qed.

Lemma NoDup_set_add y s : NoDup s → NoDup (set_add y s).
Proof.
  intros Hs. unfold set_add. destruct (set_has y s) eqn:E; [done|].
  apply set_has_false in E. apply NoDup_app. split_and!; [done| |].
  - intros z Hz Hz'. apply list_elem_of_singleton in Hz'. by subst.
  - apply NoDup_singleton.
Qed.

Lemma elem_of_fold_add x acc l :
  x ∈ foldl (λ s y, set_add y s) acc l ↔ x ∈ acc ∨ x ∈ l.
Proof.
  revert acc. induction l as [|y l IH]; intros acc; simpl.
  - rewrite elem_of_nil. naive_solver.
  - rewrite IH, elem_of_set_add, elem_of_cons. naive_solver.
Qed.

Lemma NoDup_fold_add acc l :
  NoDup acc → NoDup (foldl (λ s y, set_add y s) acc l).
Proof.
  revert acc. induction l as [|y l IH]; intros acc Hacc; simpl; [done|].
  by apply IH, NoDup_set_add.
Qed.

Lemma fold_add_NoDup acc l :
  NoDup (acc ++ l) → foldl (λ s y, set_add y s) acc l = acc ++ l.
Proof.
  revert acc. induction l as [|y l IH]; intros acc Hnd; simpl.
  - by rewrite app_nil_r.
  - assert (set_add y acc = acc ++ [y]) as ->.
    { unfold set_add. destruct (set_has y acc) eqn:E; [|done].
      apply set_has_true in E. apply NoDup_app in Hnd as (_ & Hd & _).
      exfalso. apply (Hd y E). by left. }
    rewrite IH; rewrite <- (assoc_L (++)); done.
Qed.

Lemma elem_of_new_Set x l : x ∈ new_Set l ↔ x ∈ l.
Proof. unfold new_Set. rewrite elem_of_fold_add, elem_of_nil. naive_solver. Qed.

Lemma NoDup_new_Set l : NoDup (new_Set l).
Proof. apply NoDup_fold_add, NoDup_nil_2. Qed.

Lemma new_Set_NoDup l : NoDup l → new_Set l = l.
Proof. intros. unfold new_Set. by rewrite fold_add_NoDup. Qed.

Lemma filter_set_delete x s l :
  filter (λ y, y ∉ l) (set_delete x s) = filter (λ y, y ∉ x :: l) s.
Proof.
  unfold set_delete. rewrite list_filter_filter. apply list_filter_iff.
  intros y. rewrite not_elem_of_cons. naive_solver.
Qed.

Lemma filter_not_elem_self s : filter (λ y, y ∉ s) s = [].
Proof.
  apply elem_of_nil_inv. intros x Hx.
  apply list_elem_of_filter in Hx. naive_solver.
Qed.
End sets.

Section loops.
Implicit Types (l : list string) (m : gmap string nat) (w : World).

Lemma length_unsub_ops m l :
  (∀ e, e ∈ l → is_Some (m !! e)) → length (unsub_ops m l) = length l.
Proof.
  unfold unsub_ops. rewrite length_fmap.
  induction l as [|e l IH]; intros Hl; [done|]. simpl.
  destruct (Hl e) as [id ->]; [by left|]. simpl. f_equal.
  apply IH. intros e' He'. apply Hl. by right.
Qed.

Lemma unsub_ops_delete m e l :
  e ∉ l → unsub_ops (delete e m) l = unsub_ops m l.
Proof.
  unfold unsub_ops. intros He. f_equal.
  induction l as [|x l IH]; [done|].
  apply not_elem_of_cons in He as [Hne Hni].
  cbn [omap list_omap]. rewrite lookup_delete_ne by done. by rewrite IH.
Qed.

Lemma lookup_delete_all m l e :
  delete_all l m !! e = if decide (e ∈ l) then None else m !! e.
Proof.
  unfold delete_all. revert m. induction l as [|x l IH]; intros m; cbn [foldl].
  - destruct (decide (e ∈ [])) as [Hin|_]; [by apply elem_of_nil in Hin | done].
  - rewrite IH. destruct (decide (e ∈ l)) as [Hin|Hni].
    + destruct (decide (e ∈ x :: l)) as [|Hn]; [done|].
      exfalso. apply Hn. by right.
    + destruct (decide (e = x)) as [->|Hne].
      * rewrite lookup_delete_eq.
        destruct (decide (x ∈ x :: l)) as [|Hn]; [done|].
        exfalso. apply Hn. by left.
      * rewrite lookup_delete_ne by done.
        destruct (decide (e ∈ x :: l)) as [Hin|]; [|done].
        apply elem_of_cons in Hin as [?|?]; done.
Qed.


Lemma is_Some_sub_map l n m e :
  is_Some (sub_map l n m !! e) ↔ e ∈ l ∨ is_Some (m !! e).
Proof.
  revert n m. induction l as [|x l IH]; intros n m; simpl.
  - rewrite elem_of_nil. naive_solver.
  - rewrite IH, elem_of_cons. destruct (decide (e = x)) as [->|Hne].
    + rewrite lookup_insert_eq. naive_solver.
    + rewrite lookup_insert_ne by done. naive_solver.
Qed.

(** [remove.forEach((e) => { this.unsubCallback[e](); delete this.unsubCallback[e]; })] *)
Lemma forEach_remove l w :
  NoDup l →
  (∀ e, e ∈ l → is_Some (unsubCallback (this w) !! e)) →
  forEach l (λ e, call_unsub e ;; delete_unsub e) w =
    (Ret tt,
     mux_world (set_unsubCallback (delete_all l (unsubCallback (this w))) (this w))
       (network w ++ unsub_ops (unsubCallback (this w)) l) (next_sub w) w).
Proof.
  revert w. induction l as [|e l IH]; intros w Hnd Hl.
  - destruct w as [[]]. simpl. mstep. unfold mux_world, unsub_ops. simpl.
    by rewrite app_nil_r.
  - apply NoDup_cons in Hnd as [Hni Hnd].
    destruct (Hl e) as [id Hid]; [by left|].
    simpl. mstep. unfold call_unsub at 1. rewrite Hid. simpl.
    rewrite IH; [|done|].
    + f_equal. unfold mux_world. simpl.
      rewrite unsub_ops_delete by done.
      unfold unsub_ops at 2. simpl. rewrite Hid. simpl.
      by rewrite <- (assoc_L (++)).
    + intros e' He'. simpl. rewrite lookup_delete_ne.
      * apply Hl. by right.
      * intros ->. done.
Qed.

Lemma send_subscribe_run type w c :
  client (this w) = Some c →
  send_subscribe type w =
    (Ret (next_sub w, subscribe_reply c (next_sub w)),
     mux_world (this w) (network w ++ [NetSubscribe type (next_sub w)])
       (S (next_sub w)) w).
Proof. intros Hc. unfold send_subscribe. by rewrite Hc. Qed.

(** An acknowledged subscribe request gives the function that undoes it. *)
Lemma client_subscribeEvents_acknowledged type w c :
  client (this w) = Some c → subscribe_reply c (next_sub w) = None →
  client_subscribeEvents type w =
    (Ret (next_sub w),
     mux_world (this w) (network w ++ [NetSubscribe type (next_sub w)])
       (S (next_sub w)) w).
Proof.
  intros Hc Hr. unfold client_subscribeEvents, mbind, M_bind.
  rewrite (send_subscribe_run _ _ _ Hc).
  unfold await_subscription. simpl. by rewrite Hr.
Qed.

(** A refused one is sent all the same, and the [await] throws. *)
Lemma client_subscribeEvents_refused type w c r :
  client (this w) = Some c → subscribe_reply c (next_sub w) = Some r →
  client_subscribeEvents type w =
    (Throw (Thrown r),
     mux_world (this w) (network w ++ [NetSubscribe type (next_sub w)])
       (S (next_sub w)) w).
Proof.
  intros Hc Hr. unfold client_subscribeEvents, mbind, M_bind.
  rewrite (send_subscribe_run _ _ _ Hc).
  unfold await_subscription. simpl. by rewrite Hr.
Qed.

Lemma acknowledged_head w n c :
  acknowledged w (S n) → client (this w) = Some c →
  subscribe_reply c (next_sub w) = None.
Proof. intros Ha Hc. apply (Ha c); [done|lia..]. Qed.

Lemma acknowledged_mono w w' n n' :
  acknowledged w n → client (this w') = client (this w) →
  (next_sub w ≤ next_sub w')%nat → (next_sub w' + n' ≤ next_sub w + n)%nat →
  acknowledged w' n'.
Proof.
  intros Ha Hc H1 H2 c i Hc' Hi1 Hi2. apply (Ha c); [congruence|lia..].
Qed.

Lemma acknowledged_cons w w' n c :
  client (this w) = Some c → subscribe_reply c (next_sub w) = None →
  client (this w') = client (this w) → next_sub w' = S (next_sub w) →
  acknowledged w' n → acknowledged w (S n).
Proof.
  intros Hc Hr Hc' Hn Ha c' i Hci Hi1 Hi2.
  assert (c' = c) as -> by congruence.
  destruct (decide (i = next_sub w)) as [->|Hne]; [done|].
  apply (Ha c); [congruence|lia..].
Qed.

Lemma acknowledged_0 w : acknowledged w 0.
Proof. intros c i _ ? ?. lia. Qed.

(** [for (const type of add) { this.unsubCallback[type] = await this.client.subscribeEvents(..., type); }]
    when the hub acknowledges every request of the loop. *)
Lemma forEach_add l w :
  is_Some (client (this w)) → acknowledged w (length l) →
  forEach l (λ type, cb ← client_subscribeEvents (Some type); store_unsub type cb) w =
    (Ret tt,
     mux_world (set_unsubCallback (sub_map l (next_sub w) (unsubCallback (this w))) (this w))
       (network w ++ sub_ops l (next_sub w)) (next_sub w + length l) w).
Proof.
  revert w. induction l as [|ty l IH]; intros w Hc Ha.
  - destruct w as [[]]. simpl. mstep. unfold mux_world. simpl.
    by rewrite app_nil_r, Nat.add_0_r.
  - destruct Hc as [c Hc].
    cbn [forEach]. unfold mbind at 1, M_bind at 1. unfold mbind at 1, M_bind at 1.
    rewrite (client_subscribeEvents_acknowledged _ _ c Hc)
      by (by apply (acknowledged_head w (length l))).
    unfold store_unsub, modify_this.
    rewrite IH.
    + f_equal. unfold mux_world, with_this. simpl.
      rewrite <- (assoc_L (++)). simpl. by rewrite Nat.add_succ_r.
    + simpl. rewrite Hc. eauto.
    + apply (acknowledged_mono w _ (S (length l))); simpl; [done|done|lia..].
Qed.

(** The same loop when the hub refuses the request that follows the
    first [length l1] ones: the loop stops there, with the refused
    request sent and its event type not registered. *)
Lemma forEach_add_refused l1 ty l2 w c r :
  client (this w) = Some c → acknowledged w (length l1) →
  subscribe_reply c (next_sub w + length l1) = Some r →
  forEach (l1 ++ ty :: l2)
    (λ type, cb ← client_subscribeEvents (Some type); store_unsub type cb) w =
    (Throw (Thrown r),
     mux_world (set_unsubCallback (sub_map l1 (next_sub w) (unsubCallback (this w))) (this w))
       (network w ++ sub_ops (l1 ++ [ty]) (next_sub w))
       (S (next_sub w + length l1)) w).
Proof.
  revert w. induction l1 as [|x l1 IH]; intros w Hc Ha Hr.
  - simpl in *. rewrite Nat.add_0_r in Hr.
    unfold mbind at 1, M_bind at 1. unfold mbind at 1, M_bind at 1.
    rewrite (client_subscribeEvents_refused _ _ c r Hc Hr).
    destruct w as [[]]. unfold mux_world. simpl. by rewrite Nat.add_0_r.
  - cbn [app forEach]. unfold mbind at 1, M_bind at 1. unfold mbind at 1, M_bind at 1.
    rewrite (client_subscribeEvents_acknowledged _ _ c Hc)
      by (by apply (acknowledged_head w (length l1))).
    unfold store_unsub, modify_this.
    rewrite (IH _ ) ; simpl.
    + f_equal. unfold mux_world, with_this. simpl.
      rewrite <- (assoc_L (++)). simpl. by rewrite Nat.add_succ_r.
    + done.
    + apply (acknowledged_mono w _ (S (length l1))); simpl; [done|done|lia..].
    + simpl in Hr. by rewrite Nat.add_succ_r in Hr.
Qed.

(** When the loop returns normally, the hub has acknowledged every
    request of it. *)
Lemma forEach_add_returns l w w' :
  is_Some (client (this w)) →
  forEach l (λ type, cb ← client_subscribeEvents (Some type); store_unsub type cb) w
    = (Ret tt, w') →
  acknowledged w (length l).
Proof.
  revert w. induction l as [|ty l IH]; intros w [c Hc] Hrun.
  - apply acknowledged_0.
  - destruct (subscribe_reply c (next_sub w)) as [r|] eqn:Hr.
    + change (ty :: l) with ([] ++ ty :: l) in Hrun.
      rewrite (forEach_add_refused [] ty l w c r) in Hrun; [done|done| |].
      * apply acknowledged_0.
      * simpl. by rewrite Nat.add_0_r.
    + revert Hrun. cbn [forEach].
      unfold mbind at 1, M_bind at 1. unfold mbind at 1, M_bind at 1.
      rewrite (client_subscribeEvents_acknowledged _ _ c Hc Hr).
      unfold store_unsub, modify_this. intros Hrun.
      apply IH in Hrun; [|simpl; rewrite Hc; eauto].
      by apply (acknowledged_cons w _ (length l) c Hc Hr) in Hrun.
Qed.

(** The loop of the wildcard branch, over event types that are not the
    wildcard. *)
Lemma forEach_wildcard l w :
  NoDup l → ALL ∉ l →
  (∀ e, e ∈ l → is_Some (unsubCallback (this w) !! e)) →
  forEach l (λ e,
      if bool_decide (e ≠ ALL) then
        call_unsub e ;; delete_unsub e ;;
        modify_this (λ t, set_subscribedEvents (set_delete e (subscribedEvents t)) t)
      else mret tt) w =
    (Ret tt,
     mux_world
       (set_subscribedEvents (filter (λ y, y ∉ l) (subscribedEvents (this w)))
          (set_unsubCallback (delete_all l (unsubCallback (this w))) (this w)))
       (network w ++ unsub_ops (unsubCallback (this w)) l) (next_sub w) w).
Proof.
  revert w. induction l as [|e l IH]; intros w Hnd Hall Hl.
  - destruct w as [[]]. simpl. mstep. unfold mux_world, unsub_ops. simpl.
    rewrite app_nil_r, filter_all; [done|].
    intros. apply not_elem_of_nil.
  - apply NoDup_cons in Hnd as [Hni Hnd].
    apply not_elem_of_cons in Hall as [Hne Hall].
    destruct (Hl e) as [id Hid]; [by left|].
    simpl. rewrite bool_decide_true by done.
    mstep. unfold call_unsub at 1. rewrite Hid. simpl.
    rewrite IH; [|done|done|].
    + f_equal. unfold mux_world. simpl.
      rewrite unsub_ops_delete by done.
      unfold unsub_ops at 2. simpl. rewrite Hid. simpl.
      rewrite <- (assoc_L (++)). by rewrite filter_set_delete.
    + intros e' He'. simpl. rewrite lookup_delete_ne.
      * apply Hl. by right.
      * intros ->. done.
Qed.
End loops.

Section calls.
Implicit Types (events l : list string) (w : World).

Lemma NoDup_desired events : NoDup (desired events).
Proof. unfold desired. do 2 apply NoDup_set_add. apply NoDup_new_Set. Qed.

Lemma elem_of_desired x events :
  x ∈ desired events ↔ x = "nodered" ∨ x = "state_changed" ∨ x ∈ events.
Proof.
  unfold desired. by rewrite !elem_of_set_add, elem_of_new_Set.
Qed.

Lemma ALL_desired events : ALL ∈ desired events ↔ ALL ∈ events.
Proof.
  rewrite elem_of_desired. split; [|by auto].
  intros [?|[?|?]]; [discriminate..|done].
Qed.

Lemma NoDup_inter_diff (cur act : list string) :
  NoDup cur →
  NoDup (filter (λ x, x ∈ act) cur ++ filter (λ x, x ∉ act) cur).
Proof.
  intros Hnd. apply NoDup_app. split_and!.
  - by apply NoDup_filter.
  - intros x Hx Hx'. apply list_elem_of_filter in Hx as [Hin _].
    apply list_elem_of_filter in Hx' as [Hni _]. done.
  - by apply NoDup_filter.
Qed.

Lemma to_subscribe_diff events w :
  ALL ∉ events →
  to_subscribe events w =
    filter (λ x, x ∉ subscribedEvents (this w)) (desired events).
Proof. intros Hall. unfold to_subscribe, target. by rewrite bool_decide_false. Qed.

Lemma to_subscribe_wildcard events w :
  ALL ∈ events → ALL ∉ subscribedEvents (this w) → to_subscribe events w = [ALL].
Proof.
  intros Hall Hact. unfold to_subscribe, target. rewrite bool_decide_true by done.
  by rewrite filter_cons_True.
Qed.

(** The branch without the wildcard, up to the loop over [add]. *)
Lemma subscribeEvents_diff_loop events w :
  mux_inv w → ALL ∉ events →
  let cur := desired events in
  let act := subscribedEvents (this w) in
  let add := filter (λ x, x ∉ act) cur in
  let remove := filter (λ x, x ∉ cur) act in
  subscribeEvents events w =
    forEach add
      (λ type, cb ← client_subscribeEvents (Some type); store_unsub type cb)
      (mux_world
         (set_unsubCallback (delete_all remove (unsubCallback (this w)))
            (set_subscribedEvents (filter (λ x, x ∈ act) cur ++ add) (this w)))
         (network w ++ unsub_ops (unsubCallback (this w)) remove) (next_sub w) w).
Proof.
  intros (Hc & Hnd & Hreg) Hall cur act add remove.
  unfold subscribeEvents.
  assert (set_has ALL (new_Set events) = false) as ->.
  { apply set_has_false. by rewrite elem_of_new_Set. }
  fold (desired events). fold cur. mstep. fold act.
  fold add remove.
  assert (new_Set add = add) as ->
    by apply new_Set_NoDup, NoDup_filter, NoDup_desired.
  assert (new_Set remove = remove) as ->
    by by apply new_Set_NoDup, NoDup_filter.
  assert (new_Set (filter (λ x, x ∈ act) cur ++ add) =
          filter (λ x, x ∈ act) cur ++ add) as ->
    by apply new_Set_NoDup, NoDup_inter_diff, NoDup_desired.
  rewrite forEach_remove; simpl.
  - done.
  - by apply NoDup_filter.
  - intros e He. apply list_elem_of_filter in He as [_ He]. by apply Hreg.
Qed.

(** The branch without the wildcard, every subscribe request
    acknowledged. *)
Lemma subscribeEvents_diff events w :
  mux_inv w → ALL ∉ events → acknowledged w (length (to_subscribe events w)) →
  let cur := desired events in
  let act := subscribedEvents (this w) in
  let add := filter (λ x, x ∉ act) cur in
  let remove := filter (λ x, x ∉ cur) act in
  subscribeEvents events w =
    (Ret tt,
     mux_world
       (set_unsubCallback
          (sub_map add (next_sub w) (delete_all remove (unsubCallback (this w))))
          (set_subscribedEvents (filter (λ x, x ∈ act) cur ++ add) (this w)))
       (network w ++ unsub_ops (unsubCallback (this w)) remove
                  ++ sub_ops add (next_sub w))
       (next_sub w + length add) w).
Proof.
  intros Hinv Hall Hack cur act add remove.
  rewrite subscribeEvents_diff_loop by done. fold cur act add remove.
  rewrite to_subscribe_diff in Hack by done. fold cur act add in Hack.
  rewrite forEach_add.
  - unfold mux_world. simpl. by rewrite <- (assoc_L (++)).
  - simpl. by destruct Hinv.
  - by apply (acknowledged_mono w _ (length add)).
Qed.

(** X29.  A call without the wildcard when the hub refuses one of its
    subscribe requests, on a multiplexer whose registry matches its
    active set: the call throws what the request was rejected with.  By
    then the active set has been replaced by the desired one, the
    subscriptions to remove are released, and the requests before the
    refused one are registered; the refused request has been sent, and
    its event type and those after it stay recorded as active without an
    entry in the registry and without a subscription. *)
Theorem subscribeEvents_diff_refused events w c r l1 ty l2 :
  mux_inv w → ALL ∉ events → client (this w) = Some c →
  to_subscribe events w = l1 ++ ty :: l2 →
  acknowledged w (length l1) →
  subscribe_reply c (next_sub w + length l1) = Some r →
  let cur := desired events in
  let act := subscribedEvents (this w) in
  let remove := filter (λ x, x ∉ cur) act in
  subscribeEvents events w =
    (Throw (Thrown r),
     mux_world
       (set_unsubCallback
          (sub_map l1 (next_sub w) (delete_all remove (unsubCallback (this w))))
          (set_subscribedEvents (filter (λ x, x ∈ act) cur ++ l1 ++ ty :: l2) (this w)))
       (network w ++ unsub_ops (unsubCallback (this w)) remove
                  ++ sub_ops (l1 ++ [ty]) (next_sub w))
       (S (next_sub w + length l1)) w).
Proof.
  intros Hinv Hall Hc Hadd Hack Hr cur act remove.
  rewrite subscribeEvents_diff_loop by done. fold cur act remove.
  rewrite to_subscribe_diff in Hadd by done. fold cur act in Hadd.
  rewrite Hadd.
  rewrite (forEach_add_refused l1 ty l2 _ c r).
  - unfold mux_world. simpl. by rewrite <- (assoc_L (++)).
  - done.
  - by apply (acknowledged_mono w _ (length l1)).
  - done.
Qed.

(** The wildcard branch when the wildcard is not active yet, up to the
    subscribe request. *)
Lemma subscribeEvents_wildcard_loop events w :
  mux_inv w → ALL ∈ events → ALL ∉ subscribedEvents (this w) →
  subscribeEvents events w =
    (cb ← client_subscribeEvents None ;
     store_unsub ALL cb ;;
     modify_this (λ t, set_subscribedEvents (set_add ALL (subscribedEvents t)) t))
      (mux_world
         (set_subscribedEvents [] (set_unsubCallback ∅ (this w)))
         (network w ++ unsub_ops (unsubCallback (this w)) (subscribedEvents (this w)))
         (next_sub w) w).
Proof.
  intros (Hc & Hnd & Hreg) Hall Hact.
  unfold subscribeEvents.
  assert (set_has ALL (new_Set events) = true) as ->.
  { apply set_has_true. by rewrite elem_of_new_Set. }
  unfold mbind at 1, M_bind at 1, get_this.
  assert (set_has ALL (subscribedEvents (this w)) = false) as ->.
  { by apply set_has_false. }
  unfold mbind at 1, M_bind at 1.
  rewrite forEach_wildcard; [|done|done|by intros; apply Hreg].
  rewrite filter_not_elem_self.
  assert (delete_all (subscribedEvents (this w)) (unsubCallback (this w)) = ∅) as ->;
    [|done].
  apply map_eq. intros e. rewrite lookup_delete_all, lookup_empty.
  destruct (decide (e ∈ subscribedEvents (this w))) as [|Hni]; [done|].
  apply eq_None_not_Some. by rewrite <- Hreg.
Qed.

(** The wildcard branch when the wildcard is not active yet and the hub
    acknowledges the subscribe request. *)
Lemma subscribeEvents_wildcard events w :
  mux_inv w → ALL ∈ events → ALL ∉ subscribedEvents (this w) →
  acknowledged w (length (to_subscribe events w)) →
  let act := subscribedEvents (this w) in
  subscribeEvents events w =
    (Ret tt,
     mux_world
       (set_subscribedEvents [ALL]
          (set_unsubCallback {[ALL := next_sub w]} (this w)))
       (network w ++ unsub_ops (unsubCallback (this w)) act
                  ++ [NetSubscribe None (next_sub w)])
       (S (next_sub w)) w).
Proof.
  intros Hinv Hall Hact Hack act.
  rewrite subscribeEvents_wildcard_loop by done.
  rewrite to_subscribe_wildcard in Hack by done.
  destruct Hinv as ([c Hc] & _ & _).
  unfold mbind at 1, M_bind at 1.
  rewrite (client_subscribeEvents_acknowledged _ _ c);
    [|done|by apply (acknowledged_head w 0)].
  mstep. unfold mux_world, with_this. simpl.
  by rewrite <- (assoc_L (++)).
Qed.

(** The wildcard branch when the hub refuses the subscribe request: the
    call throws what the request was rejected with, after the active
    subscriptions have been released and before the wildcard is
    registered or recorded as active. *)
Lemma subscribeEvents_wildcard_refused events w c r :
  mux_inv w → ALL ∈ events → ALL ∉ subscribedEvents (this w) →
  client (this w) = Some c → subscribe_reply c (next_sub w) = Some r →
  subscribeEvents events w =
    (Throw (Thrown r),
     mux_world
       (set_subscribedEvents [] (set_unsubCallback ∅ (this w)))
       (network w ++ unsub_ops (unsubCallback (this w)) (subscribedEvents (this w))
                  ++ [NetSubscribe None (next_sub w)])
       (S (next_sub w)) w).
Proof.
  intros Hinv Hall Hact Hc Hr.
  rewrite subscribeEvents_wildcard_loop by done.
  unfold mbind at 1, M_bind at 1.
  rewrite (client_subscribeEvents_refused _ _ c r) by done.
  unfold mux_world. simpl. by rewrite <- (assoc_L (++)).
Qed.

(** The wildcard branch when the wildcard is active. *)
Lemma subscribeEvents_wildcard_active events w :
  ALL ∈ events → ALL ∈ subscribedEvents (this w) →
  subscribeEvents events w = (Ret tt, w).
Proof.
  intros Hall Hact. unfold subscribeEvents.
  assert (set_has ALL (new_Set events) = true) as ->.
  { apply set_has_true. by rewrite elem_of_new_Set. }
  mstep.
  assert (set_has ALL (subscribedEvents (this w)) = true) as ->; [|done].
  by apply set_has_true.
Qed.

Lemma to_subscribe_wildcard_active events w :
  ALL ∈ events → ALL ∈ subscribedEvents (this w) → to_subscribe events w = [].
Proof.
  intros Hall Hact. unfold to_subscribe, target. rewrite bool_decide_true by done.
  by rewrite filter_cons_False by (by intros Hn).
Qed.

(** A call that returns normally had every subscribe request it sent
    acknowledged. *)
Lemma subscribeEvents_returns events w w' :
  mux_inv w → subscribeEvents events w = (Ret tt, w') →
  acknowledged w (length (to_subscribe events w)).
Proof.
  intros Hinv Hrun. destruct (decide (ALL ∈ events)) as [Hall|Hall].
  - destruct (decide (ALL ∈ subscribedEvents (this w))) as [Hact|Hact].
    + rewrite to_subscribe_wildcard_active by done. apply acknowledged_0.
    + rewrite to_subscribe_wildcard by done.
      pose proof Hinv as ([c Hc] & _ & _).
      destruct (subscribe_reply c (next_sub w)) as [r|] eqn:Hr.
      * by rewrite (subscribeEvents_wildcard_refused _ _ c r) in Hrun.
      * intros c' i Hc' Hi1 Hi2. simpl in Hi2.
        assert (i = next_sub w) as -> by lia. congruence.
  - rewrite subscribeEvents_diff_loop in Hrun by done.
    apply forEach_add_returns in Hrun; [|simpl; by destruct Hinv].
    rewrite to_subscribe_diff by done.
    refine (acknowledged_mono _ w _ _ Hrun _ _ _); simpl; [done|lia..].
Qed.
End calls.

Section invariant.
Implicit Types (events l : list string) (w : World).

Lemma issued_app w t ops n :
  issued w (mux_world t (network w ++ ops) n w) = ops.
Proof. unfold issued. simpl. by rewrite drop_app_length. Qed.

Lemma issued_refl w : issued w w = [].
Proof. unfold issued. by rewrite drop_all. Qed.

Lemma mux_inv_connected cfg : mux_inv (connected_world cfg).
Proof.
  split_and!; simpl.
  - eauto.
  - apply NoDup_nil_2.
  - intros e. rewrite lookup_empty, elem_of_nil. split; [done|].
    by intros [? ?].
Qed.

Lemma always_acknowledged_connected cfg : always_acknowledged (connected_world cfg).
Proof. intros n c i [= <-] _ _. done. Qed.

Lemma mux_inv_subscribeEvents events w :
  mux_inv w → acknowledged w (length (to_subscribe events w)) →
  mux_inv (subscribeEvents events w).2.
Proof.
  intros Hinv Hack. destruct (decide (ALL ∈ events)) as [Hall|Hall].
  - destruct (decide (ALL ∈ subscribedEvents (this w))) as [Hact|Hact].
    + by rewrite subscribeEvents_wildcard_active.
    + rewrite subscribeEvents_wildcard by done.
      destruct Hinv as (Hc & _ & _). split_and!; simpl; [done| |].
      * apply NoDup_singleton.
      * intros e. rewrite list_elem_of_singleton. split.
        -- intros ->. rewrite lookup_singleton_eq. eauto.
        -- intros [id Hid]. apply lookup_singleton_Some in Hid. naive_solver.
  - rewrite subscribeEvents_diff by done.
    destruct Hinv as (Hc & Hnd & Hreg). split_and!; simpl; [done| |].
    + apply NoDup_inter_diff, NoDup_desired.
    + intros e. rewrite is_Some_sub_map, lookup_delete_all.
      rewrite elem_of_app, !list_elem_of_filter.
      destruct (decide (e ∈ filter (λ x, x ∉ desired events)
                              (subscribedEvents (this w)))) as [Hin|Hni].
      * apply list_elem_of_filter in Hin as [Hcur Hact].
        split; [naive_solver|]. intros [?|[? ?]]; [naive_solver|done].
      * rewrite list_elem_of_filter in Hni. rewrite <- Hreg. split.
        -- intros [[? ?]|[? ?]]; [by right | by left].
        -- intros [[? ?]|Hact]; [by right|]. left. split; [done|].
           destruct (decide (e ∈ desired events)); [done|]. naive_solver.
Qed.

(** An acknowledged call keeps the connection object and only moves
    the numbering of the requests forward. *)
Lemma subscribeEvents_client events w :
  mux_inv w → acknowledged w (length (to_subscribe events w)) →
  client (this (subscribeEvents events w).2) = client (this w) ∧
  (next_sub w ≤ next_sub (subscribeEvents events w).2)%nat.
Proof.
  intros Hinv Hack. destruct (decide (ALL ∈ events)) as [Hall|Hall].
  - destruct (decide (ALL ∈ subscribedEvents (this w))) as [Hact|Hact].
    + by rewrite subscribeEvents_wildcard_active.
    + rewrite subscribeEvents_wildcard by done. simpl. split; [done|lia].
  - rewrite subscribeEvents_diff by done. simpl. split; [done|lia].
Qed.

Lemma always_acknowledged_subscribeEvents events w :
  mux_inv w → always_acknowledged w →
  always_acknowledged (subscribeEvents events w).2.
Proof.
  intros Hinv Hack n.
  destruct (subscribeEvents_client events w Hinv (Hack _)) as [Hc Hn].
  apply (acknowledged_mono w _
           (next_sub (subscribeEvents events w).2 - next_sub w + n));
    [apply Hack|done|done|lia].
Qed.

Lemma mux_inv_run_calls calls w :
  mux_inv w → always_acknowledged w →
  mux_inv (run_calls calls w) ∧ always_acknowledged (run_calls calls w).
Proof.
  revert w. induction calls as [|events calls IH]; intros w Hinv Hack; [done|].
  simpl. apply IH.
  - by apply mux_inv_subscribeEvents.
  - by apply always_acknowledged_subscribeEvents.
Qed.

Lemma wildcard_alone_subscribeEvents events w :
  mux_inv w → acknowledged w (length (to_subscribe events w)) →
  wildcard_alone w → wildcard_alone (subscribeEvents events w).2.
Proof.
  intros Hinv Hack Hw. destruct (decide (ALL ∈ events)) as [Hall|Hall].
  - destruct (decide (ALL ∈ subscribedEvents (this w))) as [Hact|Hact].
    + by rewrite subscribeEvents_wildcard_active.
    + rewrite subscribeEvents_wildcard by done. by intros _.
  - rewrite subscribeEvents_diff by done. unfold wildcard_alone. simpl.
    intros Hin. exfalso. apply Hall, ALL_desired.
    apply elem_of_app in Hin as [Hin|Hin];
      by apply list_elem_of_filter in Hin as [_ ?].
Qed.

Lemma wildcard_alone_run_calls calls w :
  mux_inv w → always_acknowledged w → wildcard_alone w →
  wildcard_alone (run_calls calls w).
Proof.
  revert w. induction calls as [|events calls IH]; intros w Hinv Hack Hw; [done|].
  simpl. apply IH.
  - by apply mux_inv_subscribeEvents.
  - by apply always_acknowledged_subscribeEvents.
  - by apply wildcard_alone_subscribeEvents.
Qed.

Lemma wildcard_alone_connected cfg : wildcard_alone (connected_world cfg).
Proof. intros Hin. by apply elem_of_nil in Hin. Qed.

Lemma elem_of_unsub_ops o (m : gmap string nat) l :
  o ∈ unsub_ops m l → is_unsubscribe o.
Proof.
  unfold unsub_ops. intros Ho.
  apply list_elem_of_fmap in Ho as (id & -> & _). done.
Qed.


Lemma subscribe_not_unsubscribe o : is_subscribe o → ¬ is_unsubscribe o.
Proof. destruct o; simpl; intros ? ?; done. Qed.

Lemma unsubscribe_not_subscribe o : is_unsubscribe o → ¬ is_subscribe o.
Proof. destruct o; simpl; intros ? ?; done. Qed.


Lemma filter_unsubscribe_app (m : gmap string nat) l (subs : list net_op) :
  (∀ o, o ∈ subs → is_subscribe o) →
  filter (λ o, is_unsubscribe o) (unsub_ops m l ++ subs) = unsub_ops m l.
Proof.
  intros Hs. rewrite filter_app, filter_all, filter_none; [by rewrite app_nil_r| |].
  - intros o Ho. by apply Hs, subscribe_not_unsubscribe in Ho.
  - intros o. apply elem_of_unsub_ops.
Qed.

Lemma filter_subscribe_app (m : gmap string nat) l (subs : list net_op) :
  (∀ o, o ∈ subs → is_subscribe o) →
  filter (λ o, is_subscribe o) (unsub_ops m l ++ subs) = subs.
Proof.
  intros Hs. rewrite filter_app, filter_none, filter_all; [done|done|].
  intros o Ho. by apply elem_of_unsub_ops, unsubscribe_not_subscribe in Ho.
Qed.


End invariant.

Section steps.
Implicit Types (events add : list string) (w : World).

Lemma pending_subscribe_next add w s w' :
  subscribe_next add w = (Ret s, w') → pending_answers s = length add.
Proof.
  destruct add as [|ty rest]; unfold subscribe_next.
  - by intros [= <- _].
  - unfold mbind, M_bind.
    destruct (send_subscribe (Some ty) w) as [[p|e] w1]; [|done].
    by intros [= <- _].
Qed.

(** The loop over [add], run in one go, is the loop run from [await] to
    [await]. *)
Lemma forEach_add_steps add w :
  forEach add (λ type, cb ← client_subscribeEvents (Some type); store_unsub type cb) w =
    (s ← subscribe_next add ; resume_all (pending_answers s) s) w.
Proof.
  revert w. induction add as [|ty rest IH]; intros w; [done|].
  cbn [forEach subscribe_next]. unfold client_subscribeEvents, mbind, M_bind.
  destruct (send_subscribe (Some ty) w) as [[p|e] w1]; [|done].
  cbn [mret M_ret pending_answers resume_all subscribeEvents_resume].
  unfold mbind, M_bind.
  destruct (await_subscription p w1) as [[cb|e] w2]; [|done].
  destruct (store_unsub ty cb w2) as [[[]|e] w3]; [|done].
  fold (forEach rest
          (λ type, cb ← client_subscribeEvents (Some type); store_unsub type cb)).
  unfold client_subscribeEvents, mbind, M_bind in IH. rewrite IH.
  destruct (subscribe_next rest w3) as [[s|e] w4] eqn:Hnext; [|done].
  by rewrite (pending_subscribe_next _ _ _ _ Hnext).
Qed.

Lemma bind_assoc {A B C} (m : M A) (f : A → M B) (g : B → M C) w :
  ((m ≫= f) ≫= g) w = (m ≫= (λ a, f a ≫= g)) w.
Proof. unfold mbind, M_bind. by destruct (m w) as [[a|e] w']. Qed.

Lemma bind_ext {A B} (m : M A) (f g : A → M B) w :
  (∀ a w', f a w' = g a w') → (m ≫= f) w = (m ≫= g) w.
Proof.
  intros Hfg. unfold mbind, M_bind. destruct (m w) as [[a|e] w']; [apply Hfg|done].
Qed.

(** X26.  [subscribeEvents] runs up to an [await], and goes on from
    there when the hub has answered.  A call that is started and then
    resumed at each of its awaits, with nothing run in between, does what
    the call run in one go does: the same result in the same world, for
    every world and every request. *)
Theorem subscribeEvents_awaited_run events w :
  subscribeEvents_awaited events w = subscribeEvents events w.
Proof.
  unfold subscribeEvents_awaited, subscribeEvents_start, subscribeEvents.
  destruct (set_has ALL (new_Set events)).
  - rewrite bind_assoc. apply bind_ext. intros t w1.
    destruct (set_has ALL (subscribedEvents t)); [done|].
    rewrite bind_assoc. apply bind_ext. intros [] w2.
    unfold client_subscribeEvents. rewrite !bind_assoc. apply bind_ext. intros p w3.
    unfold mbind, M_bind, mret, M_ret. cbn [pending_answers resume_all subscribeEvents_resume].
    unfold mbind, M_bind, mret, M_ret.
    destruct (await_subscription p w3) as [[cb|e] w4]; [|done].
    destruct (store_unsub ALL cb w4) as [[[]|e] w5]; [|done].
    by destruct (modify_this _ w5) as [[[]|e] w6].
  - cbv zeta. rewrite bind_assoc. apply bind_ext. intros t w1.
    rewrite bind_assoc. apply bind_ext. intros [] w2.
    rewrite bind_assoc. apply bind_ext. intros [] w3.
    symmetry. apply forEach_add_steps.
Qed.

(** X27.  Calls that are not awaited overlap.  A call for the wildcard
    followed at once by a call for [a], on a fresh connection to a hub
    that acknowledges every request: the second call installs its active
    set while the first waits for the hub, and the first then adds the
    wildcard to that set.  Both calls complete, and the wildcard is
    active next to three concrete types. *)
Theorem overlapping_calls_leave_wildcard_beside_types :
  let r := run_schedule
             [Start 0 [ALL]; Start 1 ["a"]; Resume 0; Resume 1; Resume 1; Resume 1]
             (connected_world example_config) in
  waiting r.1 = ∅ ∧ failed r.1 = [] ∧
  subscribedEvents (this r.2) = ["a"; "state_changed"; "nodered"; ALL] ∧
  wildcard_alone (connected_world example_config) ∧ ¬ wildcard_alone r.2.
Proof.
  cbv zeta. split_and!; try (vm_compute; reflexivity).
  - apply wildcard_alone_connected.
  - intros Hw.
    assert (ALL ∈ ["a"; "state_changed"; "nodered"; ALL]) as Hin
      by (apply list_elem_of_In; simpl; auto).
    specialize (Hw Hin). vm_compute in Hw. discriminate.
Qed.

(** X28.  A call for [a] followed at once by a call for [b], on a fresh
    connection to a hub that acknowledges every request: the second call
    finds [a] active but not registered yet, and throws a TypeError when
    it calls the missing unsubscribe function.  The first call completes.
    In the end [a] is subscribed on the hub and registered but not
    active, and [b] is active but was never subscribed. *)
Theorem overlapping_calls_break_registry :
  let r := run_schedule
             [Start 0 ["a"]; Start 1 ["b"]; Resume 0; Resume 0; Resume 0]
             (connected_world example_config) in
  waiting r.1 = ∅ ∧ failed r.1 = [(1, TypeError)] ∧
  subscribedEvents (this r.2) = ["state_changed"; "nodered"; "b"] ∧
  network r.2 =
    [NetSubscribe (Some "a") 0; NetSubscribe (Some "state_changed") 1;
     NetSubscribe (Some "nodered") 2] ∧
  unsubCallback (this r.2) !! "a" = Some 0 ∧
  unsubCallback (this r.2) !! "b" = None ∧
  mux_inv (connected_world example_config) ∧ ¬ mux_inv r.2.
Proof.
  cbv zeta. split_and!; try (vm_compute; reflexivity).
  - apply mux_inv_connected.
  - intros (_ & _ & Hreg).
    assert (is_Some (unsubCallback
      (this (run_schedule
               [Start 0 ["a"]; Start 1 ["b"]; Resume 0; Resume 0; Resume 0]
               (connected_world example_config)).2) !! "b")) as [id Hid].
    { apply Hreg.
      assert (subscribedEvents
        (this (run_schedule
                 [Start 0 ["a"]; Start 1 ["b"]; Resume 0; Resume 0; Resume 0]
                 (connected_world example_config)).2) =
        ["state_changed"; "nodered"; "b"]) as -> by (vm_compute; reflexivity).
      apply list_elem_of_In. simpl. auto. }
    vm_compute in Hid. discriminate.
Qed.

Lemma mux_inv_refusing_world : mux_inv refusing_world.
Proof.
  split_and!; simpl.
  - eauto.
  - apply NoDup_nil_2.
  - intros e. rewrite lookup_empty, elem_of_nil. split; [done|].
    by intros [? ?].
Qed.

Lemma subscribeEvents_diff_refused_witness :
  subscribeEvents ["a"] refusing_world =
    (Throw (Thrown (OtherRejection (VStr "unauthorized"))),
     (subscribeEvents ["a"] refusing_world).2) ∧
  network (subscribeEvents ["a"] refusing_world).2 = [NetSubscribe (Some "a") 0] ∧
  subscribedEvents (this (subscribeEvents ["a"] refusing_world).2) =
    ["a"; "state_changed"; "nodered"] ∧
  unsubCallback (this (subscribeEvents ["a"] refusing_world).2) = ∅.
Proof.
  assert (ALL ∉ ["a"]) as Hall by (rewrite list_elem_of_singleton; discriminate).
  pose proof (subscribeEvents_diff_refused ["a"] refusing_world
                (refusing_client 0 (OtherRejection (VStr "unauthorized")))
                (OtherRejection (VStr "unauthorized"))
                [] "a" ["state_changed"; "nodered"]
                mux_inv_refusing_world Hall eq_refl eq_refl
                (acknowledged_0 _) eq_refl) as E.
  cbv zeta in E. rewrite E. split_and!; vm_compute; reflexivity.
Defined.

(** A refused subscribe request: the call for [a] sends one request and
    throws; the three event types are recorded as active, none of them
    registered, none subscribed on the hub. *)
Lemma refused_subscribe_leaves_active_set_unsubscribed :
  (subscribeEvents ["a"] refusing_world).1 =
    Throw (Thrown (OtherRejection (VStr "unauthorized"))) ∧
  network (subscribeEvents ["a"] refusing_world).2 = [NetSubscribe (Some "a") 0] ∧
  subscribedEvents (this (subscribeEvents ["a"] refusing_world).2) =
    ["a"; "state_changed"; "nodered"] ∧
  unsubCallback (this (subscribeEvents ["a"] refusing_world).2) !! "a" = None ∧
  unsubCallback (this (subscribeEvents ["a"] refusing_world).2) !! "state_changed" = None ∧
  unsubCallback (this (subscribeEvents ["a"] refusing_world).2) !! "nodered" = None.
Proof. split_and!; vm_compute; reflexivity. Qed.
End steps.

(** ** Subscription multiplexer: the claims *)




(** C2 (as amended).  On a multiplexer whose registry matches its active
    set, a call of [subscribeEvents] returns normally when the hub
    acknowledges the subscribe requests it sends; and whenever a call has
    returned normally, a second call with the same event types returns
    normally, issues no subscribe and no unsubscribe request, and leaves
    the active set (as a set) and the registry of unsubscribe functions
    as the first call left them. *)
Theorem subscribeEvents_idempotent (w : World) (events : list string) :
  mux_inv w →
  (acknowledged w (length (to_subscribe events w)) →
     ∃ w1, subscribeEvents events w = (Ret tt, w1)) ∧
  (∀ w1, subscribeEvents events w = (Ret tt, w1) →
     ∃ w2, subscribeEvents events w1 = (Ret tt, w2) ∧
       issued w1 w2 = [] ∧
       network w2 = network w1 ∧
       subscribedEvents (this w2) ≡ₚ subscribedEvents (this w1) ∧
       unsubCallback (this w2) = unsubCallback (this w1)).
Proof.
  intros Hinv. split.
  - intros Hack. destruct (decide (ALL ∈ events)) as [Hall|Hall].
    + destruct (decide (ALL ∈ subscribedEvents (this w))) as [Hact|Hact].
      * exists w. by apply subscribeEvents_wildcard_active.
      * eexists. by apply subscribeEvents_wildcard.
    + eexists. by apply subscribeEvents_diff.
  - intros w1 Hrun.
    pose proof (subscribeEvents_returns _ _ _ Hinv Hrun) as Hack.
    pose proof (mux_inv_subscribeEvents events w Hinv Hack) as Hinv1.
    destruct (decide (ALL ∈ events)) as [Hall|Hall].
    + destruct (decide (ALL ∈ subscribedEvents (this w))) as [Hact|Hact].
      * rewrite subscribeEvents_wildcard_active in Hrun by done.
        injection Hrun as <-. exists w.
        rewrite subscribeEvents_wildcard_active by done.
        by rewrite issued_refl.
      * rewrite subscribeEvents_wildcard in Hrun by done.
        injection Hrun as <-. eexists.
        rewrite subscribeEvents_wildcard_active;
          [|done|simpl; by apply list_elem_of_singleton].
        by rewrite issued_refl.
    + rewrite subscribeEvents_diff in Hrun, Hinv1 by done.
      injection Hrun as <-.
      set (act := subscribedEvents (this w)) in *.
      set (cur := desired events) in *.
      assert (∀ x, x ∈ cur →
                x ∈ filter (λ x, x ∈ act) cur ++ filter (λ x, x ∉ act) cur) as Hcov.
      { intros x Hx. rewrite elem_of_app, !list_elem_of_filter.
        destruct (decide (x ∈ act)); naive_solver. }
      assert (filter (λ x, x ∉ filter (λ x, x ∈ act) cur ++ filter (λ x, x ∉ act) cur)
                cur = []) as Hadd.
      { apply filter_none. intros x Hx Hn. by apply Hn, Hcov. }
      assert (filter (λ x, x ∉ cur)
                (filter (λ x, x ∈ act) cur ++ filter (λ x, x ∉ act) cur) = []) as Hrem.
      { apply filter_none. intros x Hx Hn. apply Hn.
        apply elem_of_app in Hx as [Hx|Hx]; by apply list_elem_of_filter in Hx as [_ ?]. }
      eexists. split.
      { apply subscribeEvents_diff; [done|done|].
        rewrite to_subscribe_diff by done. simpl. fold cur. rewrite Hadd.
        apply acknowledged_0. }
      simpl. fold cur. rewrite Hadd, Hrem. simpl. unfold issued. simpl.
      rewrite !app_nil_r, drop_all. split_and!; try done.
      rewrite filter_all by done.
      symmetry. apply (filter_app_complement (λ x, x ∈ act)).
Qed.

Lemma subscribeEvents_idempotent_witness :
  ∃ w1 w2,
    subscribeEvents ["lights_on"; "b"] (connected_world example_config) = (Ret tt, w1) ∧
    subscribeEvents ["lights_on"; "b"] w1 = (Ret tt, w2) ∧
    issued w1 w2 = [] ∧
    network w2 = network w1 ∧
    subscribedEvents (this w2) ≡ₚ subscribedEvents (this w1) ∧
    unsubCallback (this w2) = unsubCallback (this w1).
Proof.
  destruct (subscribeEvents_idempotent (connected_world example_config)
              ["lights_on"; "b"] (mux_inv_connected _)) as [Hfirst Hsecond].
  destruct (Hfirst (always_acknowledged_connected _ _)) as [w1 Hrun].
  destruct (Hsecond w1 Hrun) as (w2 & Hrun2 & Hrest).
  exists w1, w2. split; [exact Hrun|]. split; [exact Hrun2|]. exact Hrest.
Defined.

(** When the hub refuses the wildcard subscribe request, the call
    throws before it records the wildcard as active, so a second call
    with the same event types sends the subscribe request again. *)
Lemma refused_wildcard_subscribe_is_sent_again :
  mux_inv refusing_world ∧
  (subscribeEvents [ALL] refusing_world).1 =
    Throw (Thrown (OtherRejection (VStr "unauthorized"))) ∧
  issued refusing_world refused_world = [NetSubscribe None 0] ∧
  subscribedEvents (this refused_world) = [] ∧
  (subscribeEvents [ALL] refused_world).1 = Ret tt ∧
  issued refused_world (subscribeEvents [ALL] refused_world).2 =
    [NetSubscribe None 1] ∧
  length (issued refused_world (subscribeEvents [ALL] refused_world).2) ≠ 0.
Proof.
  split_and!; try (vm_compute; reflexivity).
  - apply mux_inv_refusing_world.
  - vm_compute. discriminate.
Qed.

(** C3 (as amended).  On a multiplexer whose registry matches its
    active set: (a) a call whose requested types contain the wildcard,
    made while the wildcard is not active, unsubscribes every active
    type through its registered function, then issues one subscribe
    request without a type; when the hub acknowledges that request the
    call returns normally and leaves the wildcard as the only active
    entry and the only registry entry, and when the hub refuses it the
    call throws the rejection and leaves the active set and the registry
    empty; (b) made while the wildcard is active, such a call changes
    nothing; (c) a call for [lights_on] made in wildcard mode, to a hub
    that acknowledges the three subscribe requests, unsubscribes the
    wildcard and subscribes to [lights_on], [state_changed] and
    [nodered]: three subscribe requests and one unsubscribe request, four
    requests in all. *)
Theorem subscribeEvents_wildcard_rule (w : World) (events : list string) (id : nat) :
  mux_inv w →
  (ALL ∈ events → ALL ∉ subscribedEvents (this w) →
     ∃ o w', subscribeEvents events w = (o, w') ∧
       issued w w' =
         unsub_ops (unsubCallback (this w)) (subscribedEvents (this w))
           ++ [NetSubscribe None (next_sub w)] ∧
       (∀ e i, e ∈ subscribedEvents (this w) →
               unsubCallback (this w) !! e = Some i →
               NetUnsubscribe i ∈ issued w w') ∧
       length (filter (λ o, is_unsubscribe o) (issued w w')) =
         length (subscribedEvents (this w)) ∧
       filter (λ o, is_subscribe o) (issued w w') =
         [NetSubscribe None (next_sub w)] ∧
       (acknowledged w 1 →
          o = Ret tt ∧
          subscribedEvents (this w') = [ALL] ∧
          unsubCallback (this w') = {[ALL := next_sub w]}) ∧
       (∀ c r, client (this w) = Some c →
          subscribe_reply c (next_sub w) = Some r →
          o = Throw (Thrown r) ∧
          subscribedEvents (this w') = [] ∧
          unsubCallback (this w') = ∅)) ∧
  (ALL ∈ events → ALL ∈ subscribedEvents (this w) →
     subscribeEvents events w = (Ret tt, w)) ∧
  (subscribedEvents (this w) = [ALL] →
   unsubCallback (this w) !! ALL = Some id →
   acknowledged w 3 →
     ∃ w', subscribeEvents ["lights_on"] w = (Ret tt, w') ∧
       issued w w' =
         [NetUnsubscribe id;
          NetSubscribe (Some "lights_on") (next_sub w);
          NetSubscribe (Some "state_changed") (S (next_sub w));
          NetSubscribe (Some "nodered") (S (S (next_sub w)))] ∧
       length (issued w w') = 4 ∧
       subscribedEvents (this w') = ["lights_on"; "state_changed"; "nodered"] ∧
       dom (unsubCallback (this w')) = {["lights_on"; "state_changed"; "nodered"]}).
Proof.
  intros Hinv. split_and!.
  - intros Hall Hact.
    assert (∀ t n,
      let w' := mux_world t
        (network w ++ unsub_ops (unsubCallback (this w)) (subscribedEvents (this w))
                   ++ [NetSubscribe None (next_sub w)]) n w in
      issued w w' =
        unsub_ops (unsubCallback (this w)) (subscribedEvents (this w))
          ++ [NetSubscribe None (next_sub w)] ∧
      (∀ e i, e ∈ subscribedEvents (this w) →
              unsubCallback (this w) !! e = Some i →
              NetUnsubscribe i ∈ issued w w') ∧
      length (filter (λ o, is_unsubscribe o) (issued w w')) =
        length (subscribedEvents (this w)) ∧
      filter (λ o, is_subscribe o) (issued w w') =
        [NetSubscribe None (next_sub w)]) as Hops.
    { intros t n w'. unfold w'. rewrite issued_app.
      destruct Hinv as (_ & _ & Hreg).
      assert (∀ o, o ∈ [NetSubscribe None (next_sub w)] → is_subscribe o) as Hsub
        by by intros o ->%list_elem_of_singleton.
      split_and!.
      - done.
      - intros e i He Hi. apply elem_of_app. left. unfold unsub_ops.
        apply list_elem_of_fmap. exists i. split; [done|].
        apply list_elem_of_omap. by exists e.
      - rewrite filter_unsubscribe_app by done.
        apply length_unsub_ops. intros e. apply Hreg.
      - by rewrite filter_subscribe_app. }
    pose proof Hinv as ([c Hc] & _ & _).
    destruct (subscribe_reply c (next_sub w)) as [r|] eqn:Hr.
    + eexists _, _. split; [by apply (subscribeEvents_wildcard_refused _ _ c r)|].
      destruct (Hops (set_subscribedEvents [] (set_unsubCallback ∅ (this w)))
                  (S (next_sub w))) as (H1 & H2 & H3 & H4).
      split_and!; try done.
      * intros Hack. rewrite (acknowledged_head w 0 c Hack Hc) in Hr. done.
      * intros c' r' Hc' Hr'. assert (c' = c) as -> by congruence.
        assert (r' = r) as -> by congruence. done.
    + assert (acknowledged w (length (to_subscribe events w))) as Hack.
      { rewrite to_subscribe_wildcard by done. intros c' i Hc' Hi1 Hi2. simpl in Hi2.
        assert (i = next_sub w) as -> by lia. congruence. }
      eexists _, _. split; [by apply subscribeEvents_wildcard|].
      destruct (Hops (set_subscribedEvents [ALL]
                        (set_unsubCallback {[ALL := next_sub w]} (this w)))
                  (S (next_sub w))) as (H1 & H2 & H3 & H4).
      split_and!; try done.
      intros c' r' Hc' Hr'. congruence.
  - intros. by apply subscribeEvents_wildcard_active.
  - intros Hact Hid Hack.
    assert (ALL ∉ ["lights_on"]) as Hall
      by (rewrite list_elem_of_singleton; discriminate).
    assert (to_subscribe ["lights_on"] w = ["lights_on"; "state_changed"; "nodered"])
      as Hts.
    { unfold to_subscribe. rewrite Hact. vm_compute. reflexivity. }
    eexists. split.
    { apply subscribeEvents_diff; [done|done|]. by rewrite Hts. }
    rewrite issued_app, Hact.
    assert (filter (λ x, x ∉ [ALL]) (desired ["lights_on"])
            = ["lights_on"; "state_changed"; "nodered"]) as ->
      by (vm_compute; reflexivity).
    assert (filter (λ x, x ∈ [ALL]) (desired ["lights_on"]) = []) as ->
      by (vm_compute; reflexivity).
    assert (filter (λ x, x ∉ desired ["lights_on"]) [ALL] = [ALL]) as ->
      by (vm_compute; reflexivity).
    unfold unsub_ops. simpl. rewrite Hid. simpl.
    split_and!; try done.
    rewrite !dom_insert_L.
    assert (dom (delete ALL (unsubCallback (this w))) = ∅) as ->.
    { apply dom_empty_iff_L, map_eq. intros e.
      rewrite lookup_empty. destruct (decide (e = ALL)) as [->|Hne].
      - apply lookup_delete_eq.
      - rewrite lookup_delete_ne by done. apply eq_None_not_Some.
        destruct Hinv as (_ & _ & Hreg). rewrite <- Hreg, Hact.
        by rewrite list_elem_of_singleton. }
    set_solver.
Qed.

Lemma mux_inv_wildcard_world : mux_inv wildcard_world.
Proof.
  apply mux_inv_subscribeEvents; [apply mux_inv_connected|].
  apply always_acknowledged_connected.
Qed.

Lemma always_acknowledged_wildcard_world : always_acknowledged wildcard_world.
Proof.
  apply always_acknowledged_subscribeEvents;
    [apply mux_inv_connected | apply always_acknowledged_connected].
Qed.

Lemma subscribeEvents_wildcard_rule_witness :
  (∃ w', subscribeEvents wildcard_request (connected_world example_config) = (Ret tt, w') ∧
         subscribedEvents (this w') = [ALL]) ∧
  subscribeEvents wildcard_request wildcard_world = (Ret tt, wildcard_world) ∧
  (∃ w', subscribeEvents ["lights_on"] wildcard_world = (Ret tt, w') ∧
         length (issued wildcard_world w') = 4).
Proof.
  assert (ALL ∈ wildcard_request) as Hreq
    by (apply list_elem_of_In; simpl; auto).
  split_and!.
  - destruct (subscribeEvents_wildcard_rule (connected_world example_config)
                wildcard_request 0 (mux_inv_connected example_config))
      as (Ha & _ & _).
    specialize (Ha Hreq (not_elem_of_nil _)).
    destruct Ha as (o & w' & Hrun & _ & _ & _ & _ & Hack & _).
    destruct (Hack (always_acknowledged_connected _ _)) as (-> & Hact & _).
    by exists w'.
  - destruct (subscribeEvents_wildcard_rule wildcard_world
                wildcard_request 0 mux_inv_wildcard_world)
      as (_ & Hb & _).
    apply Hb; [done|]. apply list_elem_of_In. vm_compute. auto.
  - destruct (subscribeEvents_wildcard_rule wildcard_world
                wildcard_request 0 mux_inv_wildcard_world)
      as (_ & _ & Hc).
    assert (subscribedEvents (this wildcard_world) = [ALL]) as H1
      by (vm_compute; reflexivity).
    assert (unsubCallback (this wildcard_world) !! ALL = Some 0) as H2
      by (vm_compute; reflexivity).
    destruct (Hc H1 H2 (always_acknowledged_wildcard_world _))
      as (w' & Hrun & _ & Hlen & _).
    by exists w'.
Defined.

(** Leaving wildcard mode for [lights_on] issues four requests, not
    three: the unsubscribe request of the wildcard and three subscribe
    requests. *)
Lemma leaving_wildcard_issues_four_requests :
  subscribeEvents ["lights_on"] wildcard_world = (Ret tt, lights_world) ∧
  issued wildcard_world lights_world =
    [NetUnsubscribe 0;
     NetSubscribe (Some "lights_on") 1;
     NetSubscribe (Some "state_changed") 2;
     NetSubscribe (Some "nodered") 3] ∧
  length (issued wildcard_world lights_world) ≠ 3.
Proof.
  split_and!.
  - destruct (subscribeEvents ["lights_on"] wildcard_world) as [o w'] eqn:E.
    assert (o = (subscribeEvents ["lights_on"] wildcard_world).1) as Ho
      by by rewrite E.
    assert (w' = lights_world) as -> by (unfold lights_world; by rewrite E).
    rewrite Ho. by f_equal.
  - vm_compute. reflexivity.
  - vm_compute. discriminate.
Qed.

(** ** Entity snapshot cache: bulk payloads *)

Section bulk.
Implicit Types (w : World) (msg : value).

Lemma empty_payload_test h msg :
  empty_payload h msg → negb (truthy msg) || (keys_length h msg =? 0)%nat = true.
Proof.
  intros [-> | ->]; [done|]. by rewrite orb_true_r.
Qed.

Lemma nonempty_payload_test h msg :
  truthy msg = true → keys_length h msg ≠ 0 →
  negb (truthy msg) || (keys_length h msg =? 0)%nat = false.
Proof.
  intros -> Hk. simpl. by apply Nat.eqb_neq.
Qed.

Lemma onClientStates_empty w msg :
  empty_payload (wheap w) msg → onClientStates msg w = (Ret tt, w).
Proof.
  intros He. unfold onClientStates. mstep. by rewrite empty_payload_test.
Qed.

Lemma onClientServices_empty w msg :
  empty_payload (wheap w) msg → onClientServices msg w = (Ret tt, w).
Proof.
  intros He. unfold onClientServices. mstep. by rewrite empty_payload_test.
Qed.

Lemma onClientStates_nonempty w msg :
  truthy msg = true → keys_length (wheap w) msg ≠ 0 →
  ∃ w', onClientStates msg w = (Ret tt, w') ∧
    states (this w') = msg ∧ statesLoaded (this w') = true ∧
    wheap w' = wheap w ∧
    emitted w' = emitted w ++
      (if statesLoaded (this w) then []
       else [{| em_topic := "ha_client:states_loaded"; em_args := [msg];
                em_this := set_statesLoaded true (set_states msg (this w));
                em_heap := wheap w |}]).
Proof.
  intros Ht Hk. unfold onClientStates. mstep.
  rewrite nonempty_payload_test by done.
  destruct (statesLoaded (this w)) eqn:E; simpl.
  - eexists. split; [done|]. simpl. by rewrite app_nil_r.
  - eexists. split; [done|]. simpl. done.
Qed.

Lemma onClientServices_nonempty w msg :
  truthy msg = true → keys_length (wheap w) msg ≠ 0 →
  ∃ w', onClientServices msg w = (Ret tt, w') ∧
    services (this w') = msg ∧ servicesLoaded (this w') = true ∧
    wheap w' = wheap w ∧
    emitted w' = emitted w ++
      (if servicesLoaded (this w) then []
       else [{| em_topic := "ha_client:services_loaded"; em_args := [msg];
                em_this := set_servicesLoaded true (set_services msg (this w));
                em_heap := wheap w |}]).
Proof.
  intros Ht Hk. unfold onClientServices. mstep.
  rewrite nonempty_payload_test by done.
  destruct (servicesLoaded (this w)) eqn:E; simpl.
  - eexists. split; [done|]. simpl. by rewrite app_nil_r.
  - eexists. split; [done|]. simpl. done.
Qed.
End bulk.

(** C9.  A bulk payload that is missing (falsy) or has no keys is a
    no-op for [onClientStates] and for [onClientServices]: the call
    returns normally and leaves the whole world as it was, so nothing is
    stored and nothing is emitted.  In particular, after a non-empty bulk
    payload [first] was applied, the snapshot still is [first], the
    loaded flag stays set and the loaded notification is not emitted
    again; the same holds for services. *)
Theorem empty_bulk_payload_is_noop (w : World) (first msg : value) :
  empty_payload (wheap w) msg →
  onClientStates msg w = (Ret tt, w) ∧
  onClientServices msg w = (Ret tt, w) ∧
  (truthy first = true → keys_length (wheap w) first ≠ 0 →
     ∃ w1, onClientStates first w = (Ret tt, w1) ∧
       states (this w1) = first ∧ statesLoaded (this w1) = true ∧
       onClientStates msg w1 = (Ret tt, w1)) ∧
  (truthy first = true → keys_length (wheap w) first ≠ 0 →
     ∃ w1, onClientServices first w = (Ret tt, w1) ∧
       services (this w1) = first ∧ servicesLoaded (this w1) = true ∧
       onClientServices msg w1 = (Ret tt, w1)).
Proof.
  intros He. split_and!.
  - by apply onClientStates_empty.
  - by apply onClientServices_empty.
  - intros Ht Hk.
    destruct (onClientStates_nonempty w first Ht Hk) as (w1 & Hrun & ? & ? & Hh & _).
    exists w1. split_and!; try done.
    apply onClientStates_empty. by rewrite Hh.
  - intros Ht Hk.
    destruct (onClientServices_nonempty w first Ht Hk) as (w1 & Hrun & ? & ? & Hh & _).
    exists w1. split_and!; try done.
    apply onClientServices_empty. by rewrite Hh.
Qed.

Lemma empty_bulk_payload_is_noop_witness :
  onClientStates (VRef 2%positive) bulk_world = (Ret tt, bulk_world) ∧
  (∃ w1, onClientStates (VRef 3%positive) bulk_world = (Ret tt, w1) ∧
     states (this w1) = VRef 3%positive ∧ statesLoaded (this w1) = true ∧
     onClientStates (VRef 2%positive) w1 = (Ret tt, w1)).
Proof.
  assert (empty_payload (wheap bulk_world) (VRef 2%positive)) as He
    by (right; vm_compute; reflexivity).
  destruct (empty_bulk_payload_is_noop bulk_world (VRef 3%positive) (VRef 2%positive) He)
    as (H1 & _ & H3 & _).
  split; [exact H1|]. apply H3.
  - reflexivity.
  - vm_compute. discriminate.
Defined.

(** ** Event dispatcher *)

Section dispatcher.
Implicit Types (w : World) (h : heap) (l : loc) (o : obj) (k : string) (v : value).

Lemma prop_of_ref h l o k v :
  h !! l = Some o → o !! k = Some v → prop_of h (VRef l) k = v.
Proof. intros Hl Hk. unfold prop_of, own_props. rewrite Hl. simpl. by rewrite Hk. Qed.

Lemma fresh_loc_unused h : h !! fresh (dom h) = None.
Proof. apply not_elem_of_dom, is_fresh. Qed.

Lemma lookup_alloc h l o o' :
  h !! l = Some o → <[fresh (dom h) := o']> h !! l = Some o.
Proof.
  intros Hl. rewrite lookup_insert_ne; [done|].
  intros Heq. rewrite <- Heq, fresh_loc_unused in Hl. done.
Qed.

Lemma prop_of_written h l k v :
  prop_of (<[l := <[k := v]> (default ∅ (h !! l))]> h) (VRef l) k = v.
Proof.
  unfold prop_of, own_props. rewrite lookup_insert_eq. simpl.
  by rewrite lookup_insert_eq.
Qed.

(** [getStates(id)] for an entity whose cached record is truthy returns a
    new object with the own properties of that record. *)
Lemma getStates_entity w sl id rec :
  states (this w) = VRef sl → truthy id = true →
  prop_of (wheap w) (VRef sl) (to_key id) = rec → truthy rec = true →
  getStates id VUndef w =
    (Ret (VRef (fresh (dom (wheap w)))),
     with_heap (λ h, <[fresh (dom h) := own_props h rec]> h) w).
Proof.
  intros Hs Hid Hrec Ht. unfold getStates. mstep. rewrite Hs. simpl.
  rewrite Hid, Hrec, Ht. done.
Qed.
End dispatcher.

(** C8.  For a [state_changed] frame whose data object carries a truthy
    entity id and a truthy new state, with the cache holding an object,
    [onClientEvents] returns normally and emits three notifications, in
    the order [ha_events:state_changed], [ha_events:state_changed:<id>],
    [ha_events:all]; at each of them, and so at [ha_events:all], the
    cache entry of the entity already is the new state, and a listener
    calling [getStates(id)] there gets a copy of the new state. *)
Theorem state_changed_updates_cache_before_publish
    (w : World) (m d sl : loc) (mo dobj : obj) (eid ns : value) :
  wheap w !! m = Some mo →
  mo !! "data" = Some (VRef d) →
  mo !! "event_type" = Some (VStr "state_changed") →
  wheap w !! d = Some dobj →
  dobj !! "entity_id" = Some eid → truthy eid = true →
  dobj !! "new_state" = Some ns → truthy ns = true →
  states (this w) = VRef sl →
  ∃ w' e1 e2 e3,
    onClientEvents (VRef m) w = (Ret tt, w') ∧
    emitted w' = emitted w ++ [e1; e2; e3] ∧
    em_topic e1 = "ha_events:state_changed" ∧
    em_topic e2 = "ha_events:state_changed:" +:+ to_key eid ∧
    em_topic e3 = "ha_events:all" ∧
    prop_of (wheap w') (states (this w')) (to_key eid) = ns ∧
    ∀ e, e ∈ [e1; e2; e3] →
      prop_of (em_heap e) (states (em_this e)) (to_key eid) = ns ∧
      ∃ r wl, getStates eid VUndef (listener_world e w') = (Ret (VRef r), wl) ∧
              wheap wl !! r = Some (own_props (em_heap e) ns).
Proof.
  intros Hm Hdata Hty Hd Heid Hteid Hns Htns Hs.
  pose proof (prop_of_ref _ _ _ _ _ Hm Hdata) as Pdata.
  pose proof (prop_of_ref _ _ _ _ _ Hm Hty) as Pty.
  pose proof (prop_of_ref _ _ _ _ _ Hd Heid) as Peid.
  pose proof (prop_of_ref _ _ _ _ _ (lookup_alloc _ _ _
    (<["event" := VRef d]> (<["entity_id" := eid]>
       (<["event_type" := VStr "state_changed"]> ∅))) Hd) Hns) as Pns.
  unfold onClientEvents. mstep.
  rewrite Pdata. simpl. rewrite Pty, Peid. simpl.
  rewrite Hteid. simpl. rewrite Pns, Htns. unfold with_heap. simpl.
  rewrite Hs. simpl.
  eexists _, _, _, _. split; [reflexivity|]. simpl.
  split; [by rewrite <- !app_assoc|].
  split_and!; try done.
  - rewrite Hs. apply prop_of_written.
  - intros e He.
    assert (states (em_this e) = VRef sl ∧
            em_heap e = (<[sl := <[to_key eid := ns]>
               (default ∅ (<[fresh (dom (wheap w)) :=
                  <["event" := VRef d]> (<["entity_id" := eid]>
                    (<["event_type" := VStr "state_changed"]> ∅))]> (wheap w) !! sl))]>
               (<[fresh (dom (wheap w)) :=
                  <["event" := VRef d]> (<["entity_id" := eid]>
                    (<["event_type" := VStr "state_changed"]> ∅))]> (wheap w))))
      as [Hes Heh].
    { apply list_elem_of_In in He. simpl in He.
      destruct He as [<-|[<-|[<-|[]]]]; by simpl. }
    rewrite Hes, Heh. split; [apply prop_of_written|].
    eexists _, _. split.
    + apply (getStates_entity _ sl _ ns); simpl; try done.
      rewrite Heh. apply prop_of_written.
    + simpl. rewrite Heh. apply lookup_insert_eq.
Qed.

Lemma state_changed_updates_cache_before_publish_witness :
  ∃ w' e1 e2 e3,
    onClientEvents (VRef 6%positive) frame_world = (Ret tt, w') ∧
    emitted w' = emitted frame_world ++ [e1; e2; e3] ∧
    em_topic e1 = "ha_events:state_changed" ∧
    em_topic e2 = "ha_events:state_changed:" +:+ to_key (VStr "light.kitchen") ∧
    em_topic e3 = "ha_events:all" ∧
    prop_of (wheap w') (states (this w')) (to_key (VStr "light.kitchen")) = VRef 8%positive ∧
    ∀ e, e ∈ [e1; e2; e3] →
      prop_of (em_heap e) (states (em_this e)) (to_key (VStr "light.kitchen")) = VRef 8%positive ∧
      ∃ r wl, getStates (VStr "light.kitchen") VUndef (listener_world e w')
                = (Ret (VRef r), wl) ∧
              wheap wl !! r = Some (own_props (em_heap e) (VRef 8%positive)).
Proof.
  apply (state_changed_updates_cache_before_publish frame_world 6%positive 7%positive 3%positive
           (<["event_type" := VStr "state_changed"]> {["data" := VRef 7%positive]})
           (<["entity_id" := VStr "light.kitchen"]> {["new_state" := VRef 8%positive]}));
    vm_compute; reflexivity.
Defined.

(** ** Entity snapshot cache: reads *)

Section reads.
Implicit Types (w : World) (h : heap) (r l : loc) (o : obj) (v : value).

Lemma own_props_frame h r o v :
  (∀ n, v = VRef n → n ≠ r) →
  own_props (<[r := o]> h) v = own_props h v.
Proof.
  intros Hv. destruct v as [| | | | |n]; try done.
  unfold own_props. rewrite lookup_insert_ne; [done|].
  intros <-. by apply (Hv r).
Qed.

Lemma prop_of_frame h r o v k :
  (∀ n, v = VRef n → n ≠ r) →
  prop_of (<[r := o]> h) v k = prop_of h v k.
Proof.
  intros Hv. destruct v as [| | | | |n]; try done.
  unfold prop_of. by rewrite own_props_frame.
Qed.

(** Mutations of the object at [r] leave an object at [r]. *)
Lemma mutate_target_only h r o (mus : list mutation) :
  (∀ mu, mu ∈ mus → mutation_target mu = r) →
  ∃ o', foldl mutate (<[r := o]> h) mus = <[r := o']> h.
Proof.
  revert o. induction mus as [|mu mus IH]; intros o Hmus; simpl.
  - by exists o.
  - assert (mutation_target mu = r) as Hmu by (apply Hmus; by left).
    assert (∃ o1, mutate (<[r := o]> h) mu = <[r := o1]> h) as [o1 ->].
    { destruct mu as [l k v|l k]; simpl in *; subst l;
        rewrite alter_insert_eq; eauto. }
    apply IH. intros mu' Hmu'. apply Hmus. by right.
Qed.

(** A read made in a heap with one more object, at a location the cache
    does not know, shows what it shows without that object. *)
Lemma run_read_frame w r o c :
  cache_ok w → wheap w !! r = None →
  observe (run_read c (with_heap (λ h, <[r := o]> h) w)) = observe (run_read c w).
Proof.
  intros (Hcl & (sl & Hs & Hsl) & (vl & Hv & Hvl)) Hr.
  assert (sl ≠ r) as Hsr by (intros ->; rewrite Hr in Hsl; by destruct Hsl).
  assert (vl ≠ r) as Hvr by (intros ->; rewrite Hr in Hvl; by destruct Hvl).
  destruct c as [id f|f]; simpl.
  - unfold getStates. mstep. rewrite Hs. simpl.
    destruct (truthy id); simpl.
    + rewrite prop_of_frame by (by intros ? [= <-]).
      set (rec := prop_of (wheap w) (VRef sl) (to_key id)).
      assert (∀ n, rec = VRef n → n ≠ r) as Hrec.
      { intros n Hn <-. destruct Hsl as [so Hso].
        unfold rec, prop_of, own_props in Hn. rewrite Hso in Hn. simpl in Hn.
        destruct (so !! to_key id) as [x|] eqn:E; [|done]. subst x.
        destruct (Hcl _ _ Hso _ _ E) as [? Hn']. by rewrite Hr in Hn'. }
      destruct (truthy rec); simpl; [|done].
      unfold spread, alloc. mstep.
      rewrite !lookup_insert_eq. simpl. by rewrite own_props_frame.
    + unfold spread, alloc. mstep. rewrite !lookup_insert_eq. simpl.
      by rewrite own_props_frame by (by intros ? [= <-]).
  - unfold getServices, spread, alloc. mstep. rewrite Hv.
    rewrite !lookup_insert_eq. simpl.
    by rewrite own_props_frame by (by intros ? [= <-]).
Qed.

(** A read returns [null] and changes nothing, or returns a new object. *)
Lemma run_read_result w c :
  cache_ok w →
  ∃ v w1, run_read c w = (Ret v, w1) ∧
    ((v = VNull ∧ w1 = w) ∨
     (∃ o, v = VRef (fresh (dom (wheap w))) ∧
           w1 = with_heap (λ h, <[fresh (dom (wheap w)) := o]> h) w)).
Proof.
  intros (Hcl & (sl & Hs & Hsl) & (vl & Hv & Hvl)).
  destruct c as [id f|f]; simpl.
  - unfold getStates. mstep. rewrite Hs. simpl.
    destruct (truthy id); simpl.
    + destruct (truthy (prop_of (wheap w) (VRef sl) (to_key id))); simpl.
      * eexists _, _. split; [done|]. right. eexists. split; done.
      * eexists _, _. split; [done|]. by left.
    + eexists _, _. split; [done|]. right. eexists. split; done.
  - unfold getServices. mstep.
    eexists _, _. split; [done|]. right. eexists. split; done.
Qed.
End reads.

(** C4 (as amended).  With the two stores of the cache allocated in a
    closed heap, [getStates] and [getServices] return normally, leave
    [this] as it was, and return [null] or an object that did not exist
    before the call: a shallow copy.  Whatever properties the caller then
    sets or deletes on the returned object itself, [this] and every
    object that existed before the call stay as they were, and every
    later [getStates] or [getServices] shows what it would have shown
    without those mutations.  (The records and attribute objects found
    under the returned object are the cache's own and are not covered.) *)
Theorem reads_return_shallow_copies (w : World) (c : read_call) :
  cache_ok w →
  ∃ v w1, run_read c w = (Ret v, w1) ∧
    this w1 = this w ∧
    (∀ l, is_Some (wheap w !! l) → v ≠ VRef l) ∧
    ∀ mus, (∀ mu, mu ∈ mus → v = VRef (mutation_target mu)) →
      this (caller_mutates mus w1) = this w ∧
      (∀ l, is_Some (wheap w !! l) →
            wheap (caller_mutates mus w1) !! l = wheap w !! l) ∧
      ∀ c', observe (run_read c' (caller_mutates mus w1)) =
            observe (run_read c' w1).
Proof.
  intros Hok.
  destruct (run_read_result w c Hok) as (v & w1 & Hrun & Hres).
  exists v, w1. split; [done|].
  destruct Hres as [[-> ->]|(o & -> & ->)].
  - split; [done|]. split; [done|]. intros mus Hmus.
    destruct mus as [|mu mus].
    + assert (caller_mutates [] w = w) as -> by by destruct w.
      done.
    + assert (mu ∈ mu :: mus) as Hin by by left.
      by specialize (Hmus mu Hin).
  - set (r := fresh (dom (wheap w))).
    assert (wheap w !! r = None) as Hr by apply fresh_loc_unused.
    split; [done|]. split.
    { intros l [x Hl] [= Heq]. rewrite <- Heq, Hr in Hl. done. }
    intros mus Hmus.
    destruct (mutate_target_only (wheap w) r o mus) as [o' Ho'].
    { intros mu Hmu. specialize (Hmus mu Hmu). by injection Hmus. }
    assert (caller_mutates mus (with_heap (λ h, <[r := o]> h) w) =
            with_heap (λ h, <[r := o']> h) w) as ->.
    { unfold caller_mutates, with_heap. simpl. by rewrite Ho'. }
    split; [done|]. split.
    + intros l [x Hl]. simpl. rewrite lookup_insert_ne; [done|].
      intros <-. by rewrite Hr in Hl.
    + intros c'. by rewrite !run_read_frame.
Qed.

Lemma cache_ok_cache_world : cache_ok cache_world.
Proof.
  split_and!.
  - apply (bool_decide_unpack _). vm_compute. exact I.
  - exists 3%positive. split; vm_compute; eauto.
  - exists 2%positive. split; vm_compute; eauto.
Qed.

Lemma reads_return_shallow_copies_witness :
  ∃ v w1, run_read (GetStates VUndef VUndef) cache_world = (Ret v, w1) ∧
    this w1 = this cache_world ∧
    (∀ l, is_Some (wheap cache_world !! l) → v ≠ VRef l) ∧
    ∀ mus, (∀ mu, mu ∈ mus → v = VRef (mutation_target mu)) →
      this (caller_mutates mus w1) = this cache_world ∧
      (∀ l, is_Some (wheap cache_world !! l) →
            wheap (caller_mutates mus w1) !! l = wheap cache_world !! l) ∧
      ∀ c', observe (run_read c' (caller_mutates mus w1)) =
            observe (run_read c' w1).
Proof.
  apply (reads_return_shallow_copies cache_world (GetStates VUndef VUndef)).
  apply cache_ok_cache_world.
Defined.

(** The copies are shallow.  [getStates()] returns a new object whose
    entry for [light.kitchen] is the record the cache holds; when the
    caller sets [state] in that record, the cache's record changes and a
    later [getStates('light.kitchen')] returns [off] where it would have
    returned [on].  Likewise the attributes object found under the result
    of [getStates('light.kitchen')] is the cache's own. *)
Lemma nested_mutation_reaches_cache :
  (getStates VUndef VUndef cache_world).1 = Ret (VRef 6%positive) ∧
  wheap cache_world !! 6%positive = None ∧
  prop_of (wheap (getStates VUndef VUndef cache_world).2) (VRef 6%positive) "light.kitchen"
    = VRef 4%positive ∧
  prop_of (wheap cache_world) (states (this cache_world)) "light.kitchen" = VRef 4%positive ∧
  observed_prop
    (observe (getStates (VStr "light.kitchen") VUndef
                (getStates VUndef VUndef cache_world).2)) "state"
    = Some (VStr "on") ∧
  observed_prop
    (observe (getStates (VStr "light.kitchen") VUndef nested_result_world)) "state"
    = Some (VStr "off") ∧
  observe (getStates (VStr "light.kitchen") VUndef nested_result_world) ≠
    observe (getStates (VStr "light.kitchen") VUndef
               (getStates VUndef VUndef cache_world).2) ∧
  prop_of (wheap cache_world) (VRef 4%positive) "state" = VStr "on" ∧
  prop_of (wheap nested_result_world) (VRef 4%positive) "state" = VStr "off" ∧
  (getStates (VStr "light.kitchen") VUndef cache_world).1 = Ret (VRef 6%positive) ∧
  prop_of (wheap (getStates (VStr "light.kitchen") VUndef cache_world).2)
    (VRef 6%positive) "attributes" = VRef 5%positive ∧
  prop_of (wheap cache_world) (VRef 4%positive) "attributes" = VRef 5%positive ∧
  prop_of (wheap cache_world) (VRef 5%positive) "brightness" = VNum 10 ∧
  prop_of (wheap nested_attributes_world) (VRef 5%positive) "brightness" = VNum 99.
Proof.
  split_and!; try (vm_compute; reflexivity).
  intros Heq.
  apply (f_equal (λ x, observed_prop x "state")) in Heq.
  vm_compute in Heq. discriminate.
Qed.

(** ** Transport handshake: what the handlers do *)

Section handshake.
Implicit Types (w : World) (s : Socket) (sid : nat).

Lemma alter_alter_lookup (f g : Socket → Socket) (l : list Socket) sid :
  alter f sid (alter g sid l) = alter (f ∘ g) sid l.
Proof. apply list_alter_alter_eq. Qed.

Lemma get_after_update w sid s (f : Socket → Socket) :
  sockets w !! sid = Some s →
  default new_socket (alter f sid (sockets w) !! sid) = f s.
Proof. intros Hs. by rewrite list_lookup_alter_eq, Hs. Qed.

(** [onClose] on a socket whose attempt did not see invalid auth: the
    close listener goes, one timer of 5000 ms is added. *)
Lemma onClose_retry w sid s :
  sockets w !! sid = Some s → invalidAuth s = false →
  onClose sid w =
    (Ret tt, with_timers (λ l, l ++ [5000%Z])
               (with_sockets (alter (set_lClose false) sid) w)).
Proof.
  intros Hs Hi. unfold onClose, update_socket, get_socket. mstep.
  rewrite (get_after_update _ _ s) by done. simpl. by rewrite Hi.
Qed.

(** [onClose] on a socket whose attempt saw invalid auth: the close
    listener goes, the promise is rejected, no timer is added. *)
Lemma onClose_invalid w sid s :
  sockets w !! sid = Some s → invalidAuth s = true →
  onClose sid w =
    (Ret tt,
     match promise w with
     | Pending => with_promise (Rejected (HassErr ERR_INVALID_AUTH))
                    (with_sockets (alter (set_lClose false) sid) w)
     | _ => with_sockets (alter (set_lClose false) sid) w
     end).
Proof.
  intros Hs Hi. unfold onClose, update_socket, get_socket. mstep.
  rewrite (get_after_update _ _ s) by done. simpl. rewrite Hi.
  unfold promReject. simpl. by destruct (promise w).
Qed.

Lemma step_close w sid s :
  sockets w !! sid = Some s →
  step (EvClose sid) w =
    if lClose s then
      if invalidAuth s then
        match promise w with
        | Pending => with_promise (Rejected (HassErr ERR_INVALID_AUTH))
                       (with_sockets (alter (set_lClose false ∘ set_phase SockClosed) sid) w)
        | _ => with_sockets (alter (set_lClose false ∘ set_phase SockClosed) sid) w
        end
      else with_timers (λ l, l ++ [5000%Z])
             (with_sockets (alter (set_lClose false ∘ set_phase SockClosed) sid) w)
    else with_sockets (alter (set_phase SockClosed) sid) w.
Proof.
  intros Hs. unfold step, deliver, update_socket, get_socket. mstep.
  rewrite (get_after_update _ _ s) by done. simpl.
  destruct (lClose s); [|done].
  assert (sockets (with_sockets (alter (set_phase SockClosed) sid) w) !! sid
          = Some (set_phase SockClosed s)) as Hs'.
  { simpl. by rewrite list_lookup_alter_eq, Hs. }
  destruct (invalidAuth s) eqn:Hi.
  - rewrite (onClose_invalid _ _ _ Hs') by done. simpl.
    destruct (promise w); unfold with_promise, with_sockets; simpl;
      by rewrite alter_alter_lookup.
  - rewrite (onClose_retry _ _ _ Hs') by done. simpl.
    unfold with_timers, with_sockets. simpl. by rewrite alter_alter_lookup.
Qed.

Lemma step_error w sid s :
  sockets w !! sid = Some s →
  step (EvError sid) w =
    if lError s then
      if invalidAuth s then
        match promise w with
        | Pending => with_promise (Rejected (HassErr ERR_INVALID_AUTH))
                       (with_sockets (alter (set_lClose false ∘ set_phase SockErrored) sid) w)
        | _ => with_sockets (alter (set_lClose false ∘ set_phase SockErrored) sid) w
        end
      else with_timers (λ l, l ++ [5000%Z])
             (with_sockets (alter (set_lClose false ∘ set_phase SockErrored) sid) w)
    else with_sockets (alter (set_phase SockErrored) sid) w.
Proof.
  intros Hs. unfold step, deliver, update_socket, get_socket. mstep.
  rewrite (get_after_update _ _ s) by done. simpl.
  destruct (lError s); [|done].
  assert (sockets (with_sockets (alter (set_phase SockErrored) sid) w) !! sid
          = Some (set_phase SockErrored s)) as Hs'.
  { simpl. by rewrite list_lookup_alter_eq, Hs. }
  destruct (invalidAuth s) eqn:Hi.
  - rewrite (onClose_invalid _ _ _ Hs') by done. simpl.
    destruct (promise w); unfold with_promise, with_sockets; simpl;
      by rewrite alter_alter_lookup.
  - rewrite (onClose_retry _ _ _ Hs') by done. simpl.
    unfold with_timers, with_sockets. simpl. by rewrite alter_alter_lookup.
Qed.

Lemma step_message w sid s type :
  sockets w !! sid = Some s →
  step (EvMessage sid type) w =
    if lMessage s then
      if bool_decide (type = VStr MSG_TYPE_AUTH_INVALID) then
        with_sockets (alter (set_closeRequested true ∘ set_invalidAuth true) sid) w
      else if bool_decide (type = VStr MSG_TYPE_AUTH_OK) then
        match promise w with
        | Pending =>
            with_promise (Resolved sid)
              (with_sockets (alter (set_lError false ∘ set_lClose false ∘
                                    set_lMessage false ∘ set_lOpen false) sid) w)
        | _ => with_sockets (alter (set_lError false ∘ set_lClose false ∘
                                    set_lMessage false ∘ set_lOpen false) sid) w
        end
      else w
    else w.
Proof.
  intros Hs. unfold step, deliver, get_socket. mstep. rewrite Hs. simpl.
  destruct (lMessage s); [|done].
  unfold onMessage, socket_close, update_socket, promResolve.
  repeat case_bool_decide; mstep.
  - unfold with_sockets. simpl. by rewrite alter_alter_lookup.
  - destruct (promise w); unfold with_promise, with_sockets; simpl;
      by rewrite !alter_alter_lookup.
  - done.
Qed.

Lemma step_open w sid s send_error :
  sockets w !! sid = Some s →
  ∃ f : Socket → Socket,
    step (EvOpen sid send_error) w = with_sockets (alter f sid) w ∧
    (∀ s, lOpen (f s) = lOpen s ∧ lMessage (f s) = lMessage s ∧
          lClose (f s) = lClose s ∧ lError (f s) = lError s) ∧
    phase (f s) = SockOpen.
Proof.
  intros Hs. unfold step, deliver, update_socket, get_socket. mstep.
  rewrite (get_after_update _ _ s) by done. simpl.
  destruct (lOpen s).
  - unfold onOpen, socket_close, update_socket, get_socket.
    destruct send_error as [err|]; mstep.
    + eexists. split.
      * unfold with_sockets. simpl. rewrite !alter_alter_lookup. reflexivity.
      * done.
    + eexists (set_sentAuth (S (sentAuth s)) ∘ set_phase SockOpen). split.
      * unfold with_sockets. simpl. rewrite alter_alter_lookup.
        rewrite (get_after_update _ _ s) by done. done.
      * done.
  - exists (set_phase SockOpen). done.
Qed.

Lemma step_timer w d rest :
  timers w = d :: rest →
  step EvTimer w =
    {| this := set_connectionState CONNECTING (this w);
       wheap := wheap w; network := network w; next_sub := next_sub w;
       emitted := emitted w ++
         [{| em_topic := "ha_client:connecting"; em_args := [];
             em_this := set_connectionState CONNECTING (this w);
             em_heap := wheap w |}];
       timers := rest;
       sockets := sockets w ++
         [{| lOpen := true; lMessage := true; lClose := true; lError := true;
             invalidAuth := false; closeRequested := false; sentAuth := 0;
             phase := SockConnecting |}];
       promise := promise w |}.
Proof.
  intros Ht. unfold step, deliver. mstep. rewrite Ht.
  unfold createSocket_connect, new_WebSocket, update_socket. mstep.
  f_equal. unfold with_sockets. simpl.
  rewrite !alter_alter_lookup.
  replace (length (sockets w)) with (length (sockets w) + 0) by lia.
  by rewrite alter_app_r.
Qed.
End handshake.

(** ** Reconnect supervisor: the invariant *)

Section supervisor.
Implicit Types (w : World) (s : Socket) (sid : nat) (l : list Socket).

Lemma live_count_app l1 l2 : live_count (l1 ++ l2) = live_count l1 + live_count l2.
Proof. apply sum_list_with_app. Qed.

Lemma live_count_alter (f : Socket → Socket) l sid s :
  l !! sid = Some s →
  live_count (alter f sid l) + b2n (lClose s) = live_count l + b2n (lClose (f s)).
Proof.
  revert sid. induction l as [|x l IH]; intros sid Hs; [done|].
  destruct sid as [|sid]; simpl in *.
  - injection Hs as ->. unfold live_count. simpl. lia.
  - specialize (IH sid Hs). unfold live_count in *. simpl.
    change (list_alter f sid l) with (alter f sid l). lia.
Qed.

Lemma live_count_same (f : Socket → Socket) l sid :
  (∀ s, lClose (f s) = lClose s) → live_count (alter f sid l) = live_count l.
Proof.
  intros Hf. revert sid. induction l as [|x l IH]; intros sid; [done|].
  destruct sid as [|sid]; unfold live_count in *; simpl.
  - by rewrite Hf.
  - change (list_alter f sid l) with (alter f sid l). by rewrite IH.
Qed.

(** A running attempt means that the promise is pending and that nothing
    else is pending. *)
Lemma live_socket_alone w sid s :
  hs_inv w → sockets w !! sid = Some s → lClose s = true →
  promise w = Pending ∧ timers w = [] ∧ live_count (sockets w) = 1.
Proof.
  intros [_ Hcount] Hs Hl. unfold pending_work in Hcount.
  pose proof (live_count_alter (set_lClose false) _ _ _ Hs) as Ha.
  rewrite Hl in Ha. unfold b2n in Ha. simpl in Ha.
  destruct (promise w); [|lia..].
  split; [done|]. split; [|lia].
  destruct (timers w); [done|]. simpl in Hcount. lia.
Qed.

Lemma hs_inv_start cfg : hs_inv (handshake_start cfg).
Proof. split; [apply Forall_nil_2 | done]. Qed.

Lemma sock_ok_live s : sock_ok s → lError s = true →
  phase s = SockConnecting ∨ phase s = SockOpen → lClose s = true.
Proof.
  unfold sock_ok. destruct (lClose s); [done|].
  intros [[? _]|[?|?]] ? [?|?]; congruence.
Qed.

Lemma sock_ok_listening s : sock_ok s → lMessage s = true →
  phase s = SockOpen → lClose s = true.
Proof.
  unfold sock_ok. destruct (lClose s); [done|].
  intros [[_ ?]|[?|?]] ? ?; congruence.
Qed.
End supervisor.

Section supervisor_steps.
Implicit Types (w : World) (s : Socket) (sid : nat) (l : list Socket).

Lemma enabled_phase w sid p :
  phase <$> sockets w !! sid = Some p →
  ∃ s, sockets w !! sid = Some s ∧ phase s = p.
Proof.
  destruct (sockets w !! sid) as [s|]; [|done].
  intros [= <-]. by exists s.
Qed.

Lemma Forall_sock_ok_alter (F : Socket → Socket) l sid s :
  Forall sock_ok l → l !! sid = Some s → sock_ok (F s) →
  Forall sock_ok (alter F sid l).
Proof.
  intros Hl Hs HF. apply Forall_alter; [done|].
  intros x Hx. rewrite Hs in Hx. by injection Hx as <-.
Qed.

(** [onClose] ran on a running attempt. *)
Lemma hs_inv_onClose w sid s p :
  hs_inv w → sockets w !! sid = Some s → lClose s = true →
  p = SockErrored ∨ p = SockClosed →
  hs_inv
    (if invalidAuth s then
       match promise w with
       | Pending => with_promise (Rejected (HassErr ERR_INVALID_AUTH))
                      (with_sockets (alter (set_lClose false ∘ set_phase p) sid) w)
       | _ => with_sockets (alter (set_lClose false ∘ set_phase p) sid) w
       end
     else with_timers (λ t, t ++ [5000%Z])
            (with_sockets (alter (set_lClose false ∘ set_phase p) sid) w)).
Proof.
  intros Hinv Hs Hl Hp.
  destruct (live_socket_alone w sid s Hinv Hs Hl) as (Hpr & Htm & Hlive).
  destruct Hinv as [Hok Hcount].
  pose proof (live_count_alter (set_lClose false ∘ set_phase p) _ _ _ Hs) as Ha.
  rewrite Hl in Ha. unfold b2n in Ha. simpl in Ha.
  assert (Forall sock_ok (alter (set_lClose false ∘ set_phase p) sid (sockets w))) as Hok'.
  { apply (Forall_sock_ok_alter _ _ _ s); [done..|].
    unfold sock_ok. simpl. right. destruct Hp; auto. }
  rewrite Hpr. destruct (invalidAuth s).
  - split; [done|]. unfold pending_work. simpl. rewrite Htm. simpl. lia.
  - split; [done|]. unfold pending_work. simpl. rewrite Htm, Hpr. simpl. lia.
Qed.

(** A socket event that changes neither the listeners for close and
    error nor what is pending. *)
Lemma hs_inv_quiet w sid s (F : Socket → Socket) :
  hs_inv w → sockets w !! sid = Some s →
  lClose (F s) = lClose s → sock_ok (F s) →
  hs_inv (with_sockets (alter F sid) w).
Proof.
  intros [Hok Hcount] Hs Hc HF. split.
  - by apply (Forall_sock_ok_alter _ _ _ s).
  - unfold pending_work in *. simpl.
    pose proof (live_count_alter F _ _ _ Hs) as Ha. rewrite Hc in Ha.
    assert (live_count (alter F sid (sockets w)) = live_count (sockets w)) as ->
      by lia.
    done.
Qed.

Lemma hs_inv_step w ev : hs_inv w → enabled w ev = true → hs_inv (step ev w).
Proof.
  intros Hinv Hen. destruct ev as [|sid e|sid ty|sid|sid]; simpl in Hen;
    apply bool_decide_eq_true in Hen.
  - destruct (timers w) as [|d rest] eqn:Ht; [done|].
    rewrite (step_timer w d rest Ht).
    destruct Hinv as [Hok Hcount]. split; simpl.
    + apply Forall_app. split; [done|]. apply Forall_singleton.
      unfold sock_ok. simpl. auto.
    + unfold pending_work in *. simpl. rewrite live_count_app.
      rewrite Ht in Hcount. simpl in Hcount. unfold live_count at 2. simpl.
      unfold b2n. simpl. lia.
  - apply enabled_phase in Hen as (s & Hs & Hp).
    destruct (step_open w sid s e Hs) as (F & -> & Hflags & Hph).
    destruct (Hflags s) as (_ & HlM & HlC & HlE).
    apply (hs_inv_quiet _ _ s); [done..|].
    destruct Hinv as [Hok _].
    pose proof (proj1 (Forall_lookup _ _) Hok _ _ Hs) as Hsok.
    unfold sock_ok in *. rewrite HlC, HlE, HlM, Hph.
    destruct (lClose s).
    + destruct Hsok as [? _]. auto.
    + destruct Hsok as [?|[?|?]]; [auto|congruence..].
  - apply enabled_phase in Hen as (s & Hs & Hp).
    rewrite (step_message w sid s ty Hs).
    pose proof Hinv as [Hok _].
    pose proof (proj1 (Forall_lookup _ _) Hok _ _ Hs) as Hsok.
    destruct (lMessage s) eqn:HlM; [|done].
    pose proof (sock_ok_listening s Hsok HlM Hp) as HlC.
    repeat case_bool_decide; [| |done].
    + apply (hs_inv_quiet _ _ s); [done..|]. by unfold sock_ok in *.
    + destruct (live_socket_alone w sid s Hinv Hs HlC) as (Hpr & Htm & Hlive).
      rewrite Hpr. split; simpl.
      * apply (Forall_sock_ok_alter _ _ _ s); [done..|].
        unfold sock_ok. simpl. auto.
      * unfold pending_work. simpl. rewrite Htm. simpl.
        pose proof (live_count_alter
          (set_lError false ∘ set_lClose false ∘ set_lMessage false ∘ set_lOpen false)
          _ _ _ Hs) as Ha.
        rewrite HlC in Ha. unfold b2n in Ha. simpl in Ha. lia.
  - assert (∃ s, sockets w !! sid = Some s ∧
                 (phase s = SockConnecting ∨ phase s = SockOpen))
      as (s & Hs & Hp).
    { destruct Hen as [Hen|Hen]; apply enabled_phase in Hen as (s & ? & ?);
        exists s; auto. }
    rewrite (step_error w sid s Hs).
    pose proof Hinv as [Hok _].
    pose proof (proj1 (Forall_lookup _ _) Hok _ _ Hs) as Hsok.
    destruct (lError s) eqn:HlE.
    + pose proof (sock_ok_live s Hsok HlE Hp) as HlC.
      apply (hs_inv_onClose w sid s SockErrored); auto.
    + apply (hs_inv_quiet _ _ s); [done..|].
      unfold sock_ok in *. simpl. destruct (lClose s); [|auto].
      destruct Hsok as [? _]. congruence.
  - destruct Hen as [[s Hs] Hp].
    rewrite (step_close w sid s Hs).
    pose proof Hinv as [Hok _].
    pose proof (proj1 (Forall_lookup _ _) Hok _ _ Hs) as Hsok.
    destruct (lClose s) eqn:HlC.
    + apply (hs_inv_onClose w sid s SockClosed); auto.
    + apply (hs_inv_quiet _ _ s); [done| done | by simpl |].
      unfold sock_ok. simpl. rewrite HlC. auto.
Qed.

Lemma hs_inv_trace evs w w' :
  hs_inv w → run_trace evs w = Some w' → hs_inv w'.
Proof.
  revert w. induction evs as [|ev evs IH]; intros w Hinv Hrun; simpl in Hrun.
  - by injection Hrun as <-.
  - destruct (enabled w ev) eqn:Hen; [|done].
    apply (IH (step ev w)); [|done]. by apply hs_inv_step.
Qed.
End supervisor_steps.

(** ** Handshake and connect: the claims *)

Section settled.
Implicit Types (w : World) (s : Socket) (sid : nat).

(** Once nothing is pending, nothing is ever scheduled again. *)
Lemma settled_stays_settled evs w w' :
  hs_inv w → promise w ≠ Pending → run_trace evs w = Some w' →
  timers w' = [] ∧ live_count (sockets w') = 0 ∧ promise w' = promise w.
Proof.
  revert w. induction evs as [|ev evs IH]; intros w Hinv Hp Hrun; simpl in Hrun.
  - injection Hrun as <-. destruct Hinv as [_ Hc]. unfold pending_work in Hc.
    destruct (promise w); [done|..]; destruct (timers w); simpl in Hc;
      (split; [done || lia|]); (split; [lia|done]).
  - destruct (enabled w ev) eqn:Hen; [|done].
    assert (promise (step ev w) = promise w) as Hsame.
    { pose proof Hinv as [Hok Hc]. unfold pending_work in Hc.
      assert (timers w = [] ∧ live_count (sockets w) = 0) as [Ht Hl].
      { destruct (promise w); [done|..]; destruct (timers w); simpl in Hc;
          (split; [done || lia|lia]). }
      assert (∀ sid s, sockets w !! sid = Some s → lClose s = false) as Hdead.
      { intros sid s Hs. destruct (lClose s) eqn:E; [|done].
        destruct (live_socket_alone w sid s Hinv Hs E) as (? & _). done. }
      destruct ev as [|sid e|sid ty|sid|sid]; simpl in Hen;
        apply bool_decide_eq_true in Hen.
      - by rewrite Ht in Hen.
      - apply enabled_phase in Hen as (s & Hs & _).
        by destruct (step_open w sid s e Hs) as (F & -> & _).
      - apply enabled_phase in Hen as (s & Hs & Hph).
        rewrite (step_message w sid s ty Hs).
        destruct (lMessage s) eqn:HlM; [|done].
        pose proof (proj1 (Forall_lookup _ _) Hok _ _ Hs) as Hsok.
        pose proof (sock_ok_listening s Hsok HlM Hph) as HlC.
        by rewrite (Hdead _ _ Hs) in HlC.
      - assert (∃ s, sockets w !! sid = Some s ∧
                     (phase s = SockConnecting ∨ phase s = SockOpen))
          as (s & Hs & Hph).
        { destruct Hen as [Hen|Hen]; apply enabled_phase in Hen as (s & ? & ?);
            exists s; auto. }
        rewrite (step_error w sid s Hs).
        destruct (lError s) eqn:HlE; [|done].
        pose proof (proj1 (Forall_lookup _ _) Hok _ _ Hs) as Hsok.
        pose proof (sock_ok_live s Hsok HlE Hph) as HlC.
        by rewrite (Hdead _ _ Hs) in HlC.
      - destruct Hen as [[s Hs] _]. rewrite (step_close w sid s Hs).
        by rewrite (Hdead _ _ Hs). }
    destruct (IH (step ev w)) as (? & ? & ?); [by apply hs_inv_step|congruence|done|].
    split_and!; [done..|congruence].
Qed.

(** [connect] does not touch the handshake. *)
Lemma connect_handshake_frame created user w :
  timers (connect created user w).2 = timers w ∧
  sockets (connect created user w).2 = sockets w ∧
  promise (connect created user w).2 = promise w.
Proof.
  unfold connect, connect_catch, on_client, onClientOpen, read_prop.
  destruct created as [[[]|v]|c]; mstep; try done.
  destruct user as [e|[]]; mstep; try done;
    repeat case_bool_decide; simpl; done.
Qed.
End settled.

Lemma hs_inv_frame (w w' : World) :
  timers w' = timers w → sockets w' = sockets w → promise w' = promise w →
  hs_inv w → hs_inv w'.
Proof.
  intros Ht Hs Hp [Hok Hc]. unfold hs_inv, pending_work in *.
  by rewrite Ht, Hs, Hp.
Qed.

(** C5.  While an attempt is in its handshake (its socket is open and
    its message listener registered), an [auth_invalid] message marks the
    attempt as invalid auth and closes the socket, without scheduling a
    timer.  The close or error event of the socket that follows rejects
    the promise of [createSocket] with [ERR_INVALID_AUTH] and schedules no
    timer, and no timer is scheduled by anything that happens later.
    [createConnection] fails with that error, and [connect] sets the state
    to ERROR and throws the invalid-auth error. *)
Theorem auth_invalid_rejects_without_retry
    (w : World) (sid : nat) (s : Socket) (ev : event) (user : rejection + value) :
  hs_inv w → sockets w !! sid = Some s →
  lMessage s = true → phase s = SockOpen →
  ev = EvClose sid ∨ ev = EvError sid →
  invalidAuth <$> sockets (step (EvMessage sid (VStr MSG_TYPE_AUTH_INVALID)) w) !! sid
    = Some true ∧
  closeRequested <$> sockets (step (EvMessage sid (VStr MSG_TYPE_AUTH_INVALID)) w) !! sid
    = Some true ∧
  timers (step (EvMessage sid (VStr MSG_TYPE_AUTH_INVALID)) w) = [] ∧
  promise (step (EvMessage sid (VStr MSG_TYPE_AUTH_INVALID)) w) = Pending ∧
  enabled (step (EvMessage sid (VStr MSG_TYPE_AUTH_INVALID)) w) ev = true ∧
  ∃ w2, step ev (step (EvMessage sid (VStr MSG_TYPE_AUTH_INVALID)) w) = w2 ∧
    promise w2 = Rejected (HassErr ERR_INVALID_AUTH) ∧
    timers w2 = [] ∧
    (∀ evs w', run_trace evs w2 = Some w' → timers w' = []) ∧
    createConnection_result w2 = Some (inl (HassErr ERR_INVALID_AUTH)) ∧
    ∃ w3, connect (inl (HassErr ERR_INVALID_AUTH)) user w2 =
            (Throw (JsError "Invalid access token or password for websocket"), w3) ∧
      connectionState (this w3) = ERROR ∧
      timers w3 = [] ∧
      (∀ evs w', run_trace evs w3 = Some w' → timers w' = []).
Proof.
  intros Hinv Hs HlM Hph Hev.
  pose proof Hinv as [Hok _].
  pose proof (proj1 (Forall_lookup _ _) Hok _ _ Hs) as Hsok.
  pose proof (sock_ok_listening s Hsok HlM Hph) as HlC.
  assert (lError s = true) as HlE.
  { unfold sock_ok in Hsok. rewrite HlC in Hsok. by destruct Hsok. }
  destruct (live_socket_alone w sid s Hinv Hs HlC) as (Hpr & Htm & _).
  assert (enabled w (EvMessage sid (VStr MSG_TYPE_AUTH_INVALID)) = true) as Hen.
  { simpl. apply bool_decide_eq_true. by rewrite Hs, <- Hph. }
  pose proof (hs_inv_step _ _ Hinv Hen) as Hinv1.
  set (w1 := step (EvMessage sid (VStr MSG_TYPE_AUTH_INVALID)) w) in *.
  assert (w1 = with_sockets
            (alter (set_closeRequested true ∘ set_invalidAuth true) sid) w) as Hw1.
  { unfold w1. rewrite (step_message w sid s _ Hs), HlM.
    by rewrite bool_decide_true. }
  set (s1 := (set_closeRequested true ∘ set_invalidAuth true) s).
  assert (sockets w1 !! sid = Some s1) as Hs1.
  { rewrite Hw1. simpl. by rewrite list_lookup_alter_eq, Hs. }
  assert (enabled w1 ev = true) as Hen1.
  { destruct Hev as [-> | ->]; simpl; apply bool_decide_eq_true; rewrite Hs1; simpl.
    - split; [eauto|]. rewrite Hph. done.
    - right. by rewrite Hph. }
  pose proof (hs_inv_step _ _ Hinv1 Hen1) as Hinv2.
  assert (promise w1 = Pending ∧ timers w1 = []) as [Hpr1 Htm1]
    by by rewrite Hw1.
  split_and!; try done.
  { by rewrite Hs1. }
  { by rewrite Hs1. }
  eexists. split; [reflexivity|].
  assert (promise (step ev w1) = Rejected (HassErr ERR_INVALID_AUTH) ∧
          timers (step ev w1) = []) as [Hpr2 Htm2].
  { destruct Hev as [-> | ->].
    - rewrite (step_close w1 sid s1 Hs1). simpl. rewrite HlC, Hpr1. by simpl.
    - rewrite (step_error w1 sid s1 Hs1). simpl. rewrite HlE, Hpr1. by simpl. }
  split_and!; try done.
  - intros evs w' Hrun.
    apply (settled_stays_settled evs (step ev w1)); [done| |done].
    by rewrite Hpr2.
  - unfold createConnection_result. by rewrite Hpr2.
  - eexists. split; [reflexivity|]. simpl. split_and!; try done.
    intros evs w' Hrun.
    refine (proj1 (settled_stays_settled evs _ w' _ _ Hrun)).
    + by apply (hs_inv_frame (step ev w1)).
    + simpl. by rewrite Hpr2.
Qed.

Lemma hs_inv_auth_phase_world : hs_inv auth_phase_world.
Proof.
  unfold auth_phase_world.
  repeat (apply hs_inv_step; [|vm_compute; reflexivity]).
  apply hs_inv_start.
Qed.

Lemma auth_invalid_rejects_without_retry_witness :
  ∃ w2, step (EvClose 0) (step (EvMessage 0 (VStr MSG_TYPE_AUTH_INVALID)) auth_phase_world)
          = w2 ∧
    promise w2 = Rejected (HassErr ERR_INVALID_AUTH) ∧
    timers w2 = [] ∧
    (∀ evs w', run_trace evs w2 = Some w' → timers w' = []) ∧
    createConnection_result w2 = Some (inl (HassErr ERR_INVALID_AUTH)) ∧
    ∃ w3, connect (inl (HassErr ERR_INVALID_AUTH)) (inr VUndef) w2 =
            (Throw (JsError "Invalid access token or password for websocket"), w3) ∧
      connectionState (this w3) = ERROR ∧
      timers w3 = [] ∧
      (∀ evs w', run_trace evs w3 = Some w' → timers w' = []).
Proof.
  refine (proj2 (proj2 (proj2 (proj2 (proj2
    (auth_invalid_rejects_without_retry auth_phase_world 0
       {| lOpen := true; lMessage := true; lClose := true; lError := true;
          invalidAuth := false; closeRequested := false; sentAuth := 1;
          phase := SockOpen |}
       (EvClose 0) (inr VUndef) hs_inv_auth_phase_world _ _ _ _)))))).
  - vm_compute. reflexivity.
  - reflexivity.
  - reflexivity.
  - by left.
Defined.

Section retries.
Implicit Types (w : World) (s : Socket) (sid : nat).

Lemma run_trace_app evs1 evs2 w w1 :
  run_trace evs1 w = Some w1 → run_trace (evs1 ++ evs2) w = run_trace evs2 w1.
Proof.
  revert w. induction evs1 as [|ev evs1 IH]; intros w Hrun; simpl in *.
  - by injection Hrun as <-.
  - destruct (enabled w ev); [|done]. by apply IH.
Qed.

(** One failing round: the pending timer expires, the new socket closes
    before authentication, and a timer of 5000 ms is pending again. *)
Lemma failing_round w d :
  timers w = [d] → promise w = Pending →
  ∃ w', run_trace [EvTimer; EvClose (length (sockets w))] w = Some w' ∧
    timers w' = [5000%Z] ∧ promise w' = Pending ∧
    length (sockets w') = S (length (sockets w)).
Proof.
  intros Ht Hp. cbn [run_trace].
  assert (enabled w EvTimer = true) as -> by (simpl; by rewrite Ht).
  set (s0 := {| lOpen := true; lMessage := true; lClose := true; lError := true;
                invalidAuth := false; closeRequested := false; sentAuth := 0;
                phase := SockConnecting |}).
  assert (sockets (step EvTimer w) = sockets w ++ [s0] ∧
          timers (step EvTimer w) = [] ∧
          promise (step EvTimer w) = Pending) as (Hso & Ht1 & Hp1).
  { by rewrite (step_timer w d [] Ht). }
  set (w1 := step EvTimer w) in *.
  assert (sockets w1 !! length (sockets w) = Some s0) as Hs.
  { rewrite Hso. by apply list_lookup_middle. }
  assert (enabled w1 (EvClose (length (sockets w))) = true) as ->.
  { simpl. apply bool_decide_eq_true. rewrite Hs. split; [eauto|done]. }
  eexists. split; [reflexivity|].
  rewrite (step_close w1 _ s0 Hs). simpl.
  rewrite Ht1, Hp1. split_and!; try done.
  rewrite length_alter, Hso, length_app. simpl. lia.
Qed.

Lemma failing_rounds_run n w d :
  timers w = [d] → promise w = Pending →
  ∃ w', run_trace (failing_rounds n (length (sockets w))) w = Some w' ∧
    length (timers w') = 1 ∧ promise w' = Pending ∧
    length (sockets w') = n + length (sockets w).
Proof.
  revert w d. induction n as [|n IH]; intros w d Ht Hp.
  - exists w. simpl. by rewrite Ht.
  - destruct (failing_round w d Ht Hp) as (w1 & Hrun & Ht1 & Hp1 & Hlen1).
    destruct (IH w1 _ Ht1 Hp1) as (w' & Hrun' & Ht' & Hp' & Hlen').
    exists w'. split_and!; [|done|done|lia].
    change (failing_rounds (S n) (length (sockets w)))
      with ([EvTimer; EvClose (length (sockets w))] ++
            failing_rounds n (S (length (sockets w)))).
    rewrite (run_trace_app _ _ _ _ Hrun). by rewrite <- Hlen1.
Qed.
End retries.

(** C6.  (a) A close or error event handled for an attempt that has not
    seen invalid auth adds exactly one timer, of 5000 ms, settles nothing
    and removes the close listener.  (b) When a timer expires a new
    attempt begins: the state is CONNECTING, [ha_client:connecting] is
    emitted and a new socket has the four listeners.  (c) There is no
    maximum: for every [n], [n] attempts in a row can fail, and a retry is
    pending after the last.  (d) Whatever the sockets deliver within their
    life cycle, at most one timer is pending; while the promise is pending
    exactly one timer or running attempt exists, and once it is settled
    (by [auth_ok] or by invalid auth) none does. *)
Theorem retry_after_close_or_error (cfg : Config) :
  (∀ w sid s ev,
     sockets w !! sid = Some s → invalidAuth s = false →
     (ev = EvClose sid ∧ lClose s = true) ∨ (ev = EvError sid ∧ lError s = true) →
     timers (step ev w) = timers w ++ [5000%Z] ∧
     promise (step ev w) = promise w ∧
     lClose <$> sockets (step ev w) !! sid = Some false) ∧
  (∀ w d rest,
     timers w = d :: rest →
     timers (step EvTimer w) = rest ∧
     connectionState (this (step EvTimer w)) = CONNECTING ∧
     em_topic <$> emitted (step EvTimer w) =
       (em_topic <$> emitted w) ++ ["ha_client:connecting"] ∧
     sockets (step EvTimer w) = sockets w ++
       [{| lOpen := true; lMessage := true; lClose := true; lError := true;
           invalidAuth := false; closeRequested := false; sentAuth := 0;
           phase := SockConnecting |}]) ∧
  (∀ n, ∃ w',
     run_trace (failing_rounds n 0) (handshake_start cfg) = Some w' ∧
     length (sockets w') = n ∧ promise w' = Pending ∧ length (timers w') = 1) ∧
  (∀ evs w',
     run_trace evs (handshake_start cfg) = Some w' →
     (length (timers w') ≤ 1)%nat ∧
     (promise w' = Pending → pending_work w' = 1) ∧
     (promise w' ≠ Pending → timers w' = [] ∧ live_count (sockets w') = 0)).
Proof.
  split_and!.
  - intros w sid s ev Hs Hi [[-> HlC]|[-> HlE]].
    + rewrite (step_close w sid s Hs), HlC, Hi. simpl.
      by rewrite list_lookup_alter_eq, Hs.
    + rewrite (step_error w sid s Hs), HlE, Hi. simpl.
      by rewrite list_lookup_alter_eq, Hs.
  - intros w d rest Ht. rewrite (step_timer w d rest Ht). simpl.
    split_and!; try done. by rewrite fmap_app.
  - intros n.
    destruct (failing_rounds_run n (handshake_start cfg)
                (if bool_decide (connectionDelay cfg ≠ VBool false)
                 then 5000%Z else 0%Z) eq_refl eq_refl)
      as (w' & Hrun & Ht & Hp & Hlen).
    exists w'. split_and!; try done. simpl in Hlen. lia.
  - intros evs w' Hrun.
    pose proof (hs_inv_trace evs _ w' (hs_inv_start cfg) Hrun) as [_ Hc].
    unfold pending_work in *.
    destruct (promise w'); split_and!; try done; try lia.
    + intros _. split; [|lia]. destruct (timers w'); [done|simpl in Hc; lia].
    + intros _. split; [|lia]. destruct (timers w'); [done|simpl in Hc; lia].
Qed.

(** Part (d) leans on the life cycle: [onClose] removes itself from the
    close event only and stays registered for the error event.  An error
    reported by a socket that has closed already is not something a
    socket delivers; if it were, a second timer would be scheduled. *)
Lemma error_after_close_is_outside_life_cycle :
  enabled (step (EvClose 0) (step EvTimer (handshake_start example_config)))
    (EvError 0) = false ∧
  timers (step (EvError 0)
            (step (EvClose 0) (step EvTimer (handshake_start example_config))))
    = [5000%Z; 5000%Z].
Proof. split; vm_compute; reflexivity. Qed.

Lemma retry_after_close_or_error_witness :
  timers (step (EvClose 0) (step EvTimer (handshake_start example_config)))
    = [5000%Z] ∧
  (∃ w', run_trace (failing_rounds 3 0) (handshake_start example_config) = Some w' ∧
         length (sockets w') = 3 ∧ promise w' = Pending ∧ length (timers w') = 1) ∧
  (length (timers auth_phase_world) ≤ 1)%nat.
Proof.
  destruct (retry_after_close_or_error example_config) as (Ha & _ & Hc & Hd).
  split_and!.
  - refine (proj1 (Ha (step EvTimer (handshake_start example_config)) 0
      {| lOpen := true; lMessage := true; lClose := true; lError := true;
         invalidAuth := false; closeRequested := false; sentAuth := 0;
         phase := SockConnecting |} (EvClose 0) eq_refl eq_refl _)).
    left. split; reflexivity.
  - apply (Hc 3).
  - refine (proj1 (Hd [EvTimer; EvOpen 0 None; EvMessage 0 (VStr MSG_TYPE_AUTH_REQUIRED)]
                     auth_phase_world _)).
    vm_compute. reflexivity.
Defined.

Section privilege.
Implicit Types (w : World) (c : Client) (user : value).

Lemma connect_admin_check w c user :
  user ≠ VUndef → user ≠ VNull →
  connect (inr c) (inr user) w =
    if bool_decide (prop_of (wheap w) user "is_admin" = VBool false) then
      (Throw (JsError "User required to have admin privileges in Home Assistant"),
       with_this (λ t, set_client
                         (Some {| closeCalled := true;
                                  eventListeners := eventListeners c;
                                  collections := collections c;
                                  subscribe_reply := subscribe_reply c |})
                         (set_connectionState ERROR (set_client (Some c) t))) w)
    else
      (Ret true,
       {| this :=
            set_client
              (Some {| closeCalled := closeCalled c;
                       eventListeners := eventListeners c ++
                         ["ready"; "disconnected"; "reconnect-error"];
                       collections := collections c ++
                         ["entities"; "services"; "config"];
                       subscribe_reply := subscribe_reply c |})
              (set_connectionState CONNECTED
                 (set_integrationVersion (VNum 0) (set_client (Some c) (this w))));
          wheap := wheap w; network := network w; next_sub := next_sub w;
          emitted := emitted w ++
            [{| em_topic := "ha_client:open"; em_args := [];
                em_this := set_connectionState CONNECTED
                  (set_integrationVersion (VNum 0) (set_client (Some c) (this w)));
                em_heap := wheap w |};
             {| em_topic := "ha_client:connected"; em_args := [];
                em_this := set_connectionState CONNECTED
                  (set_integrationVersion (VNum 0) (set_client (Some c) (this w)));
                em_heap := wheap w |}];
          timers := timers w; sockets := sockets w; promise := promise w |}).
Proof.
  intros Hu Hn. unfold connect, read_prop, on_client, onClientOpen. mstep.
  destruct user; try done; simpl;
    case_bool_decide; simpl; try done;
    unfold add_eventListener, add_collection; simpl;
    by rewrite <- !app_assoc.
Qed.
End privilege.

(** C7.  When the handshake has succeeded and the user record that
    [getUser] returns has [is_admin] equal to [false], [connect] sets the
    connection state to ERROR, calls [close()] on the connection object
    and throws the insufficient-privilege error: afterwards [this.client]
    is the connection object that [createConnection] gave, closed, with
    nothing else about it changed.  It emits nothing, schedules no timer,
    and no timer is scheduled by anything the sockets deliver
    afterwards. *)
Theorem non_admin_user_is_rejected
    (w : World) (c : Client) (ul : loc) (uo : obj) :
  hs_inv w → createConnection_result w = Some (inr c) →
  wheap w !! ul = Some uo → uo !! "is_admin" = Some (VBool false) →
  ∃ w', connect (inr c) (inr (VRef ul)) w =
          (Throw (JsError "User required to have admin privileges in Home Assistant"),
           w') ∧
    connectionState (this w') = ERROR ∧
    closeCalled <$> client (this w') = Some true ∧
    eventListeners <$> client (this w') = Some (eventListeners c) ∧
    collections <$> client (this w') = Some (collections c) ∧
    subscribe_reply <$> client (this w') = Some (subscribe_reply c) ∧
    emitted w' = emitted w ∧
    timers w' = [] ∧
    (∀ evs w'', run_trace evs w' = Some w'' → timers w'' = []).
Proof.
  intros Hinv Hcr Hul His.
  assert (promise w ≠ Pending) as Hp.
  { unfold createConnection_result in Hcr. by destruct (promise w). }
  rewrite connect_admin_check by done.
  rewrite (prop_of_ref _ _ _ _ _ Hul His), bool_decide_true by done.
  eexists. split; [reflexivity|]. simpl. split_and!; try done.
  - by destruct (settled_stays_settled [] w w Hinv Hp eq_refl).
  - intros evs w'' Hrun.
    refine (proj1 (settled_stays_settled evs _ w'' _ _ Hrun)); [|done].
    by apply (hs_inv_frame w).
Qed.

Lemma hs_inv_auth_ok_world : hs_inv auth_ok_world.
Proof.
  apply (hs_inv_frame (step (EvMessage 0 (VStr MSG_TYPE_AUTH_OK)) auth_phase_world));
    [vm_compute; reflexivity..|].
  apply hs_inv_step; [|vm_compute; reflexivity]. apply hs_inv_auth_phase_world.
Qed.

Lemma non_admin_user_is_rejected_witness :
  ∃ w', connect (inr new_client) (inr (VRef 3%positive)) auth_ok_world =
          (Throw (JsError "User required to have admin privileges in Home Assistant"),
           w') ∧
    connectionState (this w') = ERROR ∧
    closeCalled <$> client (this w') = Some true ∧
    eventListeners <$> client (this w') = Some (eventListeners new_client) ∧
    collections <$> client (this w') = Some (collections new_client) ∧
    subscribe_reply <$> client (this w') = Some (subscribe_reply new_client) ∧
    emitted w' = emitted auth_ok_world ∧
    timers w' = [] ∧
    (∀ evs w'', run_trace evs w' = Some w'' → timers w'' = []).
Proof.
  apply (non_admin_user_is_rejected auth_ok_world new_client 3%positive
           {["is_admin" := VBool false]} hs_inv_auth_ok_world);
    vm_compute; reflexivity.
Defined.

(** C10.  For a user record (any value but [undefined] and [null])
    [connect] throws the insufficient-privilege error exactly when the
    [is_admin] property is the boolean [false].  When the property is
    absent, [undefined] or any other value, [connect] returns [true] with
    the connection state CONNECTED, after emitting [ha_client:open] and
    [ha_client:connected] and registering its listeners and collections
    on the connection object. *)
Theorem only_is_admin_false_is_rejected
    (w : World) (c : Client) (user : value) :
  user ≠ VUndef → user ≠ VNull →
  (prop_of (wheap w) user "is_admin" ≠ VBool false →
     ∃ w', connect (inr c) (inr user) w = (Ret true, w') ∧
       connectionState (this w') = CONNECTED ∧
       em_topic <$> emitted w' =
         (em_topic <$> emitted w) ++ ["ha_client:open"; "ha_client:connected"] ∧
       (eventListeners <$> client (this w')) =
         Some (eventListeners c ++ ["ready"; "disconnected"; "reconnect-error"]) ∧
       (closeCalled <$> client (this w')) = Some (closeCalled c)) ∧
  (prop_of (wheap w) user "is_admin" = VBool false →
     ∃ w', connect (inr c) (inr user) w =
             (Throw (JsError "User required to have admin privileges in Home Assistant"),
              w') ∧
       connectionState (this w') = ERROR) ∧
  (∀ ul uo, user = VRef ul → wheap w !! ul = Some uo → uo !! "is_admin" = None →
     (connect (inr c) (inr user) w).1 = Ret true).
Proof.
  intros Hu Hn. split_and!.
  - intros His. rewrite connect_admin_check, bool_decide_false by done.
    eexists. split; [reflexivity|]. simpl. split_and!; try done.
    by rewrite fmap_app.
  - intros His. rewrite connect_admin_check, bool_decide_true by done.
    eexists. split; [reflexivity|]. done.
  - intros ul uo -> Hul Habs. rewrite connect_admin_check by done.
    assert (prop_of (wheap w) (VRef ul) "is_admin" = VUndef) as ->.
    { unfold prop_of, own_props. rewrite Hul. simpl. by rewrite Habs. }
    by rewrite bool_decide_false.
Qed.

Lemma only_is_admin_false_is_rejected_witness :
  (∃ w', connect (inr new_client) (inr (VRef 4%positive)) auth_ok_world = (Ret true, w') ∧
         connectionState (this w') = CONNECTED) ∧
  (connect (inr new_client) (inr (VRef 5%positive)) auth_ok_world).1 = Ret true ∧
  (∃ w', connect (inr new_client) (inr (VRef 3%positive)) auth_ok_world =
           (Throw (JsError "User required to have admin privileges in Home Assistant"),
            w') ∧
         connectionState (this w') = ERROR).
Proof.
  split_and!.
  - destruct (only_is_admin_false_is_rejected auth_ok_world new_client (VRef 4%positive))
      as (Hok & _ & _); [done..|].
    destruct Hok as (w' & Hrun & Hst & _).
    + vm_compute. discriminate.
    + by exists w'.
  - destruct (only_is_admin_false_is_rejected auth_ok_world new_client (VRef 5%positive))
      as (_ & _ & Habs); [done..|].
    apply (Habs 5%positive {["name" := VStr "guest"]}); vm_compute; reflexivity.
  - destruct (only_is_admin_false_is_rejected auth_ok_world new_client (VRef 3%positive))
      as (_ & Hrej & _); [done..|].
    apply Hrej. vm_compute. reflexivity.
Defined.

(** A successful [connect] on an object that has no subscription yet
    leaves the multiplexer with a connection and a matching registry
    (empty): the state from which sequences of [subscribeEvents] calls
    start. *)
Lemma mux_inv_after_connect (w w' : World) (c : Client) (user : value) :
  subscribedEvents (this w) = [] → unsubCallback (this w) = ∅ →
  user ≠ VUndef → user ≠ VNull →
  connect (inr c) (inr user) w = (Ret true, w') → mux_inv w'.
Proof.
  intros Hsub Hreg Hu Hn. rewrite connect_admin_check by done.
  destruct (bool_decide (prop_of (wheap w) user "is_admin" = VBool false));
    [discriminate|].
  intros Heq. apply (f_equal snd) in Heq. cbn [snd] in Heq. subst w'.
  unfold mux_inv. cbn [this client subscribedEvents unsubCallback
    set_client set_connectionState set_integrationVersion].
  rewrite Hsub, Hreg. split_and!.
  - eauto.
  - apply NoDup_nil_2.
  - intros e. rewrite lookup_empty, elem_of_nil.
    split; [done|]. by intros [? ?].
Qed.

(** * Further properties *)

(** ** Subscription multiplexer *)

(** X1.  On a multiplexer with a connection, a matching registry and the
    wildcard active only alone, to a hub that acknowledges every subscribe
    request: after any sequence of calls, each awaited before the next,
    the active set is decided by the last call: the wildcard alone if that
    call asked for it, otherwise exactly the requested types together with
    [state_changed] and [nodered].  The wildcard is never active next to a
    concrete type.  (Calls that are not awaited can leave it there.) *)
Theorem active_set_follows_last_call
    (w : World) (calls : list (list string)) (events : list string) :
  mux_inv w → wildcard_alone w → always_acknowledged w →
  ∃ w', subscribeEvents events (run_calls calls w) = (Ret tt, w') ∧
    (ALL ∈ events → subscribedEvents (this w') = [ALL]) ∧
    (ALL ∉ events → subscribedEvents (this w') ≡ₚ desired events) ∧
    wildcard_alone w'.
Proof.
  intros Hinv Hw Hack.
  destruct (mux_inv_run_calls calls w Hinv Hack) as [Hb Hackb].
  pose proof (wildcard_alone_run_calls calls w Hinv Hack Hw) as Hwb.
  pose proof (wildcard_alone_subscribeEvents events _ Hb (Hackb _) Hwb) as Hwa.
  set (wb := run_calls calls w) in *.
  destruct (decide (ALL ∈ events)) as [Hall|Hall].
  - destruct (decide (ALL ∈ subscribedEvents (this wb))) as [Hact|Hact].
    + exists wb. rewrite subscribeEvents_wildcard_active in * by done.
      split_and!; try done. intros _. by apply Hwb.
    + eexists. rewrite subscribeEvents_wildcard in * by done.
      split_and!; done.
  - eexists. rewrite subscribeEvents_diff in * by done.
    split_and!; try done. intros _. simpl.
    apply (filter_app_complement (λ x, x ∈ subscribedEvents (this wb))).
Qed.

Lemma active_set_follows_last_call_witness :
  ∃ w', subscribeEvents ["lights_on"]
          (run_calls [["a"]; wildcard_request] (connected_world example_config))
          = (Ret tt, w') ∧
    (ALL ∈ ["lights_on"] → subscribedEvents (this w') = [ALL]) ∧
    (ALL ∉ ["lights_on"] → subscribedEvents (this w') ≡ₚ desired ["lights_on"]) ∧
    wildcard_alone w'.
Proof.
  apply (active_set_follows_last_call (connected_world example_config)).
  - apply mux_inv_connected.
  - apply wildcard_alone_connected.
  - apply always_acknowledged_connected.
Defined.

Section discipline.
Implicit Types (reg : gmap string nat) (m : gmap nat (option string))
  (n id : nat) (e : string) (l : list string) (w : World).

Lemma open_subscriptions_app net1 net2 :
  open_subscriptions (net1 ++ net2) =
    foldl open_step (open_subscriptions net1) net2.
Proof. unfold open_subscriptions. by rewrite foldl_app. Qed.

Lemma tracks_unsubscribe reg m n e id :
  tracks reg m n → reg !! e = Some id →
  open_step (Some m) (NetUnsubscribe id) = Some (delete id m) ∧
  tracks (delete e reg) (delete id m) n.
Proof.
  intros (H1 & H2 & H3 & H4) He. split.
  - simpl. by rewrite (H1 _ _ He).
  - split_and!.
    + intros e' id' He'. apply lookup_delete_Some in He' as [Hne He'].
      rewrite lookup_delete_ne; [by apply H1|].
      intros <-. apply Hne. by apply (H3 e e' id).
    + intros id' ty Hid'. apply lookup_delete_Some in Hid' as [Hne Hid'].
      destruct (H2 _ _ Hid') as (e' & He' & Hty). exists e'. split; [|done].
      rewrite lookup_delete_ne; [done|]. intros <-. congruence.
    + intros e1 e2 id' [_ He1]%lookup_delete_Some [_ He2]%lookup_delete_Some.
      by apply (H3 e1 e2 id').
    + intros id' [ty Hid']. apply lookup_delete_Some in Hid' as [_ Hid'].
      apply H4. eauto.
Qed.

Lemma tracks_subscribe reg m n e :
  tracks reg m n → reg !! e = None →
  open_step (Some m) (NetSubscribe (wire_type e) n) = Some (<[n := wire_type e]> m) ∧
  tracks (<[e := n]> reg) (<[n := wire_type e]> m) (S n).
Proof.
  intros (H1 & H2 & H3 & H4) He.
  assert (m !! n = None) as Hn.
  { apply eq_None_not_Some. intros Hs. apply H4 in Hs. lia. }
  assert (∀ e' , reg !! e' ≠ Some n) as Hfresh.
  { intros e' He'. apply H1 in He'. congruence. }
  split.
  - simpl. by rewrite Hn.
  - split_and!.
    + intros e' id' He'. apply lookup_insert_Some in He' as [[<- <-]|[Hne He']].
      * by rewrite lookup_insert_eq.
      * rewrite lookup_insert_ne; [by apply H1|]. intros <-. by apply (Hfresh e').
    + intros id' ty Hid'. apply lookup_insert_Some in Hid' as [[<- <-]|[Hne Hid']].
      * exists e. by rewrite lookup_insert_eq.
      * destruct (H2 _ _ Hid') as (e' & He' & Hty). exists e'. split; [|done].
        rewrite lookup_insert_ne; [done|]. intros <-. congruence.
    + intros e1 e2 id' He1 He2.
      apply lookup_insert_Some in He1 as [[<- <-]|[Hne1 He1]];
        apply lookup_insert_Some in He2 as [[<- Heq]|[Hne2 He2]]; try done.
      * by destruct (Hfresh _ He2).
      * subst id'. by destruct (Hfresh _ He1).
      * by apply (H3 e1 e2 id').
    + intros id' [ty Hid']. apply lookup_insert_Some in Hid' as [[<- _]|[_ Hid']].
      * lia.
      * assert (id' < n) by (apply H4; eauto). lia.
Qed.

(** The unsubscribe loop closes the subscriptions of the removed keys. *)
Lemma tracks_unsub_ops reg m n l :
  tracks reg m n → NoDup l → (∀ e, e ∈ l → is_Some (reg !! e)) →
  ∃ m', foldl open_step (Some m) (unsub_ops reg l) = Some m' ∧
        tracks (delete_all l reg) m' n.
Proof.
  revert reg m. induction l as [|e l IH]; intros reg m Ht Hnd Hl.
  - by exists m.
  - apply NoDup_cons in Hnd as [Hni Hnd].
    destruct (Hl e) as [id Hid]; [by left|].
    destruct (tracks_unsubscribe _ _ _ _ _ Ht Hid) as [Hstep Ht'].
    destruct (IH (delete e reg) (delete id m) Ht' Hnd) as (m' & Hfold & Ht'').
    { intros e' He'. rewrite lookup_delete_ne; [apply Hl; by right|].
      by intros ->. }
    exists m'. split; [|done].
    rewrite (unsub_ops_delete reg e l Hni) in Hfold.
    assert (unsub_ops reg (e :: l) = NetUnsubscribe id :: unsub_ops reg l) as ->.
    { unfold unsub_ops. cbn [omap list_omap]. by rewrite Hid. }
    cbn [foldl]. by rewrite Hstep.
Qed.

(** The subscribe loop opens one subscription per added key. *)
Lemma tracks_sub_ops reg m n l :
  tracks reg m n → NoDup l → ALL ∉ l → (∀ e, e ∈ l → reg !! e = None) →
  ∃ m', foldl open_step (Some m) (sub_ops l n) = Some m' ∧
        tracks (sub_map l n reg) m' (n + length l).
Proof.
  revert reg m n. induction l as [|e l IH]; intros reg m n Ht Hnd Hall Hl.
  - exists m. simpl. by rewrite Nat.add_0_r.
  - apply NoDup_cons in Hnd as [Hni Hnd].
    apply not_elem_of_cons in Hall as [Hne Hall].
    destruct (tracks_subscribe reg m n e Ht) as [Hstep Ht']; [apply Hl; by left|].
    assert (wire_type e = Some e) as Hwt.
    { unfold wire_type. rewrite bool_decide_false; [done|]. by intros ->. }
    rewrite Hwt in Hstep, Ht'.
    destruct (IH (<[e := n]> reg) (<[n := Some e]> m) (S n) Ht' Hnd Hall)
      as (m' & Hfold & Ht'').
    { intros e' He'. rewrite lookup_insert_ne; [apply Hl; by right|].
      by intros ->. }
    exists m'. split.
    + cbn [sub_ops foldl]. by rewrite Hstep.
    + cbn [sub_map length]. by rewrite Nat.add_succ_r.
Qed.
End discipline.

Section discipline_calls.
Implicit Types (w : World) (events : list string).

Lemma delete_all_active w :
  mux_inv w →
  delete_all (subscribedEvents (this w)) (unsubCallback (this w)) = ∅.
Proof.
  intros (_ & _ & Hreg). apply map_eq. intros e.
  rewrite lookup_delete_all, lookup_empty.
  destruct (decide (e ∈ subscribedEvents (this w))) as [|Hni]; [done|].
  apply eq_None_not_Some. by rewrite <- Hreg.
Qed.

Lemma mux_tracked_subscribeEvents events w :
  mux_inv w → acknowledged w (length (to_subscribe events w)) →
  mux_tracked w → mux_tracked (subscribeEvents events w).2.
Proof.
  intros Hinv Hack (m & Hopen & Ht). pose proof Hinv as (Hc & Hnd & Hreg).
  destruct (decide (ALL ∈ events)) as [Hall|Hall].
  - destruct (decide (ALL ∈ subscribedEvents (this w))) as [Hact|Hact].
    + rewrite subscribeEvents_wildcard_active by done. by exists m.
    + rewrite subscribeEvents_wildcard by done. unfold mux_tracked. simpl.
      destruct (tracks_unsub_ops _ _ _ (subscribedEvents (this w)) Ht Hnd)
        as (m1 & Hfold & Ht1); [by intros e; apply Hreg|].
      rewrite delete_all_active in Ht1 by done.
      destruct (tracks_subscribe ∅ m1 (next_sub w) ALL Ht1 (lookup_empty _))
        as [Hstep Ht2].
      exists (<[next_sub w := wire_type ALL]> m1). split.
      * rewrite open_subscriptions_app, Hopen, foldl_app, Hfold.
        exact Hstep.
      * by rewrite insert_empty in Ht2.
  - rewrite subscribeEvents_diff by done. unfold mux_tracked. simpl.
    set (act := subscribedEvents (this w)).
    set (cur := desired events).
    destruct (tracks_unsub_ops _ _ _ (filter (λ x, x ∉ cur) act) Ht)
      as (m1 & Hfold & Ht1).
    { by apply NoDup_filter. }
    { intros e [_ He]%list_elem_of_filter. by apply Hreg. }
    destruct (tracks_sub_ops _ _ _ (filter (λ x, x ∉ act) cur) Ht1)
      as (m2 & Hfold2 & Ht2).
    { apply NoDup_filter, NoDup_desired. }
    { intros [_ Hin]%list_elem_of_filter. by apply Hall, ALL_desired. }
    { intros e [Hni _]%list_elem_of_filter. rewrite lookup_delete_all.
      destruct (decide (e ∈ filter (λ x, x ∉ cur) act)); [done|].
      apply eq_None_not_Some. by rewrite <- Hreg. }
    exists m2. split; [|done].
    by rewrite open_subscriptions_app, Hopen, foldl_app, Hfold.
Qed.

Lemma mux_tracked_run_calls calls w :
  mux_inv w → always_acknowledged w → mux_tracked w →
  mux_tracked (run_calls calls w).
Proof.
  revert w. induction calls as [|events calls IH]; intros w Hinv Hack Ht; [done|].
  simpl. apply IH.
  - by apply mux_inv_subscribeEvents.
  - by apply always_acknowledged_subscribeEvents.
  - by apply mux_tracked_subscribeEvents.
Qed.

Lemma mux_tracked_connected cfg : mux_tracked (connected_world cfg).
Proof.
  exists ∅. split; [done|]. unfold tracks. simpl. split_and!.
  - intros e id He. by rewrite lookup_empty in He.
  - intros id ty Hid. by rewrite lookup_empty in Hid.
  - intros e1 e2 id He. by rewrite lookup_empty in He.
  - intros id [ty Hid]. by rewrite lookup_empty in Hid.
Qed.
End discipline_calls.

(** X2.  On a multiplexer whose registry holds the unsubscribe functions
    of exactly the subscriptions left open by the requests sent so far, to
    a hub that acknowledges every subscribe request, this stays so after
    any sequence of calls, each awaited before the next: no call
    unsubscribes an id that is not open (nothing is released twice), no
    call subscribes under an id in use, and the subscriptions open on the
    server are, one for one, those of the active event types (the wildcard
    being the subscription without a type).  (It does not stay so when a
    subscribe request is refused or when calls overlap.) *)
Theorem open_subscriptions_match_registry
    (w : World) (calls : list (list string)) :
  mux_inv w → mux_tracked w → always_acknowledged w →
  ∃ m, open_subscriptions (network (run_calls calls w)) = Some m ∧
    (∀ e, e ∈ subscribedEvents (this (run_calls calls w)) →
       ∃ id, unsubCallback (this (run_calls calls w)) !! e = Some id ∧
             m !! id = Some (wire_type e)) ∧
    (∀ id ty, m !! id = Some ty →
       ∃ e, e ∈ subscribedEvents (this (run_calls calls w)) ∧
            unsubCallback (this (run_calls calls w)) !! e = Some id ∧
            wire_type e = ty) ∧
    (∀ e1 e2 id,
       unsubCallback (this (run_calls calls w)) !! e1 = Some id →
       unsubCallback (this (run_calls calls w)) !! e2 = Some id → e1 = e2).
Proof.
  intros Hinv Ht Hack.
  destruct (mux_tracked_run_calls calls w Hinv Hack Ht)
    as (m & Hopen & H1 & H2 & H3 & _).
  destruct (mux_inv_run_calls calls w Hinv Hack) as [(_ & _ & Hreg) _].
  exists m. split_and!; try done.
  - intros e [id Hid]%Hreg. exists id. split; [done|]. by apply H1.
  - intros id ty Hid. destruct (H2 _ _ Hid) as (e & He & Hty).
    exists e. split_and!; try done. apply Hreg. eauto.
Qed.

Lemma open_subscriptions_match_registry_witness :
  ∃ m, open_subscriptions
         (network (run_calls [["a"]; wildcard_request; ["lights_on"]]
                     (connected_world example_config))) = Some m ∧
       size m = 3.
Proof.
  destruct (open_subscriptions_match_registry (connected_world example_config)
              [["a"]; wildcard_request; ["lights_on"]]
              (mux_inv_connected _) (mux_tracked_connected _)
              (always_acknowledged_connected _))
    as (m & Hopen & _).
  exists m. split; [exact Hopen|].
  assert (Some (size m) = Some 3) as [= ->]; [|done].
  change (size <$> Some m = Some 3). rewrite <- Hopen. vm_compute. reflexivity.
Defined.

Section before_connect.
Implicit Types (w : World) (events : list string).

Lemma forEach_add_no_client w x (r : list string) :
  client (this w) = None →
  forEach (x :: r)
    (λ type, cb ← client_subscribeEvents (Some type); store_unsub type cb) w =
    (Throw TypeError, w).
Proof.
  intros Hc. cbn [forEach]. unfold client_subscribeEvents, mbind, M_bind, send_subscribe.
  by rewrite Hc.
Qed.

Lemma desired_nonempty events : desired events ≠ [].
Proof.
  intros Heq. assert ("nodered" ∈ desired events) as Hin.
  { apply elem_of_desired. by left. }
  rewrite Heq in Hin. by apply elem_of_nil in Hin.
Qed.

(** The branch without the wildcard when nothing is active. *)
Lemma subscribeEvents_diff_unfold events w :
  ALL ∉ events → subscribedEvents (this w) = [] →
  subscribeEvents events w =
    forEach (desired events)
      (λ type, cb ← client_subscribeEvents (Some type); store_unsub type cb)
      (with_this (set_subscribedEvents (desired events)) w).
Proof.
  intros Hall Hsub. unfold subscribeEvents.
  assert (set_has ALL (new_Set events) = false) as ->.
  { apply set_has_false. by rewrite elem_of_new_Set. }
  fold (desired events). mstep. rewrite Hsub.
  assert (filter (λ x, x ∉ []) (desired events) = desired events) as ->.
  { apply filter_all. intros. apply not_elem_of_nil. }
  assert (filter (λ x : string, x ∈ []) (desired events) = []) as ->.
  { apply filter_none. intros y _ Hy. by apply elem_of_nil in Hy. }
  rewrite (new_Set_NoDup (desired events)) by apply NoDup_desired.
  simpl. rewrite (new_Set_NoDup (desired events)) by apply NoDup_desired.
  done.
Qed.
End before_connect.

(** X3.  Before [connect] has set [this.client], on an object without
    subscriptions: a call that asks for the wildcard throws a TypeError
    and changes nothing.  A call without the wildcard throws a TypeError
    too, but only after it has recorded the desired set as active, with
    no request sent and the registry still empty; the same call repeated
    once a connection is there returns normally and sends nothing, so the
    event types stay recorded as active without being subscribed. *)
Theorem subscribeEvents_before_connect
    (w : World) (events : list string) (c : Client) :
  client (this w) = None →
  subscribedEvents (this w) = [] → unsubCallback (this w) = ∅ →
  (ALL ∈ events → subscribeEvents events w = (Throw TypeError, w)) ∧
  (ALL ∉ events →
     ∃ w1, subscribeEvents events w = (Throw TypeError, w1) ∧
       subscribedEvents (this w1) = desired events ∧
       unsubCallback (this w1) = ∅ ∧
       network w1 = network w ∧
       ∃ w2, subscribeEvents events (with_this (set_client (Some c)) w1)
               = (Ret tt, w2) ∧
         network w2 = network w ∧
         unsubCallback (this w2) = ∅ ∧
         subscribedEvents (this w2) = desired events).
Proof.
  intros Hc Hsub Hreg. split.
  - intros Hall. unfold subscribeEvents.
    assert (set_has ALL (new_Set events) = true) as ->.
    { apply set_has_true. by rewrite elem_of_new_Set. }
    unfold mbind, M_bind, get_this. rewrite Hsub. simpl.
    unfold client_subscribeEvents, mbind, M_bind, send_subscribe. by rewrite Hc.
  - intros Hall. rewrite subscribeEvents_diff_unfold by done.
    pose proof (desired_nonempty events) as Hne.
    pose proof (NoDup_desired events) as Hnd.
    destruct (desired events) as [|x r] eqn:Hd; [done|].
    rewrite forEach_add_no_client by done.
    eexists. split; [reflexivity|]. simpl. split_and!; try done.
    unfold subscribeEvents.
    assert (set_has ALL (new_Set events) = false) as ->.
    { apply set_has_false. by rewrite elem_of_new_Set. }
    fold (desired events). rewrite Hd. mstep.
    assert (filter (λ y, y ∉ x :: r) (x :: r) = []) as ->
      by apply filter_not_elem_self.
    assert (filter (λ y, y ∈ x :: r) (x :: r) = x :: r) as ->
      by (by apply filter_all).
    simpl. rewrite app_nil_r, (new_Set_NoDup (x :: r)) by done.
    eexists. split; [reflexivity|]. simpl. by rewrite ?app_nil_r.
Qed.

Lemma subscribeEvents_before_connect_witness :
  subscribeEvents wildcard_request (constructor example_config)
    = (Throw TypeError, constructor example_config) ∧
  ∃ w1, subscribeEvents ["lights_on"] (constructor example_config)
          = (Throw TypeError, w1) ∧
    subscribedEvents (this w1) = desired ["lights_on"] ∧
    ∃ w2, subscribeEvents ["lights_on"]
            (with_this (set_client (Some new_client)) w1) = (Ret tt, w2) ∧
      network w2 = [].
Proof.
  destruct (subscribeEvents_before_connect (constructor example_config)
              wildcard_request new_client eq_refl eq_refl eq_refl) as [Ha _].
  destruct (subscribeEvents_before_connect (constructor example_config)
              ["lights_on"] new_client eq_refl eq_refl eq_refl) as [_ Hb].
  split.
  - apply Ha. apply list_elem_of_In. simpl. auto.
  - destruct Hb as (w1 & Hrun & Hact & _ & _ & w2 & Hrun2 & Hnet & _).
    + rewrite list_elem_of_singleton. discriminate.
    + exists w1. split_and!; try done. by exists w2.
Defined.

(** ** Entity snapshot cache *)

Section bulk_sequences.
Implicit Types (w : World) (msg : value) (msgs : list value).

Lemma nonempty_payload_false h msg :
  nonempty_payload h msg = false ↔ empty_payload h msg.
Proof.
  unfold nonempty_payload, empty_payload. destruct (truthy msg); simpl.
  - rewrite negb_false_iff, Nat.eqb_eq. naive_solver.
  - naive_solver.
Qed.

Lemma nonempty_payload_true h msg :
  nonempty_payload h msg = true ↔ truthy msg = true ∧ keys_length h msg ≠ 0.
Proof.
  unfold nonempty_payload. rewrite andb_true_iff, negb_true_iff, Nat.eqb_neq.
  done.
Qed.

Lemma default_last_cons {A} (a x : A) (l : list A) :
  default a (last (x :: l)) = default x (last l).
Proof. rewrite last_cons. by destruct (last l). Qed.

Lemma apply_states_spec msgs w :
  wheap (apply_states msgs w) = wheap w ∧
  states (this (apply_states msgs w)) =
    default (states (this w)) (last (filter (λ m, nonempty_payload (wheap w) m) msgs)) ∧
  statesLoaded (this (apply_states msgs w)) =
    statesLoaded (this w) ||
    negb (bool_decide (filter (λ m, nonempty_payload (wheap w) m) msgs = [])) ∧
  ∃ new, emitted (apply_states msgs w) = emitted w ++ new ∧
    em_call <$> new =
      if statesLoaded (this w) then []
      else match filter (λ m, nonempty_payload (wheap w) m) msgs with
           | [] => []
           | m :: _ => [("ha_client:states_loaded", [m])]
           end.
Proof.
  revert w. induction msgs as [|msg msgs IH]; intros w.
  - simpl. split_and!; try done.
    + by rewrite orb_false_r.
    + exists []. rewrite app_nil_r. by destruct (statesLoaded (this w)).
  - cbn [apply_states foldl]. fold (apply_states msgs (onClientStates msg w).2).
    destruct (nonempty_payload (wheap w) msg) eqn:Hne.
    + apply nonempty_payload_true in Hne as Hne'. destruct Hne' as [Ht Hk].
      destruct (onClientStates_nonempty w msg Ht Hk)
        as (w1 & Hrun & Hs & Hl & Hh & Hem).
      rewrite Hrun. cbn [snd].
      destruct (IH w1) as (IHh & IHs & IHl & new & IHem & IHnew).
      rewrite Hh in *.
      rewrite (filter_cons_True (λ m, nonempty_payload (wheap w) m) msg msgs)
        by (by apply Is_true_true).
      split_and!.
      * done.
      * by rewrite IHs, Hs, default_last_cons.
      * rewrite IHl, Hl. simpl. by rewrite orb_true_r.
      * rewrite Hl in IHnew. apply fmap_nil_inv in IHnew. subst new.
        rewrite app_nil_r in IHem. rewrite IHem, Hem.
        eexists. split; [reflexivity|]. by destruct (statesLoaded (this w)).
    + apply nonempty_payload_false in Hne as He.
      rewrite (onClientStates_empty w msg He). cbn [snd].
      rewrite (filter_cons_False (λ m, nonempty_payload (wheap w) m) msg msgs)
        by (by apply Is_true_false).
      apply IH.
Qed.

Lemma apply_services_spec msgs w :
  wheap (apply_services msgs w) = wheap w ∧
  services (this (apply_services msgs w)) =
    default (services (this w)) (last (filter (λ m, nonempty_payload (wheap w) m) msgs)) ∧
  servicesLoaded (this (apply_services msgs w)) =
    servicesLoaded (this w) ||
    negb (bool_decide (filter (λ m, nonempty_payload (wheap w) m) msgs = [])) ∧
  ∃ new, emitted (apply_services msgs w) = emitted w ++ new ∧
    em_call <$> new =
      if servicesLoaded (this w) then []
      else match filter (λ m, nonempty_payload (wheap w) m) msgs with
           | [] => []
           | m :: _ => [("ha_client:services_loaded", [m])]
           end.
Proof.
  revert w. induction msgs as [|msg msgs IH]; intros w.
  - simpl. split_and!; try done.
    + by rewrite orb_false_r.
    + exists []. rewrite app_nil_r. by destruct (servicesLoaded (this w)).
  - cbn [apply_services foldl]. fold (apply_services msgs (onClientServices msg w).2).
    destruct (nonempty_payload (wheap w) msg) eqn:Hne.
    + apply nonempty_payload_true in Hne as Hne'. destruct Hne' as [Ht Hk].
      destruct (onClientServices_nonempty w msg Ht Hk)
        as (w1 & Hrun & Hs & Hl & Hh & Hem).
      rewrite Hrun. cbn [snd].
      destruct (IH w1) as (IHh & IHs & IHl & new & IHem & IHnew).
      rewrite Hh in *.
      rewrite (filter_cons_True (λ m, nonempty_payload (wheap w) m) msg msgs)
        by (by apply Is_true_true).
      split_and!.
      * done.
      * by rewrite IHs, Hs, default_last_cons.
      * rewrite IHl, Hl. simpl. by rewrite orb_true_r.
      * rewrite Hl in IHnew. apply fmap_nil_inv in IHnew. subst new.
        rewrite app_nil_r in IHem. rewrite IHem, Hem.
        eexists. split; [reflexivity|]. by destruct (servicesLoaded (this w)).
    + apply nonempty_payload_false in Hne as He.
      rewrite (onClientServices_empty w msg He). cbn [snd].
      rewrite (filter_cons_False (λ m, nonempty_payload (wheap w) m) msg msgs)
        by (by apply Is_true_false).
      apply IH.
Qed.
End bulk_sequences.

(** X4.  For any sequence of bulk payloads handed to [onClientStates]:
    the store ends up holding the last payload that is not empty (the one
    it held, if all are empty); the [ha_client:states_loaded] notification
    is emitted at most once, namely for the first non-empty payload and
    only if the loaded flag was not set before; no other notification is
    emitted and the heap is not touched.  [onClientServices] behaves the
    same way with its store, flag and [ha_client:services_loaded]. *)
Theorem bulk_payloads_load_once (w : World) (msgs : list value) :
  (wheap (apply_states msgs w) = wheap w ∧
   states (this (apply_states msgs w)) =
     default (states (this w))
       (last (filter (λ m, nonempty_payload (wheap w) m) msgs)) ∧
   ∃ new, emitted (apply_states msgs w) = emitted w ++ new ∧
     em_call <$> new =
       if statesLoaded (this w) then []
       else match filter (λ m, nonempty_payload (wheap w) m) msgs with
            | [] => []
            | m :: _ => [("ha_client:states_loaded", [m])]
            end) ∧
  (wheap (apply_services msgs w) = wheap w ∧
   services (this (apply_services msgs w)) =
     default (services (this w))
       (last (filter (λ m, nonempty_payload (wheap w) m) msgs)) ∧
   ∃ new, emitted (apply_services msgs w) = emitted w ++ new ∧
     em_call <$> new =
       if servicesLoaded (this w) then []
       else match filter (λ m, nonempty_payload (wheap w) m) msgs with
            | [] => []
            | m :: _ => [("ha_client:services_loaded", [m])]
            end).
Proof.
  split.
  - destruct (apply_states_spec msgs w) as (? & ? & _ & ?). done.
  - destruct (apply_services_spec msgs w) as (? & ? & _ & ?). done.
Qed.

(** X5.  With the cache holding an object: [getStates(id)] for a truthy
    id that is not the name of a member of [Object.prototype] and whose
    entry is missing, or is a falsy value, returns [null] and changes
    nothing (no object is allocated); and a falsy id (undefined, the empty
    string, 0) is not looked up at all: the call returns a copy of the
    whole mapping, as [getStates()] does. *)
Theorem getStates_unknown_entity
    (w : World) (sl : loc) (so : obj) (id forceRefresh : value) :
  states (this w) = VRef sl → wheap w !! sl = Some so →
  (truthy id = true → to_key id ∉ Object_prototype_members →
   so !! to_key id = None →
     getStates id forceRefresh w = (Ret VNull, w)) ∧
  (truthy id = true → to_key id ∉ Object_prototype_members →
   truthy (default VUndef (so !! to_key id)) = false →
     getStates id forceRefresh w = (Ret VNull, w)) ∧
  (truthy id = false →
     getStates id forceRefresh w = getStates VUndef forceRefresh w ∧
     ∃ r w', getStates id forceRefresh w = (Ret (VRef r), w') ∧
             wheap w !! r = None ∧ wheap w' !! r = Some so).
Proof.
  intros Hs Hsl.
  assert (∀ k, prop_of (wheap w) (VRef sl) k = default VUndef (so !! k)) as Hp.
  { intros k. unfold prop_of, own_props. rewrite Hsl. simpl.
    by destruct (so !! k). }
  split_and!.
  - intros Hid _ Hk. unfold getStates. mstep. rewrite Hs. simpl.
    by rewrite Hid, Hp, Hk.
  - intros Hid _ Hk. unfold getStates. mstep. rewrite Hs. simpl.
    by rewrite Hid, Hp, Hk.
  - intros Hid. unfold getStates. mstep. rewrite Hs. simpl. rewrite Hid.
    split; [done|]. unfold spread, alloc. mstep.
    eexists _, _. split; [reflexivity|]. split.
    + apply fresh_loc_unused.
    + simpl. rewrite lookup_insert_eq. unfold own_props. by rewrite Hsl.
Qed.

Lemma getStates_unknown_entity_witness :
  getStates (VStr "light.attic") VUndef cache_world = (Ret VNull, cache_world) ∧
  getStates (VStr "") VUndef cache_world = getStates VUndef VUndef cache_world.
Proof.
  destruct (getStates_unknown_entity cache_world 3%positive {["light.kitchen" := VRef 4%positive]}
              (VStr "light.attic") VUndef) as (Ha & _ & _);
    [vm_compute; reflexivity..|].
  destruct (getStates_unknown_entity cache_world 3%positive {["light.kitchen" := VRef 4%positive]}
              (VStr "") VUndef) as (_ & _ & Hc);
    [vm_compute; reflexivity..|].
  split.
  - apply Ha; [vm_compute; reflexivity| |vm_compute; reflexivity].
    apply (bool_decide_unpack _). vm_compute. exact I.
  - apply Hc. reflexivity.
Defined.
(** ** Event dispatcher *)

Section frames.
Implicit Types (w : World) (msg data : value).

Lemma read_prop_truthy msg k w :
  truthy msg = true → read_prop msg k w = (Ret (prop_of (wheap w) msg k), w).
Proof. intros Ht. by destruct msg. Qed.

(** The early return of the dispatcher. *)
Lemma onClientEvents_early_return w msg :
  negb (truthy msg) || negb (truthy (prop_of (wheap w) msg "data"))
    || bool_decide (prop_of (wheap w) msg "data" = VStr "ping") = true →
  onClientEvents msg w = (Ret tt, w).
Proof.
  intros Hd. unfold onClientEvents.
  destruct (truthy msg) eqn:Hm; [|done]. simpl in *. mstep.
  rewrite read_prop_truthy by done. by rewrite Hd.
Qed.

(** The branch of the dispatcher for the integration's own events. *)
Lemma onClientEvents_integration w msg data :
  truthy msg = true →
  prop_of (wheap w) msg "data" = data →
  truthy data = true → data ≠ VStr "ping" →
  prop_of (wheap w) msg "event_type" = VStr "nodered" →
  let t' := set_integrationVersion
      (if bool_decide (prop_of (wheap w) data "type" = VStr "loaded")
       then prop_of (wheap w) data "version"
       else if bool_decide (prop_of (wheap w) data "type" = VStr "unloaded")
       then VNum 0
       else integrationVersion (this w)) (this w) in
  onClientEvents msg w =
    (Ret tt,
     {| this := t'; wheap := wheap w; network := network w;
        next_sub := next_sub w;
        emitted := emitted w ++
          [{| em_topic := "integration";
              em_args := [prop_of (wheap w) data "type"];
              em_this := t'; em_heap := wheap w |}];
        timers := timers w; sockets := sockets w; promise := promise w |}).
Proof.
  intros Hm Hdata Ht Hping Hty. unfold onClientEvents. rewrite Hm. simpl. mstep.
  rewrite !read_prop_truthy by done. rewrite Hdata, Ht. simpl.
  rewrite (bool_decide_false _ Hping). rewrite !read_prop_truthy by done.
  simpl. rewrite Hty. simpl. rewrite !read_prop_truthy by done. simpl.
  repeat case_bool_decide; simpl.
  - rewrite read_prop_truthy by done. done.
  - done.
  - unfold emit, with_this. simpl. by destruct w as [[] ? ? ? ? ? ? ?].
Qed.
End frames.

(** X6.  A frame that is missing, has no payload or whose payload is the
    string [ping] is dropped: [onClientEvents] returns normally and the
    world is as before, nothing emitted, nothing stored. *)
Theorem onClientEvents_drops (w : World) (msg : value) :
  dropped_frame (wheap w) msg → onClientEvents msg w = (Ret tt, w).
Proof.
  intros Hd. apply onClientEvents_early_return.
  destruct Hd as [Hd|[Hd|Hd]]; rewrite Hd; simpl.
  - done.
  - by rewrite orb_true_r.
  - apply orb_true_r.
Qed.

Lemma onClientEvents_drops_witness :
  onClientEvents VUndef frame_world = (Ret tt, frame_world) ∧
  onClientEvents (VRef 8%positive) frame_world = (Ret tt, frame_world).
Proof.
  split; apply onClientEvents_drops.
  - by left.
  - right. left. vm_compute. reflexivity.
Defined.

(** X7.  A frame of type [nodered] with a payload is intercepted: exactly
    one notification is emitted, [integration] with the payload's [type];
    nothing is published on an [ha_events] topic, the heap (and with it
    the cache) is not touched, and of [this] only the integration version
    can change: to the payload's [version] for type [loaded], to 0 for
    [unloaded], not at all otherwise. *)
Theorem onClientEvents_nodered (w : World) (msg data : value) :
  truthy msg = true →
  prop_of (wheap w) msg "data" = data →
  truthy data = true → data ≠ VStr "ping" →
  prop_of (wheap w) msg "event_type" = VStr "nodered" →
  ∃ w' e, onClientEvents msg w = (Ret tt, w') ∧
    wheap w' = wheap w ∧
    emitted w' = emitted w ++ [e] ∧
    em_call e = ("integration", [prop_of (wheap w) data "type"]) ∧
    this w' = set_integrationVersion
      (if bool_decide (prop_of (wheap w) data "type" = VStr "loaded")
       then prop_of (wheap w) data "version"
       else if bool_decide (prop_of (wheap w) data "type" = VStr "unloaded")
       then VNum 0
       else integrationVersion (this w)) (this w).
Proof.
  intros Hm Hdata Ht Hping Hty.
  rewrite (onClientEvents_integration w msg data) by done.
  eexists _, _. split; [reflexivity|]. done.
Qed.

Lemma onClientEvents_nodered_witness :
  ∃ w' e, onClientEvents (VRef 9%positive) nodered_world = (Ret tt, w') ∧
    wheap w' = wheap nodered_world ∧
    emitted w' = emitted nodered_world ++ [e] ∧
    em_call e =
      ("integration", [prop_of (wheap nodered_world) (VRef 10%positive) "type"]) ∧
    this w' = set_integrationVersion
      (if bool_decide (prop_of (wheap nodered_world) (VRef 10%positive) "type"
                       = VStr "loaded")
       then prop_of (wheap nodered_world) (VRef 10%positive) "version"
       else if bool_decide (prop_of (wheap nodered_world) (VRef 10%positive) "type"
                            = VStr "unloaded")
       then VNum 0
       else integrationVersion (this nodered_world)) (this nodered_world).
Proof.
  apply (onClientEvents_nodered nodered_world (VRef 9%positive) (VRef 10%positive)).
  - reflexivity.
  - vm_compute. reflexivity.
  - reflexivity.
  - discriminate.
  - vm_compute. reflexivity.
Defined.

Section forwarding.
Implicit Types (w : World) (msg data : value) (h : heap).

Lemma prop_of_allocated h v k d :
  heap_closed h → prop_of h v k = VRef d → is_Some (h !! d).
Proof.
  intros Hcl Hp. unfold prop_of, own_props in Hp.
  destruct v as [| |b|z|s|m];
    try (rewrite lookup_empty in Hp; discriminate).
  - destruct (list_to_map _ !! k) as [x|] eqn:E.
    + subst x. apply elem_of_list_to_map_2 in E.
      by apply elem_of_lookup_imap_1 in E as (i & c & [= _ ?] & _).
    + by destruct (String.eqb k "length").
  - destruct (h !! m) as [mo|] eqn:Hm; simpl in Hp.
    + destruct (mo !! k) as [x|] eqn:E; [|done]. subst x.
      apply (Hcl m mo Hm k (VRef d) E).
    + by rewrite lookup_empty in Hp.
Qed.

Lemma prop_of_alloc h v k o :
  (∀ d, v = VRef d → is_Some (h !! d)) →
  prop_of (<[fresh (dom h) := o]> h) v k = prop_of h v k.
Proof.
  intros Hv. apply prop_of_frame. intros n -> Heq.
  destruct (Hv _ eq_refl) as [x Hx]. by rewrite Heq, fresh_loc_unused in Hx.
Qed.
End forwarding.

Section forwarding_form.
Implicit Types (w : World) (msg data : value).

(** The envelope object built for a forwarded frame. *)
Lemma onClientEvents_forward w msg data sl so :
  heap_closed (wheap w) →
  truthy msg = true → prop_of (wheap w) msg "data" = data →
  truthy data = true → data ≠ VStr "ping" →
  prop_of (wheap w) msg "event_type" ≠ VStr "nodered" →
  states (this w) = VRef sl → wheap w !! sl = Some so →
  onClientEvents msg w =
    (Ret tt,
     {| this := this w;
        wheap :=
          (if truthy (prop_of (wheap w) data "entity_id")
              && bool_decide (prop_of (wheap w) msg "event_type" = VStr "state_changed")
              && truthy (prop_of (wheap w) data "new_state")
           then <[sl := <[to_key (prop_of (wheap w) data "entity_id") :=
                            prop_of (wheap w) data "new_state"]> so]>
           else λ h, h)
            (<[fresh (dom (wheap w)) :=
                 <["event" := data]>
                   (<["entity_id" := prop_of (wheap w) data "entity_id"]>
                      (<["event_type" := prop_of (wheap w) msg "event_type"]> ∅))]>
               (wheap w));
        network := network w; next_sub := next_sub w;
        emitted := emitted w ++
          ((λ t, {| em_topic := t;
                    em_args := [VRef (fresh (dom (wheap w)))];
                    em_this := this w;
                    em_heap :=
                      (if truthy (prop_of (wheap w) data "entity_id")
                          && bool_decide (prop_of (wheap w) msg "event_type"
                                          = VStr "state_changed")
                          && truthy (prop_of (wheap w) data "new_state")
                       then <[sl := <[to_key (prop_of (wheap w) data "entity_id") :=
                                        prop_of (wheap w) data "new_state"]> so]>
                       else λ h, h)
                        (<[fresh (dom (wheap w)) :=
                             <["event" := data]>
                               (<["entity_id" := prop_of (wheap w) data "entity_id"]>
                                  (<["event_type" :=
                                       prop_of (wheap w) msg "event_type"]> ∅))]>
                           (wheap w)) |})
           <$> event_topics (prop_of (wheap w) msg "event_type")
                 (prop_of (wheap w) data "entity_id"));
        timers := timers w; sockets := sockets w; promise := promise w |}).
Proof.
  intros Hcl Hm Hdata Ht Hping Hty Hs Hsl.
  assert (∀ d, data = VRef d → is_Some (wheap w !! d)) as Halloc.
  { intros d Hd. apply (prop_of_allocated _ msg "data"); [done|]. by rewrite Hdata. }
  unfold onClientEvents. rewrite Hm. simpl. mstep.
  rewrite !read_prop_truthy by done. rewrite Hdata, Ht. simpl.
  rewrite (bool_decide_false _ Hping). rewrite !read_prop_truthy by done.
  simpl. rewrite (bool_decide_false _ Hty). simpl.
  set (ty := prop_of (wheap w) msg "event_type").
  set (eid := prop_of (wheap w) data "entity_id").
  set (env := <["event" := data]> _).
  unfold event_topics.
  destruct (truthy eid) eqn:He; simpl;
    [destruct (bool_decide (ty = VStr "state_changed")) eqn:Hsc; simpl|].
  - rewrite read_prop_truthy by done. unfold with_heap. simpl.
    rewrite (prop_of_alloc _ data "new_state" env Halloc).
    destruct (truthy (prop_of (wheap w) data "new_state")) eqn:Hns; simpl.
    + rewrite Hs. unfold write_prop, with_heap. cbn [wheap this].
      rewrite (lookup_alloc _ _ _ env Hsl). simpl.
      apply bool_decide_eq_true in Hsc. rewrite Hsc. simpl.
      unfold emit. simpl. by rewrite <- !app_assoc.
    + destruct (truthy ty); unfold emit; simpl; by rewrite <- ?app_assoc.
  - unfold with_heap. simpl.
    destruct (truthy ty); unfold emit; simpl; by rewrite <- ?app_assoc.
  - unfold with_heap. simpl.
    destruct (truthy ty); unfold emit; simpl; by rewrite <- ?app_assoc.
Qed.
End forwarding_form.

(** X8.  A frame that is neither dropped nor of type [nodered] is
    published on [ha_events:<type>] if the type is truthy, then on
    [ha_events:<type>:<entity>] if type and entity id are both truthy,
    then on [ha_events:all], and on nothing else.  All these
    notifications carry one and the same argument, a new object with the
    fields [event_type], [entity_id] and [event], the last being the
    payload object itself; their listeners run in the final state of the
    call, of which [this] is unchanged. *)
Theorem onClientEvents_publishes
    (w : World) (msg data : value) (sl : loc) (so : obj) :
  heap_closed (wheap w) →
  truthy msg = true → prop_of (wheap w) msg "data" = data →
  truthy data = true → data ≠ VStr "ping" →
  prop_of (wheap w) msg "event_type" ≠ VStr "nodered" →
  states (this w) = VRef sl → wheap w !! sl = Some so →
  ∃ w' new, onClientEvents msg w = (Ret tt, w') ∧
    emitted w' = emitted w ++ new ∧
    em_topic <$> new =
      event_topics (prop_of (wheap w) msg "event_type")
        (prop_of (wheap w) data "entity_id") ∧
    (∀ e, e ∈ new →
       em_args e = [VRef (fresh (dom (wheap w)))] ∧
       em_heap e = wheap w' ∧ em_this e = this w') ∧
    wheap w !! fresh (dom (wheap w)) = None ∧
    wheap w' !! fresh (dom (wheap w)) =
      Some (<["event" := data]>
              (<["entity_id" := prop_of (wheap w) data "entity_id"]>
                 (<["event_type" := prop_of (wheap w) msg "event_type"]> ∅))) ∧
    this w' = this w.
Proof.
  intros Hcl Hm Hdata Ht Hping Hty Hs Hsl.
  rewrite (onClientEvents_forward w msg data sl so) by done.
  eexists _, _. split; [reflexivity|]. cbn [emitted wheap this].
  split; [reflexivity|].
  assert (sl ≠ fresh (dom (wheap w))) as Hne.
  { intros ->. by rewrite fresh_loc_unused in Hsl. }
  split_and!.
  - rewrite <- list_fmap_compose. by rewrite list_fmap_id.
  - intros e (t & -> & _)%list_elem_of_fmap. done.
  - apply fresh_loc_unused.
  - destruct (_ && _); [rewrite lookup_insert_ne by done|];
      by rewrite lookup_insert_eq.
  - done.
Qed.


Lemma heap_closed_frame_world : heap_closed (wheap frame_world).
Proof. apply (bool_decide_unpack _). vm_compute. exact I. Qed.


Lemma onClientEvents_publishes_witness :
  ∃ w' new, onClientEvents (VRef 6%positive) frame_world = (Ret tt, w') ∧
    emitted w' = emitted frame_world ++ new ∧
    em_topic <$> new =
      event_topics (prop_of (wheap frame_world) (VRef 6%positive) "event_type")
        (prop_of (wheap frame_world) (VRef 7%positive) "entity_id") ∧
    (∀ e, e ∈ new →
       em_args e = [VRef (fresh (dom (wheap frame_world)))] ∧
       em_heap e = wheap w' ∧ em_this e = this w') ∧
    wheap frame_world !! fresh (dom (wheap frame_world)) = None ∧
    wheap w' !! fresh (dom (wheap frame_world)) =
      Some (<["event" := VRef 7%positive]>
              (<["entity_id" := prop_of (wheap frame_world) (VRef 7%positive) "entity_id"]>
                 (<["event_type" :=
                      prop_of (wheap frame_world) (VRef 6%positive) "event_type"]> ∅))) ∧
    this w' = this frame_world.
Proof.
  apply (onClientEvents_publishes frame_world (VRef 6%positive) (VRef 7%positive) 3%positive
           {["light.kitchen" := VRef 4%positive]}).
  - apply heap_closed_frame_world.
  - reflexivity.
  - vm_compute. reflexivity.
  - reflexivity.
  - discriminate.
  - vm_compute. discriminate.
  - vm_compute. reflexivity.
  - vm_compute. reflexivity.
Defined.


(** ** Connection state machine *)

(** [onClientClose] leaves the multiplexer alone. *)
Lemma onClientClose_frame (w : World) (readyState CLOSED : value) :
  subscribedEvents (this (onClientClose readyState CLOSED w).2) =
    subscribedEvents (this w) ∧
  unsubCallback (this (onClientClose readyState CLOSED w).2) =
    unsubCallback (this w) ∧
  client (this (onClientClose readyState CLOSED w).2) = client (this w) ∧
  network (onClientClose readyState CLOSED w).2 = network w.
Proof.
  unfold onClientClose, closeClient. mstep.
  by destruct (bool_decide (is_Some (client (this w))) &&
               bool_decide (readyState = CLOSED)).
Qed.

(** X10.  [onClientClose] returns normally; afterwards the state is
    DISCONNECTED, the integration version is 0 and both loaded flags are
    cleared.  It does not touch the cache (the two stores and the heap),
    the active set, the registry of unsubscribe functions, [this.client]
    or the requests sent.  It emits [ha_client:close], and emits it a
    second time when [this.client] is set and its [readyState] equals its
    [CLOSED]; it emits nothing else. *)
Theorem onClientClose_resets_flags_only (w : World) (readyState CLOSED : value) :
  ∃ w' new, onClientClose readyState CLOSED w = (Ret tt, w') ∧
    connectionState (this w') = DISCONNECTED ∧
    isConnected (this w') = false ∧
    integrationVersion (this w') = VNum 0 ∧
    statesLoaded (this w') = false ∧ servicesLoaded (this w') = false ∧
    states (this w') = states (this w) ∧
    services (this w') = services (this w) ∧
    subscribedEvents (this w') = subscribedEvents (this w) ∧
    unsubCallback (this w') = unsubCallback (this w) ∧
    client (this w') = client (this w) ∧
    wheap w' = wheap w ∧ network w' = network w ∧
    emitted w' = emitted w ++ new ∧
    em_call <$> new =
      ("ha_client:close", []) ::
      (if bool_decide (is_Some (client (this w))) && bool_decide (readyState = CLOSED)
       then [("ha_client:close", [])] else []).
Proof.
  unfold onClientClose, closeClient. mstep.
  destruct (bool_decide (is_Some (client (this w))) && bool_decide (readyState = CLOSED));
    simpl.
  - eexists _, [_; _]. split; [reflexivity|]. simpl.
    rewrite <- app_assoc. split_and!; done.
  - eexists _, [_]. split; [reflexivity|]. simpl. split_and!; done.
Qed.

(** What a read returns depends on the two stores and the heap only. *)
Lemma observe_run_read_ext (w1 w2 : World) (c : read_call) :
  states (this w1) = states (this w2) →
  services (this w1) = services (this w2) →
  wheap w1 = wheap w2 →
  observe (run_read c w1) = observe (run_read c w2).
Proof.
  intros Hst Hsv Hh. destruct c as [id f|f]; simpl.
  - unfold getStates, read_prop, object_keys_length, spread, alloc, get_heap.
    mstep. rewrite Hst.
    destruct (states (this w2)); simpl; try done;
      (destruct (truthy id); simpl; rewrite ?Hh;
       [match goal with
        | |- context [truthy ?x] => destruct (truthy x); simpl; try done
        end|]; by rewrite ?Hh).
  - unfold getServices, spread, alloc, get_heap. mstep.
    by rewrite Hsv, Hh.
Qed.

(** [onClientClose] clears the loaded flag and leaves the cache alone. *)
Lemma onClientClose_cache_frame (w : World) (readyState CLOSED : value) :
  statesLoaded (this (onClientClose readyState CLOSED w).2) = false ∧
  states (this (onClientClose readyState CLOSED w).2) = states (this w) ∧
  services (this (onClientClose readyState CLOSED w).2) = services (this w) ∧
  wheap (onClientClose readyState CLOSED w).2 = wheap w.
Proof.
  unfold onClientClose, closeClient. mstep.
  by destruct (bool_decide (is_Some (client (this w))) &&
               bool_decide (readyState = CLOSED)).
Qed.

(** X11.  After a disconnect the cache still answers: [getStates] and
    [getServices] return what they returned before it.  And the next bulk
    payload that is not empty is announced again: [onClientStates] emits
    [ha_client:states_loaded] with it, whether or not the notification
    had been emitted before the disconnect. *)
Theorem disconnect_keeps_cache_and_rearms_loaded
    (w : World) (readyState CLOSED msg : value) (c : read_call) :
  truthy msg = true → keys_length (wheap w) msg ≠ 0 →
  observe (run_read c (onClientClose readyState CLOSED w).2) =
    observe (run_read c w) ∧
  ∃ w' e, onClientStates msg (onClientClose readyState CLOSED w).2 = (Ret tt, w') ∧
    emitted w' = emitted (onClientClose readyState CLOSED w).2 ++ [e] ∧
    em_call e = ("ha_client:states_loaded", [msg]) ∧
    states (this w') = msg ∧ statesLoaded (this w') = true.
Proof.
  intros Ht Hk.
  destruct (onClientClose_cache_frame w readyState CLOSED)
    as (Hsl & Hst & Hsv & Hh).
  set (w1 := (onClientClose readyState CLOSED w).2) in *. split.
  - by apply observe_run_read_ext.
  - destruct (onClientStates_nonempty w1 msg Ht) as (w' & Hrun' & ? & ? & _ & Hem).
    { by rewrite Hh. }
    rewrite Hsl in Hem. exists w'. eexists. split_and!; try done.
Qed.

Lemma disconnect_keeps_cache_and_rearms_loaded_witness :
  observe (run_read (GetStates (VStr "light.kitchen") VUndef)
             (onClientClose VUndef VUndef cache_world).2) =
    observe (run_read (GetStates (VStr "light.kitchen") VUndef) cache_world) ∧
  ∃ w' e, onClientStates (VRef 3%positive)
            (onClientClose VUndef VUndef cache_world).2 = (Ret tt, w') ∧
    emitted w' = emitted (onClientClose VUndef VUndef cache_world).2 ++ [e] ∧
    em_call e = ("ha_client:states_loaded", [VRef 3%positive]) ∧
    states (this w') = VRef 3%positive ∧ statesLoaded (this w') = true.
Proof.
  apply (disconnect_keeps_cache_and_rearms_loaded cache_world VUndef VUndef
           (VRef 3%positive) (GetStates (VStr "light.kitchen") VUndef)).
  - reflexivity.
  - vm_compute. discriminate.
Defined.

(** X12.  [onClientError] returns normally and clears both loaded flags.
    It emits [ha_client:error] with the error exactly when the error is
    truthy.  Only when [this.client] is set and its [readyState] equals
    its [CLOSED] does it set the state to DISCONNECTED and emit
    [ha_client:close]; otherwise the connection state stays what it was.
    It never changes the integration version, the cache, the active set,
    the registry, [this.client] or the requests sent. *)
Theorem onClientError_effect (w : World) (data readyState CLOSED : value) :
  let closed := bool_decide (is_Some (client (this w))) &&
                bool_decide (readyState = CLOSED) in
  ∃ w' new, onClientError data readyState CLOSED w = (Ret tt, w') ∧
    statesLoaded (this w') = false ∧ servicesLoaded (this w') = false ∧
    connectionState (this w') =
      (if closed then DISCONNECTED else connectionState (this w)) ∧
    integrationVersion (this w') = integrationVersion (this w) ∧
    states (this w') = states (this w) ∧
    services (this w') = services (this w) ∧
    subscribedEvents (this w') = subscribedEvents (this w) ∧
    unsubCallback (this w') = unsubCallback (this w) ∧
    client (this w') = client (this w) ∧
    wheap w' = wheap w ∧ network w' = network w ∧
    emitted w' = emitted w ++ new ∧
    em_call <$> new =
      (if truthy data then [("ha_client:error", [data])] else []) ++
      (if closed then [("ha_client:close", [])] else []).
Proof.
  unfold onClientError, closeClient. mstep.
  destruct (truthy data); simpl;
    destruct (bool_decide (is_Some (client (this w))) && bool_decide (readyState = CLOSED));
    simpl.
  - eexists _, [_; _]. split; [reflexivity|]. simpl.
    rewrite <- app_assoc. split_and!; done.
  - eexists _, [_]. split; [reflexivity|]. simpl. split_and!; done.
  - eexists _, [_]. split; [reflexivity|]. simpl. split_and!; done.
  - eexists _, []. split; [reflexivity|]. simpl.
    rewrite app_nil_r. split_and!; done.
Qed.

(** X13.  For a config that has a [components] array,
    [onClientConfigUpdate] never throws: a failure of the version request
    (a rejection by the library, or no connection object) is swallowed.
    It changes nothing of the instance but the integration version, which
    becomes the reply when [nodered] is among the components, the
    connection object is set and the request succeeds, and 0 in every
    other case.  It emits [ha_events:config_update] once, after the
    version has been stored.  For a config without a [components] array
    it throws after resetting the version and emits nothing. *)
Theorem onClientConfigUpdate_effect
    (w : World) (cs : list value) (reply : rejection + value) :
  let version :=
    match reply, client (this w) with
    | inr v, Some _ => if bool_decide (VStr "nodered" ∈ cs) then v else VNum 0
    | _, _ => VNum 0
    end in
  (∃ w' e, onClientConfigUpdate (Some cs) reply w = (Ret tt, w') ∧
     this w' = set_integrationVersion version (this w) ∧
     wheap w' = wheap w ∧ network w' = network w ∧
     emitted w' = emitted w ++ [e] ∧
     em_call e = ("ha_events:config_update", []) ∧
     em_this e = this w') ∧
  onClientConfigUpdate None reply w =
    (Throw TypeError, with_this (set_integrationVersion (VNum 0)) w).
Proof.
  split; [|done].
  unfold onClientConfigUpdate, try_catch, send. mstep.
  case_bool_decide; simpl.
  - destruct (client (this w)) eqn:Hc; simpl.
    + destruct reply as [r|v]; simpl.
      * eexists _, _. split; [reflexivity|]. simpl. split_and!; done.
      * eexists _, _. split; [reflexivity|]. simpl. split_and!; done.
    + eexists _, _. split; [reflexivity|]. simpl.
      destruct reply; split_and!; done.
  - eexists _, _. split; [reflexivity|]. simpl.
    destruct reply, (client (this w)); split_and!; done.
Qed.

(** A call whose desired set is the active set sends nothing. *)
Lemma subscribeEvents_in_sync (events : list string) (w : World) :
  mux_inv w → ALL ∉ events →
  (∀ x, x ∈ subscribedEvents (this w) ↔ x ∈ desired events) →
  ∃ w', subscribeEvents events w = (Ret tt, w') ∧
    network w' = network w ∧ next_sub w' = next_sub w ∧
    unsubCallback (this w') = unsubCallback (this w) ∧
    subscribedEvents (this w') ≡ₚ subscribedEvents (this w).
Proof.
  intros Hinv Hall Hsync.
  assert (filter (λ x, x ∉ subscribedEvents (this w)) (desired events) = []) as Hadd.
  { apply filter_none. intros x Hx Hn. by apply Hn, Hsync. }
  rewrite subscribeEvents_diff;
    [|done|done|rewrite to_subscribe_diff, Hadd by done; apply acknowledged_0].
  eexists. split; [reflexivity|]. simpl. rewrite Hadd.
  assert (filter (λ x, x ∉ desired events) (subscribedEvents (this w)) = []) as ->.
  { apply filter_none. intros x Hx Hn. by apply Hn, Hsync. }
  simpl. rewrite !app_nil_r. split_and!; try done; try lia.
  rewrite filter_all by (intros x Hx; by apply Hsync).
  destruct Hinv as (_ & Hnd & _).
  apply NoDup_Permutation; [apply NoDup_desired|done|].
  intros x. by rewrite Hsync.
Qed.

(** X14.  Subscriptions are not issued again after a disconnect: after a
    call of [subscribeEvents] that returned normally, a disconnect
    ([onClientClose]) and a second call with the same event types, the
    second call returns normally without sending any request, and the
    active set and the registry are those of the first call. *)
Theorem resubscribe_after_disconnect_sends_nothing
    (w w1 : World) (events : list string) (readyState CLOSED : value) :
  mux_inv w → subscribeEvents events w = (Ret tt, w1) →
  let w2 := (onClientClose readyState CLOSED w1).2 in
  ∃ w3, subscribeEvents events w2 = (Ret tt, w3) ∧
    network w3 = network w1 ∧
    unsubCallback (this w3) = unsubCallback (this w1) ∧
    subscribedEvents (this w3) ≡ₚ subscribedEvents (this w1).
Proof.
  intros Hinv Hrun w2.
  pose proof (subscribeEvents_returns _ _ _ Hinv Hrun) as Hack.
  pose proof (mux_inv_subscribeEvents events w Hinv Hack) as Hinv1.
  assert (w1 = (subscribeEvents events w).2) as Hw1 by by rewrite Hrun.
  rewrite <- Hw1 in Hinv1.
  destruct (onClientClose_frame w1 readyState CLOSED)
    as (Hsub & Hreg & Hcl & Hnet). fold w2 in Hsub, Hreg, Hcl, Hnet.
  assert (mux_inv w2) as Hinv2.
  { unfold mux_inv. by rewrite Hsub, Hreg, Hcl. }
  destruct (decide (ALL ∈ events)) as [Hall|Hall].
  - exists w2. rewrite Hsub, Hreg, Hnet. split; [|done].
    apply subscribeEvents_wildcard_active; [done|]. rewrite Hsub, Hw1.
    destruct (decide (ALL ∈ subscribedEvents (this w))) as [Hact|Hact].
    + by rewrite subscribeEvents_wildcard_active.
    + rewrite subscribeEvents_wildcard by done. simpl.
      by apply list_elem_of_singleton.
  - destruct (subscribeEvents_in_sync events w2 Hinv2 Hall)
      as (w3 & Hrun3 & Hn3 & _ & Hr3 & Hs3).
    { intros x. rewrite Hsub, Hw1.
      rewrite subscribeEvents_diff by done. simpl.
      rewrite elem_of_app, !list_elem_of_filter.
      destruct (decide (x ∈ subscribedEvents (this w))); naive_solver. }
    exists w3. rewrite Hn3, Hr3, Hs3, Hnet, Hreg, Hsub. done.
Qed.

Lemma mux_inv_lights_world : mux_inv lights_world.
Proof.
  apply mux_inv_subscribeEvents; [apply mux_inv_wildcard_world|].
  apply always_acknowledged_wildcard_world.
Qed.

Lemma resubscribe_after_disconnect_sends_nothing_witness :
  mux_inv lights_world ∧
  ∃ w3, subscribeEvents ["call_service"]
          (onClientClose VUndef VUndef
             (subscribeEvents ["call_service"] lights_world).2).2 = (Ret tt, w3) ∧
    network w3 = network (subscribeEvents ["call_service"] lights_world).2 ∧
    unsubCallback (this w3) =
      unsubCallback (this (subscribeEvents ["call_service"] lights_world).2) ∧
    subscribedEvents (this w3) ≡ₚ
      subscribedEvents (this (subscribeEvents ["call_service"] lights_world).2).
Proof.
  split; [exact mux_inv_lights_world|].
  apply (resubscribe_after_disconnect_sends_nothing lights_world
           (subscribeEvents ["call_service"] lights_world).2
           ["call_service"] VUndef VUndef mux_inv_lights_world).
  vm_compute. reflexivity.
Defined.

(** ** Connect: failures *)

(** X15.  When [createConnection] fails, [connect] throws, whatever the
    rejection: it sets the state to ERROR, emits [ha_client:close] once
    with that state visible, and leaves [this.client], the cache, the
    multiplexer and the handshake state as they were.  For each of the
    five error constants of the library the error thrown is a new error
    with a message of its own: the message tells the five apart. *)
Theorem connect_failure_reports (w : World) (e : rejection) (user : rejection + value) :
  (∃ x w' ev, connect (inl e) user w = (Throw x, w') ∧
     this w' = set_connectionState ERROR (this w) ∧
     isConnected (this w') = false ∧
     client (this w') = client (this w) ∧
     wheap w' = wheap w ∧ network w' = network w ∧
     emitted w' = emitted w ++ [ev] ∧
     em_call ev = ("ha_client:close", []) ∧
     connectionState (em_this ev) = ERROR) ∧
  (∀ c, e = HassErr c →
     ∃ message, (connect (inl e) user w).1 = Throw (JsError message) ∧
       ∀ c' user' w0,
         (connect (inl (HassErr c')) user' w0).1 = Throw (JsError message) →
         c' = c).
Proof.
  split.
  - unfold connect, connect_catch. destruct e as [[]|v]; mstep;
      eexists _, _, _; (split; [reflexivity|]); simpl; split_and!; done.
  - intros c ->. unfold connect, connect_catch.
    destruct c; mstep; eexists; (split; [reflexivity|]);
      intros [] user' w0; mstep; congruence.
Qed.

Lemma connect_failure_reports_witness :
  ∃ message,
    (connect (inl (HassErr ERR_CANNOT_CONNECT)) (inr VUndef) auth_phase_world).1 =
      Throw (JsError message) ∧
    ∀ c' user' w0,
      (connect (inl (HassErr c')) user' w0).1 = Throw (JsError message) →
      c' = ERR_CANNOT_CONNECT.
Proof.
  destruct (connect_failure_reports auth_phase_world (HassErr ERR_CANNOT_CONNECT)
              (inr VUndef)) as [_ Hmsg].
  exact (Hmsg ERR_CANNOT_CONNECT eq_refl).
Defined.

(** X16.  When the handshake has succeeded but [getUser] fails, or
    returns [undefined] or [null], [connect] throws (the rejection
    itself, or a TypeError) with the connection object already stored in
    [this.client]: it does not close that object, does not change the
    connection state and emits nothing. *)
Theorem connect_getUser_failure (w : World) (c : Client) (user : rejection + value) :
  (∃ e, user = inl e) ∨ user = inr VUndef ∨ user = inr VNull →
  ∃ x, connect (inr c) user w = (Throw x, with_this (set_client (Some c)) w) ∧
    x = match user with inl e => Thrown e | inr _ => TypeError end ∧
    client (this (connect (inr c) user w).2) = Some c ∧
    connectionState (this (connect (inr c) user w).2) = connectionState (this w) ∧
    emitted (connect (inr c) user w).2 = emitted w.
Proof.
  intros [[e ->]|[-> | ->]]; unfold connect, read_prop; mstep;
    eexists; split_and!; done.
Qed.

Lemma connect_getUser_failure_witness :
  ∃ x, connect (inr new_client) (inr VUndef) auth_ok_world =
         (Throw x, with_this (set_client (Some new_client)) auth_ok_world) ∧
    x = TypeError ∧
    client (this (connect (inr new_client) (inr VUndef) auth_ok_world).2) =
      Some new_client ∧
    connectionState (this (connect (inr new_client) (inr VUndef) auth_ok_world).2) =
      connectionState (this auth_ok_world) ∧
    emitted (connect (inr new_client) (inr VUndef) auth_ok_world).2 =
      emitted auth_ok_world.
Proof.
  apply (connect_getUser_failure auth_ok_world new_client (inr VUndef)).
  right. left. reflexivity.
Defined.

(** ** Handshake: success, send failures, other messages *)

(** The events of a socket leave the instance, the heap and the requests
    alone and emit nothing. *)
Lemma step_socket_frame (w : World) (ev : event) :
  ev ≠ EvTimer →
  this (step ev w) = this w ∧ wheap (step ev w) = wheap w ∧
  network (step ev w) = network w ∧ emitted (step ev w) = emitted w.
Proof.
  intros Hev. destruct ev as [|sid e|sid ty|sid|sid]; [done|..];
    unfold step, deliver, onOpen, onClose, onMessage, socket_close,
      update_socket, get_socket, promResolve, promReject, setTimeout; mstep.
  - destruct (lOpen _); [|done]. destruct e; done.
  - destruct (lMessage _); [|done]. repeat case_bool_decide; try done.
    simpl. by destruct (promise w).
  - destruct (lError _); [|done]. simpl.
    destruct (invalidAuth _); [|done]. simpl. by destruct (promise w).
  - destruct (lClose _); [|done]. simpl.
    destruct (invalidAuth _); [|done]. simpl. by destruct (promise w).
Qed.

(** Once the promise is settled the instance is not touched again. *)
Lemma settled_trace_frame (evs : list event) (w w' : World) :
  hs_inv w → promise w ≠ Pending → run_trace evs w = Some w' →
  this w' = this w ∧ emitted w' = emitted w.
Proof.
  revert w. induction evs as [|ev evs IH]; intros w Hinv Hp Hrun; simpl in Hrun.
  - by injection Hrun as <-.
  - destruct (enabled w ev) eqn:Hen; [|done].
    destruct (settled_stays_settled [] w w Hinv Hp eq_refl) as (Ht & _ & _).
    assert (ev ≠ EvTimer) as Hev.
    { intros ->. simpl in Hen. apply bool_decide_eq_true in Hen. by rewrite Ht in Hen. }
    destruct (step_socket_frame w ev Hev) as (Hthis & _ & _ & Hem).
    destruct (settled_stays_settled [ev] w (step ev w) Hinv Hp) as (_ & _ & Hp').
    { simpl. by rewrite Hen. }
    destruct (IH (step ev w)) as [Hthis' Hem']; [by apply hs_inv_step|congruence|done|].
    split; congruence.
Qed.

(** X17.  While an attempt is in its handshake, an [auth_ok] message
    resolves the promise of [createSocket] with the attempt's socket and
    removes the four listeners from it, so [createConnection] succeeds.
    The message itself does not change the instance and emits nothing,
    and nothing the sockets deliver afterwards does: no timer is ever
    scheduled, the promise stays resolved, no further
    [ha_client:connecting] is emitted. *)
Theorem auth_ok_resolves (w : World) (sid : nat) (s : Socket) :
  hs_inv w → sockets w !! sid = Some s →
  lMessage s = true → phase s = SockOpen →
  let w1 := step (EvMessage sid (VStr MSG_TYPE_AUTH_OK)) w in
  promise w1 = Resolved sid ∧
  createConnection_result w1 = Some (inr new_client) ∧
  sockets w1 !! sid =
    Some (set_lError false (set_lClose false (set_lMessage false (set_lOpen false s)))) ∧
  timers w1 = [] ∧ this w1 = this w ∧ emitted w1 = emitted w ∧
  ∀ evs w', run_trace evs w1 = Some w' →
    promise w' = Resolved sid ∧ timers w' = [] ∧
    this w' = this w ∧ emitted w' = emitted w.
Proof.
  intros Hinv Hs HlM Hph w1.
  pose proof Hinv as [Hok _].
  pose proof (proj1 (Forall_lookup _ _) Hok _ _ Hs) as Hsok.
  pose proof (sock_ok_listening s Hsok HlM Hph) as HlC.
  destruct (live_socket_alone w sid s Hinv Hs HlC) as (Hpr & Htm & _).
  assert (enabled w (EvMessage sid (VStr MSG_TYPE_AUTH_OK)) = true) as Hen.
  { simpl. apply bool_decide_eq_true. by rewrite Hs, <- Hph. }
  pose proof (hs_inv_step _ _ Hinv Hen) as Hinv1. fold w1 in Hinv1.
  assert (w1 = with_promise (Resolved sid)
            (with_sockets (alter (set_lError false ∘ set_lClose false ∘
                                  set_lMessage false ∘ set_lOpen false) sid) w)) as Hw1.
  { unfold w1. rewrite (step_message w sid s _ Hs), HlM.
    rewrite bool_decide_false by done. rewrite bool_decide_true by done.
    by rewrite Hpr. }
  clearbody w1. subst w1.
  split_and!; try done.
  - simpl. by rewrite list_lookup_alter_eq, Hs.
  - intros evs w' Hrun.
    destruct (settled_stays_settled evs _ w' Hinv1 ltac:(done) Hrun) as (Ht' & _ & Hp').
    destruct (settled_trace_frame evs _ w' Hinv1 ltac:(done) Hrun) as (Hthis & Hem).
    rewrite Hp', Hthis, Hem. done.
Qed.

Lemma auth_ok_resolves_witness :
  let w1 := step (EvMessage 0 (VStr MSG_TYPE_AUTH_OK)) auth_phase_world in
  promise w1 = Resolved 0 ∧
  createConnection_result w1 = Some (inr new_client) ∧
  sockets w1 !! 0 =
    Some (set_lError false (set_lClose false (set_lMessage false (set_lOpen false
      {| lOpen := true; lMessage := true; lClose := true; lError := true;
         invalidAuth := false; closeRequested := false; sentAuth := 1;
         phase := SockOpen |})))) ∧
  timers w1 = [] ∧ this w1 = this auth_phase_world ∧
  emitted w1 = emitted auth_phase_world ∧
  ∀ evs w', run_trace evs w1 = Some w' →
    promise w' = Resolved 0 ∧ timers w' = [] ∧
    this w' = this auth_phase_world ∧ emitted w' = emitted auth_phase_world.
Proof.
  apply (auth_ok_resolves auth_phase_world 0 _ hs_inv_auth_phase_world);
    vm_compute; reflexivity.
Defined.

Lemma step_open_failure (w : World) (sid : nat) (s : Socket) (err : rejection) :
  sockets w !! sid = Some s → lOpen s = true →
  step (EvOpen sid (Some err)) w =
    with_sockets
      (alter (set_closeRequested true ∘
              set_invalidAuth (bool_decide (err = HassErr ERR_INVALID_AUTH)) ∘
              set_phase SockOpen) sid) w.
Proof.
  intros Hs Ho. unfold step, deliver, update_socket, get_socket. mstep.
  rewrite (get_after_update _ _ s) by done. simpl. rewrite Ho.
  unfold onOpen, socket_close, update_socket. mstep.
  unfold with_sockets. simpl. by rewrite !alter_alter_lookup.
Qed.

(** X18.  When [socket.send] throws in [onOpen], the attempt sends no
    auth frame and closes its socket, without scheduling a timer or
    settling the promise.  What the close or error event that follows
    does depends on what was thrown: for [ERR_INVALID_AUTH] the promise
    is rejected with it and no timer is scheduled; for anything else the
    promise stays pending and one retry is scheduled in 5000 ms. *)
Theorem send_failure_closes_socket
    (w : World) (sid : nat) (s : Socket) (err : rejection) (ev : event) :
  hs_inv w → sockets w !! sid = Some s →
  lOpen s = true → lClose s = true → phase s = SockConnecting →
  ev = EvClose sid ∨ ev = EvError sid →
  let w1 := step (EvOpen sid (Some err)) w in
  closeRequested <$> sockets w1 !! sid = Some true ∧
  sentAuth <$> sockets w1 !! sid = Some (sentAuth s) ∧
  timers w1 = [] ∧ promise w1 = Pending ∧
  enabled w1 ev = true ∧
  (err = HassErr ERR_INVALID_AUTH →
     promise (step ev w1) = Rejected (HassErr ERR_INVALID_AUTH) ∧
     timers (step ev w1) = []) ∧
  (err ≠ HassErr ERR_INVALID_AUTH →
     promise (step ev w1) = Pending ∧ timers (step ev w1) = [5000%Z]).
Proof.
  intros Hinv Hs Ho HlC Hph Hev w1.
  pose proof Hinv as [Hok _].
  pose proof (proj1 (Forall_lookup _ _) Hok _ _ Hs) as Hsok.
  assert (lError s = true) as HlE.
  { unfold sock_ok in Hsok. rewrite HlC in Hsok. by destruct Hsok. }
  destruct (live_socket_alone w sid s Hinv Hs HlC) as (Hpr & Htm & _).
  pose proof (step_open_failure w sid s err Hs Ho) as Hw1. fold w1 in Hw1.
  clearbody w1. subst w1.
  set (s1 := (set_closeRequested true ∘
              set_invalidAuth (bool_decide (err = HassErr ERR_INVALID_AUTH)) ∘
              set_phase SockOpen) s).
  set (w1 := with_sockets _ w).
  assert (sockets w1 !! sid = Some s1) as Hs1.
  { unfold w1. simpl. by rewrite list_lookup_alter_eq, Hs. }
  assert (promise w1 = Pending ∧ timers w1 = []) as [Hpr1 Htm1] by done.
  split_and!.
  - by rewrite Hs1.
  - by rewrite Hs1.
  - done.
  - done.
  - destruct Hev as [-> | ->]; unfold enabled; apply bool_decide_eq_true;
      rewrite Hs1; simpl.
    + split; [eauto|done].
    + by right.
  - intros ->.
    destruct Hev as [-> | ->];
      [rewrite (step_close w1 sid s1 Hs1)|rewrite (step_error w1 sid s1 Hs1)];
      simpl; rewrite ?HlC, ?HlE, Hpr; done.
  - intros Hne.
    destruct Hev as [-> | ->];
      [rewrite (step_close w1 sid s1 Hs1)|rewrite (step_error w1 sid s1 Hs1)];
      simpl; rewrite ?HlC, ?HlE, bool_decide_false by done; simpl;
      by rewrite Htm.
Qed.

Lemma hs_inv_connecting_world : hs_inv connecting_world.
Proof. apply hs_inv_step; [apply hs_inv_start|vm_compute; reflexivity]. Qed.

Lemma send_failure_closes_socket_witness :
  let w1 := step (EvOpen 0 (Some (OtherRejection (VStr "not opened"))))
              connecting_world in
  closeRequested <$> sockets w1 !! 0 = Some true ∧
  sentAuth <$> sockets w1 !! 0 = Some 0 ∧
  timers w1 = [] ∧ promise w1 = Pending ∧
  enabled w1 (EvClose 0) = true ∧
  (OtherRejection (VStr "not opened") = HassErr ERR_INVALID_AUTH →
     promise (step (EvClose 0) w1) = Rejected (HassErr ERR_INVALID_AUTH) ∧
     timers (step (EvClose 0) w1) = []) ∧
  (OtherRejection (VStr "not opened") ≠ HassErr ERR_INVALID_AUTH →
     promise (step (EvClose 0) w1) = Pending ∧
     timers (step (EvClose 0) w1) = [5000%Z]).
Proof.
  apply (send_failure_closes_socket connecting_world 0
           {| lOpen := true; lMessage := true; lClose := true; lError := true;
              invalidAuth := false; closeRequested := false; sentAuth := 0;
              phase := SockConnecting |}
           (OtherRejection (VStr "not opened")) (EvClose 0)
           hs_inv_connecting_world);
    first [vm_compute; reflexivity | by left].
Defined.

(** X19.  A message during the handshake has no effect at all unless it
    is [auth_invalid] or [auth_ok] and the message listener of its socket
    is still registered: [auth_required] and unknown frames are ignored,
    and so is every frame that arrives after [auth_ok] removed the
    listeners. *)
Theorem other_messages_are_ignored (w : World) (sid : nat) (type : value) :
  (type ≠ VStr MSG_TYPE_AUTH_INVALID ∧ type ≠ VStr MSG_TYPE_AUTH_OK) ∨
  lMessage <$> sockets w !! sid = Some false →
  deliver (EvMessage sid type) w = (Ret tt, w).
Proof.
  intros H. unfold deliver, get_socket, onMessage. mstep.
  destruct H as [[H1 H2]|H].
  - destruct (lMessage _); [|done]. by rewrite !bool_decide_false.
  - destruct (sockets w !! sid) as [s|]; [|done]. simpl in *.
    injection H as ->. done.
Qed.

Lemma other_messages_are_ignored_witness :
  deliver (EvMessage 0 (VStr MSG_TYPE_AUTH_INVALID))
    (step (EvMessage 0 (VStr MSG_TYPE_AUTH_OK)) auth_phase_world) =
  (Ret tt, step (EvMessage 0 (VStr MSG_TYPE_AUTH_OK)) auth_phase_world).
Proof.
  apply other_messages_are_ignored. right. vm_compute. reflexivity.
Defined.

(** X20.  [createSocket] starts nothing at once: it leaves one timer,
    with delay 0 when [connectionDelay] is the boolean [false] and 5000
    for every other value (also when the option is absent), and no
    socket; the promise is pending, the state is still DISCONNECTED and
    nothing has been emitted.  The timer is what starts the first
    attempt. *)
Theorem first_attempt_delay (cfg : Config) :
  let w := handshake_start cfg in
  timers w = [if bool_decide (connectionDelay cfg = VBool false) then 0%Z else 5000%Z] ∧
  sockets w = [] ∧ promise w = Pending ∧
  connectionState (this w) = DISCONNECTED ∧ emitted w = [] ∧
  enabled w EvTimer = true.
Proof.
  cbv zeta.
  assert (timers (handshake_start cfg) =
          [if bool_decide (connectionDelay cfg = VBool false) then 0%Z else 5000%Z])
    as Ht.
  { unfold handshake_start, createSocket, setTimeout. mstep.
    repeat case_bool_decide; done. }
  unfold enabled. rewrite Ht. simpl.
  split_and!; done.
Qed.

(** X21.  The socket address is [ws] followed by the base URL without its
    first four characters, whatever they are, followed by
    [/api/websocket]: [http://host] gives [ws://host/api/websocket] and
    [https://host] gives [wss://host/api/websocket].  The auth frame has
    type [auth] and carries the credential under exactly one key:
    [api_password] for a legacy configuration, [access_token] otherwise. *)
Theorem socket_url_and_auth_frame (cfg : Config) (scheme rest : string) :
  baseUrl cfg = scheme +:+ rest → String.length scheme = 4 →
  socket_url cfg = "ws" +:+ rest +:+ "/api/websocket" ∧
  authObj cfg !! "type" = Some (VStr "auth") ∧
  authObj cfg !! (if legacy cfg then "api_password" else "access_token") =
    Some (VStr (apiPass cfg)) ∧
  authObj cfg !! (if legacy cfg then "access_token" else "api_password") = None ∧
  size (authObj cfg) = 2.
Proof.
  intros Hurl Hlen. unfold socket_url, authObj. rewrite Hurl.
  assert (substr 4 (scheme +:+ rest) = rest) as ->.
  { destruct scheme as [|a [|b [|c [|d [|e r]]]]]; try done. }
  split; [done|].
  destruct (legacy cfg); split_and!; try done.
Qed.

Lemma socket_url_and_auth_frame_witness :
  socket_url example_config = "ws" +:+ "://hass.local:8123" +:+ "/api/websocket" ∧
  authObj example_config !! "type" = Some (VStr "auth") ∧
  authObj example_config !! (if legacy example_config then "api_password" else "access_token") =
    Some (VStr (apiPass example_config)) ∧
  authObj example_config !! (if legacy example_config then "access_token" else "api_password") = None ∧
  size (authObj example_config) = 2.
Proof.
  apply (socket_url_and_auth_frame example_config "http" "://hass.local:8123");
    reflexivity.
Defined.

(** ** The trigger-state node *)

Section heap_relations.
Implicit Types (h : heap) (w : World) (p : loc) (o : obj).

Lemma extends_refl h : extends h h.
Proof. by intros p _. Qed.

Lemma extends_trans h1 h2 h3 : extends h1 h2 → extends h2 h3 → extends h1 h3.
Proof.
  intros H12 H23 p Hp. rewrite H23, H12; [done..|]. by rewrite H12.
Qed.

Lemma extends_insert_new h t o : h !! t = None → extends h (<[t := o]> h).
Proof.
  intros Ht p [x Hp]. rewrite lookup_insert_ne; [done|]. congruence.
Qed.

Lemma extends_alloc h o : extends h (<[fresh (dom h) := o]> h).
Proof. apply extends_insert_new, fresh_loc_unused. Qed.

(** A write into an object that [h] does not have. *)
Lemma extends_write_new h hc t o :
  h !! t = None → extends h hc → extends h (<[t := o]> hc).
Proof.
  intros Ht Hext p Hp. rewrite lookup_insert_ne; [by apply Hext|].
  intros <-. rewrite Ht in Hp. by destruct Hp.
Qed.

Lemma extends_is_Some h h' p : extends h h' → is_Some (h !! p) → is_Some (h' !! p).
Proof. intros Hext Hp. by rewrite Hext. Qed.

Lemma prop_of_insert h t o k :
  prop_of (<[t := o]> h) (VRef t) k = default VUndef (o !! k).
Proof.
  unfold prop_of, own_props. rewrite lookup_insert_eq. simpl.
  by destruct (o !! k).
Qed.

Lemma prop_of_lookup h t o k :
  h !! t = Some o → prop_of h (VRef t) k = default VUndef (o !! k).
Proof.
  intros Ht. unfold prop_of, own_props. rewrite Ht. simpl.
  by destruct (o !! k).
Qed.

Lemma heap_closed_lookup h l o k v :
  heap_closed h → h !! l = Some o → o !! k = Some v → value_allocated h v.
Proof. intros Hcl Hl Hk. exact (Hcl l o Hl k v Hk). Qed.

Lemma heap_only_refl w : heap_only w w.
Proof. by destruct w. Qed.

Lemma heap_only_trans w1 w2 w3 : heap_only w1 w2 → heap_only w2 w3 → heap_only w1 w3.
Proof. unfold heap_only. intros -> ->. done. Qed.

Lemma heap_only_with_heap w f : heap_only w (with_heap f w).
Proof. done. Qed.

Lemma heap_only_this w w' : heap_only w w' → this w' = this w.
Proof. by intros ->. Qed.

(** [getStates] allocates at most one object and changes nothing else. *)
Lemma getStates_allocates id f w :
  heap_only w (getStates id f w).2 ∧ extends (wheap w) (wheap (getStates id f w).2).
Proof.
  unfold getStates, read_prop, object_keys_length, spread, alloc, get_heap.
  mstep.
  destruct (states (this w)); simpl;
    try (split; [apply heap_only_refl|apply extends_refl]);
    (destruct (truthy id); simpl;
     [match goal with
      | |- context [truthy ?x] => destruct (truthy x); simpl
      end|]);
    first [split; [apply heap_only_refl|apply extends_refl]
          |split; [done|apply extends_alloc]].
Qed.
End heap_relations.

Section target_data.
Context `{NodeExternals}.
Implicit Types (w : World) (cfg : NodeConfig) (c : Constraint).

Lemma targetData_begin_this cfg c ev w :
  targetType c = VStr "this_entity" →
  targetData_begin cfg c ev w =
    (Ret (VRef (fresh (dom (wheap w))), ev),
     with_heap (λ h, <[fresh (dom h) :=
                         <["entityid" := entityid cfg]>
                           (<["entityid" := VNull]> {["state" := VNull]})]> h) w).
Proof.
  intros Ht. unfold targetData_begin, alloc, write_prop. mstep.
  rewrite bool_decide_true by done. simpl.
  unfold with_heap. simpl. rewrite lookup_insert_eq. simpl.
  by rewrite insert_insert_eq.
Qed.

Lemma targetData_begin_other cfg c ev w :
  targetType c ≠ VStr "this_entity" →
  targetData_begin cfg c ev w =
    let w1 := with_heap (λ h, <[fresh (dom h) :=
                         <["entityid" := targetValue c]>
                           (<["entityid" := VNull]> {["state" := VNull]})]> h) w in
    match getStates (targetValue c) (VBool false) w1 with
    | (Ret s, w2) => (Ret (VRef (fresh (dom (wheap w))), s), w2)
    | (Throw e, w2) => (Throw e, w2)
    end.
Proof.
  intros Ht. unfold targetData_begin, alloc, write_prop, read_prop. mstep.
  rewrite bool_decide_false by done. simpl.
  unfold with_heap. simpl. rewrite lookup_insert_eq. simpl.
  rewrite insert_insert_eq. rewrite prop_of_ref with (o := <["entityid" := targetValue c]> (<["entityid" := VNull]> {["state" := VNull]})) (v := targetValue c).
  - done.
  - by rewrite lookup_insert_eq.
  - by rewrite lookup_insert_eq.
Qed.

Lemma wheap_write (l : loc) k (v : value) w :
  wheap (with_heap (λ h, <[l := <[k := v]> (default ∅ (h !! l))]> h) w) =
    <[l := <[k := v]> (default ∅ (wheap w !! l))]> (wheap w).
Proof. done. Qed.

(** X22.  What a constraint is evaluated against.  With the cache
    holding an object on a closed heap, [getConstraintTargetData] returns
    a new object and changes no object that existed.  For a constraint on
    the node's own entity its [entityid] is the one of the configuration
    and its [state] is the trigger event itself, not a copy.  For a
    constraint on another entity its [entityid] is the target value and
    its [state] (wrapped as [new_state] when the property type is
    [current_state]) is what [getStates] yields at that moment: a new
    copy of the cached record, [null] when the cache has no truthy record
    under that id, and a copy of the whole cache when the target value is
    falsy.  The target value of a constraint on another entity is taken
    not to be the name of a member of [Object.prototype]. *)
Theorem getConstraintTargetData_reads_cache
    cfg c (ev : value) w (sl : loc) (so : obj) :
  heap_closed (wheap w) →
  states (this w) = VRef sl → wheap w !! sl = Some so →
  (targetType c ≠ VStr "this_entity" →
   to_key (targetValue c) ∉ Object_prototype_members) →
  let this_entity := bool_decide (targetType c = VStr "this_entity") in
  let wrapped := negb this_entity &&
                 bool_decide (propertyType c = VStr "current_state") in
  let source := if truthy (targetValue c)
                then default VUndef (so !! to_key (targetValue c))
                else VRef sl in
  ∃ td w', getConstraintTargetData cfg c ev w = (Ret (VRef td), w') ∧
    wheap w !! td = None ∧ heap_only w w' ∧ extends (wheap w) (wheap w') ∧
    prop_of (wheap w') (VRef td) "entityid" =
      (if this_entity then entityid cfg else targetValue c) ∧
    let state := prop_of (wheap w') (VRef td) "state" in
    let seen := if wrapped then prop_of (wheap w') state "new_state" else state in
    if this_entity then state = ev
    else if truthy source
    then ∃ cl, seen = VRef cl ∧ wheap w !! cl = None ∧
               wheap w' !! cl = Some (own_props (wheap w) source)
    else seen = VNull.
Proof.
  intros Hcl Hs Hsl _ this_entity wrapped source.
  set (t := fresh (dom (wheap w))).
  assert (wheap w !! t = None) as Ht by apply fresh_loc_unused.
  assert (∀ n, source = VRef n → n ≠ t) as Hsrc.
  { intros n Hn ->. unfold source in Hn.
    destruct (truthy (targetValue c)).
    - destruct (so !! to_key (targetValue c)) as [v|] eqn:E; [|done].
      simpl in Hn. subst v.
      pose proof (heap_closed_lookup _ _ _ _ _ Hcl Hsl E) as [x Hx].
      congruence.
    - injection Hn as <-. congruence. }
  unfold getConstraintTargetData. subst this_entity wrapped. mstep.
  case_bool_decide as Hthis; simpl.
  - rewrite targetData_begin_this by done. simpl.
    unfold write_prop, with_heap. simpl. fold t.
    eexists _, _. split; [reflexivity|]. simpl. rewrite lookup_insert_eq. simpl.
    split_and!; try done.
    + apply extends_write_new; [done|]. by apply extends_insert_new.
    + rewrite prop_of_insert.
      rewrite lookup_insert_ne by done. by rewrite lookup_insert_eq.
    + rewrite prop_of_insert. by rewrite lookup_insert_eq.
  - rewrite targetData_begin_other by done. cbv zeta. fold t.
    set (w1 := with_heap _ w).
    assert (sl ≠ t) as Hslt by congruence.
    set (cl := fresh (dom (wheap w1))).
    assert (wheap w1 !! cl = None) as Hcl1 by apply fresh_loc_unused.
    assert (cl ≠ t) as Hclt.
    { intros Heq. rewrite Heq in Hcl1. unfold w1 in Hcl1. simpl in Hcl1.
      fold t in Hcl1. by rewrite lookup_insert_eq in Hcl1. }
    assert (wheap w !! cl = None) as Hcl0.
    { unfold w1 in Hcl1. simpl in Hcl1. fold t in Hcl1.
      by rewrite lookup_insert_ne in Hcl1. }
    assert (getStates (targetValue c) (VBool false) w1 =
            if truthy source
            then (Ret (VRef cl),
                  with_heap (λ h, <[cl := own_props (wheap w) source]> h) w1)
            else (Ret VNull, w1)) as ->.
    { unfold getStates, read_prop, object_keys_length, spread, alloc, get_heap.
      mstep. rewrite Hs. simpl. fold t. subst source. revert Hsrc.
      destruct (truthy (targetValue c)) eqn:Hid; simpl; intros Hsrc.
      - rewrite prop_of_frame by (by intros ? [= <-]).
        rewrite (prop_of_lookup _ _ _ _ Hsl).
        destruct (truthy (default VUndef (so !! to_key (targetValue c)))) eqn:Hrec;
          simpl; [|done].
        rewrite own_props_frame; done.
      - rewrite own_props_frame by (by intros ? [= <-]). done. }
    set (o1 := <["entityid" := targetValue c]>
                 (<["entityid" := VNull]> ({["state" := VNull]} : gmap string value))).
    assert (wheap w1 !! t = Some o1) as Ht1.
    { unfold w1. simpl. fold t. by rewrite lookup_insert_eq. }
    assert (extends (wheap w) (wheap w1)) as Hext1.
    { unfold w1. simpl. apply extends_alloc. }
    assert (heap_only w w1) as Hho1 by done.
    destruct (truthy source) eqn:Hsource; simpl.
    + set (w2 := with_heap (λ h, <[cl := own_props (wheap w) source]> h) w1).
      assert (wheap w2 !! t = Some o1) as Ht2.
      { unfold w2. simpl. by rewrite lookup_insert_ne. }
      assert (wheap w2 !! cl = Some (own_props (wheap w) source)) as Hcl2.
      { unfold w2. simpl. by rewrite lookup_insert_eq. }
      assert (extends (wheap w) (wheap w2)) as Hext2.
      { unfold w2. simpl. by apply extends_write_new. }
      set (w3 := with_heap _ w2).
      assert (wheap w3 !! t = Some (<["state" := VRef cl]> o1)) as Ht3.
      { unfold w3. by rewrite wheap_write, lookup_insert_eq, Ht2. }
      assert (wheap w3 !! cl = Some (own_props (wheap w) source)) as Hcl3.
      { unfold w3. by rewrite wheap_write, lookup_insert_ne. }
      assert (extends (wheap w) (wheap w3)) as Hext3.
      { unfold w3. rewrite wheap_write. by apply extends_write_new. }
      assert (heap_only w w3) as Hho3 by done.
      clearbody w3. clear w2 Ht2 Hcl2 Hext2. clearbody w1.
      case_bool_decide as Hcur; simpl.
      * set (wr := fresh (dom (wheap w3))).
        assert (wheap w3 !! wr = None) as Hwr by apply fresh_loc_unused.
        assert (wr ≠ t) as Hwrt by congruence.
        assert (wr ≠ cl) as Hwrc by congruence.
        assert (wheap w !! wr = None) as Hwr0.
        { destruct (wheap w !! wr) eqn:E; [|done].
          rewrite <- (Hext3 wr), Hwr in E by (rewrite E; eauto). done. }
        exists t. eexists. split; [reflexivity|]. simpl.
        rewrite (lookup_insert_ne (wheap w3) wr t) by done. rewrite Ht3. simpl.
        split_and!; try done.
        -- eapply heap_only_trans; [exact Hho3|done].
        -- apply extends_write_new; [done|]. by apply extends_write_new.
        -- rewrite prop_of_insert. rewrite lookup_insert_ne by done.
           unfold o1. rewrite lookup_insert_ne by done.
           by rewrite lookup_insert_eq.
        -- exists cl. rewrite prop_of_insert, lookup_insert_eq. simpl.
           rewrite prop_of_frame by (intros ? [= <-]; done).
           rewrite prop_of_insert, lookup_singleton_eq. simpl.
           rewrite (prop_of_lookup _ _ _ _ Ht3), lookup_insert_eq. simpl.
           split_and!; try done.
           rewrite !lookup_insert_ne by done. done.
      * exists t. eexists. split; [reflexivity|]. simpl.
        split_and!; try done.
        -- rewrite (prop_of_lookup _ _ _ _ Ht3).
           rewrite lookup_insert_ne by done.
           unfold o1. by rewrite lookup_insert_eq.
        -- exists cl. rewrite (prop_of_lookup _ _ _ _ Ht3), lookup_insert_eq.
           done.
    + set (w3 := with_heap _ w1).
      assert (wheap w3 !! t = Some (<["state" := VNull]> o1)) as Ht3.
      { unfold w3. by rewrite wheap_write, lookup_insert_eq, Ht1. }
      assert (extends (wheap w) (wheap w3)) as Hext3.
      { unfold w3. rewrite wheap_write. by apply extends_write_new. }
      assert (heap_only w w3) as Hho3 by done.
      clearbody w3. clearbody w1.
      case_bool_decide as Hcur; simpl.
      * set (wr := fresh (dom (wheap w3))).
        assert (wheap w3 !! wr = None) as Hwr by apply fresh_loc_unused.
        assert (wr ≠ t) as Hwrt by congruence.
        assert (wheap w !! wr = None) as Hwr0.
        { destruct (wheap w !! wr) eqn:E; [|done].
          rewrite <- (Hext3 wr), Hwr in E by (rewrite E; eauto). done. }
        exists t. eexists. split; [reflexivity|]. simpl.
        rewrite (lookup_insert_ne (wheap w3) wr t) by done. rewrite Ht3. simpl.
        split_and!; try done.
        -- eapply heap_only_trans; [exact Hho3|done].
        -- apply extends_write_new; [done|]. by apply extends_write_new.
        -- rewrite prop_of_insert. rewrite lookup_insert_ne by done.
           unfold o1. rewrite lookup_insert_ne by done.
           by rewrite lookup_insert_eq.
        -- rewrite prop_of_insert, lookup_insert_eq. simpl.
           rewrite prop_of_frame by (intros ? [= <-]; done).
           rewrite prop_of_insert, lookup_singleton_eq. simpl.
           by rewrite (prop_of_lookup _ _ _ _ Ht3), lookup_insert_eq.
      * exists t. eexists. split; [reflexivity|]. simpl.
        split_and!; try done.
        -- rewrite (prop_of_lookup _ _ _ _ Ht3).
           rewrite lookup_insert_ne by done.
           unfold o1. by rewrite lookup_insert_eq.
        -- by rewrite (prop_of_lookup _ _ _ _ Ht3), lookup_insert_eq.
Qed.

End target_data.

Section monad_steps.
Implicit Types (w : World).

Lemma bind_run {A B} (m : M A) (k : A → M B) w r w1 :
  m w = (r, w1) →
  (m ≫= k) w = match r with
               | Ret a => k a w1
               | Throw e => (Throw e, w1)
               end.
Proof. intros Hm. unfold mbind, M_bind. by rewrite Hm. Qed.

(** A handler that swallows: the call returns, the effects stay. *)
Lemma try_catch_swallow (m : M unit) w :
  try_catch m (λ _, mret tt) w = (Ret tt, (m w).2).
Proof. unfold try_catch. by destruct (m w) as [[[]|e] w']. Qed.

Lemma extends_alloc_trans (h hc : heap) (o : obj) :
  extends h hc → extends h (<[fresh (dom hc) := o]> hc).
Proof. intros Hext. eapply extends_trans; [done|apply extends_alloc]. Qed.

Lemma extends_fresh (h hc : heap) :
  extends h hc → h !! fresh (dom hc) = None.
Proof.
  intros Hext. destruct (h !! fresh (dom hc)) eqn:E; [|done].
  rewrite <- Hext, fresh_loc_unused in E by (rewrite E; eauto). done.
Qed.
End monad_steps.

Section round_invariant.
Implicit Types (h hc : heap) (w : World) (rec : value) (r : loc) (EO MO o : obj).

Lemma round_inv_write h rec e1 e3 EO MO hc r o :
  rec = VRef r → round_inv h rec e1 e3 EO MO hc →
  round_inv h rec e1 e3 EO MO (<[r := o]> hc).
Proof.
  intros -> (Hdom & Hfr & He1 & He3 & Hc1 & Hc3 & HM & HO & HN & [x Hr]).
  assert (r ≠ e1) by congruence. assert (r ≠ e3) by congruence.
  split_and!; try done.
  - intros p Hp. destruct (decide (p = r)) as [->|].
    + rewrite lookup_insert_eq. eauto.
    + rewrite lookup_insert_ne by done. by apply Hdom.
  - intros p Hp Hne. rewrite lookup_insert_ne by congruence. by apply Hfr.
  - by rewrite lookup_insert_ne.
  - by rewrite lookup_insert_ne.
  - by exists x.
Qed.

Lemma round_inv_extends h rec e1 e3 EO MO hc hc' :
  round_inv h rec e1 e3 EO MO hc → extends hc hc' →
  round_inv h rec e1 e3 EO MO hc'.
Proof.
  intros (Hdom & Hfr & He1 & He3 & Hc1 & Hc3 & HM & HO & HN & Hal) Hext.
  split_and!; try done.
  - intros p Hp. rewrite Hext; by apply Hdom.
  - intros p Hp Hne. rewrite Hext by (by apply Hdom). by apply Hfr.
  - rewrite Hext; [done|]. rewrite Hc1. eauto.
  - rewrite Hext; [done|]. rewrite Hc3. eauto.
Qed.

(** Reading [eventMessage.event.old_state] or [.new_state]. *)
Lemma round_inv_target h rec e1 e3 EO MO w (which : string) :
  round_inv h rec e1 e3 EO MO (wheap w) →
  which = "old_state" ∨ which = "new_state" →
  get_path (VRef e3) ["event"; which] w = (Ret rec, w).
Proof.
  intros (_ & _ & _ & _ & Hc1 & Hc3 & HM & HO & HN & _) Hwhich.
  unfold get_path, read_prop. mstep.
  rewrite (prop_of_lookup _ _ _ _ Hc3), HM. simpl.
  rewrite (prop_of_lookup _ _ _ _ Hc1).
  by destruct Hwhich as [-> | ->]; rewrite ?HO, ?HN.
Qed.

Lemma round_inv_field h rec e1 e3 EO MO w (which key : string) :
  round_inv h rec e1 e3 EO MO (wheap w) →
  which = "old_state" ∨ which = "new_state" →
  get_path (VRef e3) ["event"; which; key] w = read_prop rec key w.
Proof.
  intros (_ & _ & _ & _ & Hc1 & Hc3 & HM & HO & HN & _) Hwhich.
  unfold get_path. mstep. unfold read_prop at 1. 
  rewrite (prop_of_lookup _ _ _ _ Hc3), HM. simpl.
  unfold read_prop at 1.
  rewrite (prop_of_lookup _ _ _ _ Hc1).
  assert (default VUndef (EO !! which) = rec) as ->
    by (by destruct Hwhich as [-> | ->]; rewrite ?HO, ?HN).
  by destruct rec.
Qed.
End round_invariant.

Section round_steps.
Context `{NodeExternals}.
Implicit Types (h hc : heap) (w : World) (rec : value) (r : loc) (EO MO o : obj)
  (cfg : NodeConfig).

Lemma write_prop_ref (l : loc) k (v : value) w :
  write_prop (VRef l) k v w =
    (Ret tt, with_heap (λ h, <[l := <[k := v]> (default ∅ (h !! l))]> h) w).
Proof. done. Qed.

Lemma write_prop_primitive (target : value) k (v : value) w :
  is_object target = false → write_prop target k v w = (Throw TypeError, w).
Proof. by destruct target. Qed.

Lemma read_prop_nullish (v : value) k w :
  v = VUndef ∨ v = VNull → read_prop v k w = (Throw TypeError, w).
Proof. by intros [-> | ->]. Qed.

Lemma read_prop_value (v : value) k w :
  v ≠ VUndef → v ≠ VNull → read_prop v k w = (Ret (prop_of (wheap w) v k), w).
Proof. by destruct v. Qed.

(** One conversion: whatever happens, only the record can change; on a
    record that is an object, with a cast that returns, the state is
    replaced and the value it had is kept as [original_state]. *)
Lemma convert_state_spec cfg h rec e1 e3 EO MO w (which : string) :
  round_inv h rec e1 e3 EO MO (wheap w) →
  which = "old_state" ∨ which = "new_state" →
  ∃ res w', convert_state cfg (VRef e3) which w = (res, w') ∧
    heap_only w w' ∧ round_inv h rec e1 e3 EO MO (wheap w') ∧
    ∀ r o c, rec = VRef r → wheap w !! r = Some o →
      getCastValue (state_type cfg) (default VUndef (o !! "state")) = Ret c →
      res = Ret tt ∧
      wheap w' !! r = Some (converted (default VUndef (o !! "state")) c o).
Proof.
  intros Hinv Hwhich. unfold convert_state.
  pose proof (round_inv_field _ _ _ _ _ _ w which "state" Hinv Hwhich) as E1.
  destruct (decide (rec = VUndef ∨ rec = VNull)) as [Hnull|Hnn].
  { rewrite (read_prop_nullish _ _ _ Hnull) in E1.
    rewrite (bind_run _ _ _ _ _ E1).
    eexists _, _. split; [reflexivity|]. split; [apply heap_only_refl|].
    split; [done|]. intros r o c ->. by destruct Hnull. }
  rewrite read_prop_value in E1 by tauto.
  rewrite (bind_run _ _ _ _ _ E1).
  rewrite (bind_run _ _ _ _ _ (round_inv_target _ _ _ _ _ _ w which Hinv Hwhich)).
  destruct (is_object rec) eqn:Hobj.
  2: { rewrite (bind_run _ _ _ _ _ (write_prop_primitive _ _ _ _ Hobj)).
       eexists _, _. split; [reflexivity|]. split; [apply heap_only_refl|].
       split; [done|]. intros r o c ->. done. }
  destruct rec as [| | | | |r]; try done.
  rewrite (bind_run _ _ _ _ _ (write_prop_ref _ _ _ _)).
  set (s := prop_of (wheap w) (VRef r) "state").
  set (w1 := with_heap _ w).
  assert (heap_only w w1) as Hho1 by done.
  assert (wheap w1 = <[r := <["original_state" := s]> (default ∅ (wheap w !! r))]> (wheap w))
    as Hh1 by done.
  assert (round_inv h (VRef r) e1 e3 EO MO (wheap w1)) as Hinv1.
  { rewrite Hh1. by apply round_inv_write. }
  clearbody w1.
  pose proof (round_inv_field _ _ _ _ _ _ w1 which "state" Hinv1 Hwhich) as E2.
  rewrite read_prop_value in E2 by done.
  rewrite (bind_run _ _ _ _ _ E2).
  assert (prop_of (wheap w1) (VRef r) "state" = s) as ->.
  { rewrite Hh1, prop_of_insert. rewrite lookup_insert_ne by done.
    unfold s, prop_of, own_props. by destruct (wheap w !! r) as [o|]; simpl;
      [destruct (o !! "state")|]. }
  unfold external at 1.
  destruct (getCastValue (state_type cfg) s) as [c|e] eqn:Hcast.
  2: { unfold mbind, M_bind. eexists _, _. split; [reflexivity|].
       split; [done|]. split; [done|].
       intros r' o c [= <-] Ho Hc. unfold s in Hcast.
       rewrite (prop_of_lookup _ _ _ _ Ho) in Hcast. congruence. }
  unfold mbind at 1, M_bind at 1.
  rewrite (bind_run _ _ _ _ _ (round_inv_target _ _ _ _ _ _ w1 which Hinv1 Hwhich)).
  rewrite write_prop_ref.
  eexists _, _. split; [reflexivity|]. split_and!.
  - eapply heap_only_trans; [exact Hho1|done].
  - rewrite wheap_write. by apply round_inv_write.
  - intros r' o c' [= <-] Ho Hc. unfold s in Hcast.
    rewrite (prop_of_lookup _ _ _ _ Ho) in Hcast.
    assert (c' = c) as -> by congruence. split; [done|].
    rewrite wheap_write, lookup_insert_eq, Hh1, lookup_insert_eq, Ho. simpl.
    unfold converted, s. by rewrite (prop_of_lookup _ _ _ _ Ho).
Qed.

(** The target object of a constraint is new: building it changes no
    object that existed, whatever [getStates] does. *)
Lemma targetData_begin_allocates cfg c (ev : value) w :
  heap_only w (targetData_begin cfg c ev w).2 ∧
  extends (wheap w) (wheap (targetData_begin cfg c ev w).2) ∧
  ∀ td st, (targetData_begin cfg c ev w).1 = Ret (td, st) →
    td = VRef (fresh (dom (wheap w))) ∧
    is_Some (wheap (targetData_begin cfg c ev w).2 !! fresh (dom (wheap w))).
Proof.
  destruct (decide (targetType c = VStr "this_entity")) as [Hthis|Hthis].
  - rewrite targetData_begin_this by done. simpl. split; [done|].
    split; [apply extends_alloc|]. intros td st [= <- _].
    rewrite lookup_insert_eq. eauto.
  - rewrite targetData_begin_other by done. cbv zeta.
    set (w1 := with_heap _ w).
    assert (heap_only w w1) as Hho1 by done.
    assert (extends (wheap w) (wheap w1)) as Hext1 by apply extends_alloc.
    assert (is_Some (wheap w1 !! fresh (dom (wheap w)))) as Ht1.
    { unfold w1. simpl. rewrite lookup_insert_eq. eauto. }
    clearbody w1.
    destruct (getStates_allocates (targetValue c) (VBool false) w1) as [Hho2 Hext2].
    destruct (getStates (targetValue c) (VBool false) w1) as [[s|e] w2]; simpl in *.
    + split; [by eapply heap_only_trans|].
      split; [by eapply extends_trans|].
      intros td st [= <- _]. split; [done|]. by rewrite Hext2.
    + split; [by eapply heap_only_trans|].
      split; [by eapply extends_trans|]. done.
Qed.

Lemma getConstraintTargetData_allocates cfg c (ev : value) w :
  heap_only w (getConstraintTargetData cfg c ev w).2 ∧
  extends (wheap w) (wheap (getConstraintTargetData cfg c ev w).2).
Proof.
  unfold getConstraintTargetData.
  destruct (targetData_begin_allocates cfg c ev w) as (Hho1 & Hext1 & Htd).
  destruct (targetData_begin cfg c ev w) as [[[td st]|e] w1] eqn:E1; simpl in *.
  2: { rewrite (bind_run _ _ _ _ _ E1). done. }
  destruct (Htd td st eq_refl) as [-> [o1 Ho1]].
  set (t := fresh (dom (wheap w))) in *.
  assert (wheap w !! t = None) as Ht by apply fresh_loc_unused.
  rewrite (bind_run _ _ _ _ _ E1). simpl.
  rewrite (bind_run _ _ _ _ _ (write_prop_ref _ _ _ _)).
  set (w2 := with_heap _ w1).
  assert (heap_only w w2) as Hho2 by (by eapply heap_only_trans).
  assert (extends (wheap w) (wheap w2)) as Hext2.
  { unfold w2. rewrite wheap_write. by apply extends_write_new. }
  clearbody w2.
  destruct (negb _ && _).
  - unfold mbind, M_bind, mret, M_ret, alloc, read_prop, write_prop. simpl.
    split.
    + eapply heap_only_trans; [exact Hho2|done].
    + apply extends_write_new; [done|]. by apply extends_alloc_trans.
  - unfold mbind, M_bind, mret, M_ret. simpl. done.
Qed.

Lemma getConstraintComparatorResults_start_allocates cfg (msg : value) w :
  heap_only w (getConstraintComparatorResults_start cfg msg w).2 ∧
  extends (wheap w) (wheap (getConstraintComparatorResults_start cfg msg w).2).
Proof.
  unfold getConstraintComparatorResults_start.
  destruct (constraints cfg) as [|c _].
  { split; [apply heap_only_refl|apply extends_refl]. }
  destruct (decide (msg = VUndef ∨ msg = VNull)) as [Hnull|Hnn].
  { rewrite (bind_run _ _ _ _ _ (read_prop_nullish _ _ _ Hnull)).
    split; [apply heap_only_refl|apply extends_refl]. }
  rewrite (bind_run _ _ _ _ _ (read_prop_value msg "event" w ltac:(tauto) ltac:(tauto))).
  case_bool_decide.
  - destruct (getConstraintTargetData_allocates cfg c (prop_of (wheap w) msg "event") w)
      as [Hho Hext].
    unfold mbind, M_bind.
    by destruct (getConstraintTargetData cfg c _ w) as [[?|?] ?].
  - destruct (targetData_begin_allocates cfg c (prop_of (wheap w) msg "event") w)
      as (Hho & Hext & _).
    unfold mbind, M_bind.
    by destruct (targetData_begin cfg c _ w) as [[?|?] ?].
Qed.

Lemma cast_result_last_changed casts (ro : obj) :
  cast_result casts ro !! "last_changed" = ro !! "last_changed".
Proof.
  destruct casts as [[c1 c2]|]; [|done]. unfold cast_result, converted.
  by rewrite !lookup_insert_ne.
Qed.

(** The conversion of both states. *)
Lemma cast_block_spec cfg h rec e1 e3 EO MO w :
  round_inv h rec e1 e3 EO MO (wheap w) → truthy rec = true →
  ∃ res w',
    (if truthy (state_type cfg) && negb (bool_decide (state_type cfg = VStr "str"))
     then
       old_state ← get_path (VRef e3) ["event"; "old_state"];
       (if truthy old_state then convert_state cfg (VRef e3) "old_state"
        else mret tt) ;;
       convert_state cfg (VRef e3) "new_state"
     else mret tt) w = (res, w') ∧
    heap_only w w' ∧ round_inv h rec e1 e3 EO MO (wheap w') ∧
    ∀ r ro casts, rec = VRef r → wheap w !! r = Some ro → cast_ok cfg casts ro →
      res = Ret tt ∧ wheap w' !! r = Some (cast_result casts ro).
Proof.
  intros Hinv Htr.
  destruct (truthy (state_type cfg) && negb (bool_decide (state_type cfg = VStr "str")))
    eqn:Hcast.
  2: { eexists _, _. split; [reflexivity|]. split; [apply heap_only_refl|].
       split; [done|]. intros r ro [[c1 c2]|] -> Hro Hok; simpl in Hok.
       - unfold casting in Hok. destruct Hok as [Hok _]. congruence.
       - done. }
  rewrite (bind_run _ _ _ _ _
             (round_inv_target _ _ _ _ _ _ w "old_state" Hinv ltac:(by left))).
  rewrite Htr.
  destruct (convert_state_spec cfg _ _ _ _ _ _ w "old_state" Hinv ltac:(by left))
    as (res1 & w1 & E1 & Hho1 & Hinv1 & Hhit1).
  rewrite (bind_run _ _ _ _ _ E1).
  destruct res1 as [[]|e].
  2: { eexists _, _. split; [reflexivity|]. split; [done|]. split; [done|].
       intros r ro [[c1 c2]|] -> Hro Hok; simpl in Hok.
       - destruct Hok as (_ & Hc1 & _).
         by destruct (Hhit1 _ _ _ eq_refl Hro Hc1).
       - unfold casting in Hok. congruence. }
  destruct (convert_state_spec cfg _ _ _ _ _ _ w1 "new_state" Hinv1 ltac:(by right))
    as (res2 & w2 & E2 & Hho2 & Hinv2 & Hhit2).
  exists res2, w2. split; [done|]. split; [by eapply heap_only_trans|].
  split; [done|].
  intros r ro [[c1 c2]|] -> Hro Hok; simpl in Hok.
  - destruct Hok as (_ & Hc1 & Hc2).
    destruct (Hhit1 _ _ _ eq_refl Hro Hc1) as [_ Hr1].
    assert (default VUndef
              (converted (default VUndef (ro !! "state")) c1 ro !! "state") = c1)
      as Hs1 by (unfold converted; by rewrite lookup_insert_eq).
    destruct (Hhit2 _ _ c2 eq_refl Hr1) as [-> Hr2]; [by rewrite Hs1|].
    rewrite Hs1 in Hr2. done.
  - unfold casting in Hok. congruence.
Qed.

Lemma spread_ref (l : loc) o w :
  wheap w !! l = Some o →
  spread (VRef l) w =
    (Ret (VRef (fresh (dom (wheap w)))),
     with_heap (λ h, <[fresh (dom (wheap w)) := o]> h) w).
Proof.
  intros Hl. unfold spread, alloc, get_heap. mstep.
  unfold own_props. by rewrite Hl.
Qed.

Lemma selectn_event_new_state (e1 e2 : loc) EO MO rec w :
  wheap w !! e2 = Some MO → MO !! "event" = Some (VRef e1) →
  wheap w !! e1 = Some EO → EO !! "new_state" = Some rec →
  selectn ["event"; "new_state"] (VRef e2) w = (Ret rec, w).
Proof.
  intros H2 HM H1 HN. unfold selectn. simpl.
  rewrite (prop_of_lookup _ _ _ _ H2), HM. simpl.
  by rewrite (prop_of_lookup _ _ _ _ H1), HN.
Qed.

(** [onEntityStateChanged] on a message that [onStatesLoaded] built for
    the record [rec] in the heap [h]: it returns to its caller; of the
    objects of [h] only the record can have changed; and when the node is
    enabled, the filter lets the entity through and the casts return, the
    record is the converted and stamped one. *)
Lemma onEntityStateChanged_start_built node tick h rec (e1 e2 : loc) EO MO
    (k : string) w :
  extends h (wheap w) → h !! e1 = None → h !! e2 = None → e1 ≠ e2 →
  wheap w !! e1 = Some EO → wheap w !! e2 = Some MO →
  MO !! "event" = Some (VRef e1) → MO !! "entity_id" = Some (VStr k) →
  EO !! "old_state" = Some rec → EO !! "new_state" = Some rec →
  value_allocated h rec →
  ∃ w', onEntityStateChanged_start node tick (VRef e2) w = (Ret tt, w') ∧
    heap_only w w' ∧
    (∀ p, is_Some (h !! p) → is_Some (wheap w' !! p)) ∧
    (∀ p, is_Some (h !! p) → VRef p ≠ rec → wheap w' !! p = h !! p) ∧
    ∀ r ro casts inc, rec = VRef r → h !! r = Some ro →
      isEnabled node ≠ VBool false →
      shouldIncludeEvent (VStr k) (entityid (nodeConfig node))
        (entityidfiltertype (nodeConfig node)) = Ret inc →
      truthy inc = true →
      cast_ok (nodeConfig node) casts ro →
      wheap w' !! r = Some (deployed_record tick casts ro).
Proof.
  intros Hext He1 He2 He12 Hw1 Hw2 HM Hid HO HN Hal.
  unfold onEntityStateChanged_start. rewrite try_catch_swallow.
  match goal with |- context [(?m w).2] => set (body := m) end.
  cut (∃ res w', body w = (res, w') ∧ heap_only w w' ∧
         (∀ p, is_Some (h !! p) → is_Some (wheap w' !! p)) ∧
         (∀ p, is_Some (h !! p) → VRef p ≠ rec → wheap w' !! p = h !! p) ∧
         ∀ r ro casts inc, rec = VRef r → h !! r = Some ro →
           isEnabled node ≠ VBool false →
           shouldIncludeEvent (VStr k) (entityid (nodeConfig node))
             (entityidfiltertype (nodeConfig node)) = Ret inc →
           truthy inc = true →
           cast_ok (nodeConfig node) casts ro →
           wheap w' !! r = Some (deployed_record tick casts ro)).
  { intros (res & w' & E & ?). exists w'. by rewrite E. }
  unfold body. clear body.
  assert (∀ p, is_Some (h !! p) → is_Some (wheap w !! p)) as Hdom0
    by (intros p Hp; by rewrite Hext).
  assert (∀ p, is_Some (h !! p) → VRef p ≠ rec → wheap w !! p = h !! p) as Hfr0
    by (intros p Hp _; by apply Hext).
  case_bool_decide as Hen.
  { eexists _, _. split; [reflexivity|]. split; [apply heap_only_refl|].
    split_and!; done. }
  rewrite (bind_run _ _ _ _ _ (selectn_event_new_state e1 e2 EO MO rec w Hw2 HM Hw1 HN)).
  destruct (truthy rec) eqn:Htr; simpl.
  2: { eexists _, _. split; [reflexivity|]. split; [apply heap_only_refl|].
       split_and!; try done; intros r ro casts inc ->; done. }
  rewrite (bind_run _ _ _ _ _ (spread_ref e2 MO w Hw2)).
  set (e3 := fresh (dom (wheap w))).
  assert (wheap w !! e3 = None) as Hw3 by apply fresh_loc_unused.
  assert (h !! e3 = None) as He3 by (by apply extends_fresh).
  set (w3 := with_heap _ w).
  assert (heap_only w w3) as Hho3 by done.
  assert (round_inv h rec e1 e3 EO MO (wheap w3)) as Hinv3.
  { unfold w3. simpl. split_and!; try done.
    - intros p Hp. rewrite lookup_insert_ne; [by apply Hdom0|].
      intros <-. rewrite He3 in Hp. by destruct Hp.
    - intros p Hp Hne. rewrite lookup_insert_ne; [by apply Hfr0|].
      intros <-. rewrite He3 in Hp. by destruct Hp.
    - rewrite lookup_insert_ne; [done|]. congruence.
    - by rewrite lookup_insert_eq. }
  assert (wheap w3 !! e3 = Some MO) as Hm3 by apply Hinv3.
  assert (∀ r ro, rec = VRef r → h !! r = Some ro → wheap w3 !! r = Some ro) as Hr3.
  { intros r ro -> Hro. unfold w3. simpl.
    rewrite lookup_insert_ne by congruence. rewrite Hext; [done|]. rewrite Hro. eauto. }
  clearbody w3.
  rewrite (bind_run _ _ _ _ _
             (read_prop_value (VRef e3) "entity_id" w3 ltac:(done) ltac:(done))).
  rewrite (prop_of_lookup _ _ _ _ Hm3), Hid. simpl.
  unfold external at 1.
  destruct (shouldIncludeEvent (VStr k) _ _) as [inc|e] eqn:Hinc.
  2: { unfold mbind at 1, M_bind at 1. eexists _, _. split; [reflexivity|].
       split; [done|]. split; [apply Hinv3|]. split; [apply Hinv3|].
       intros r ro casts inc' _ _ _ Hinc'. congruence. }
  unfold mbind at 1, M_bind at 1.
  destruct (truthy inc) eqn:Htinc; simpl.
  2: { eexists _, _. split; [reflexivity|].
       split; [done|]. split; [apply Hinv3|]. split; [apply Hinv3|].
       intros r ro casts inc' _ _ _ [= <-]. congruence. }
  destruct (cast_block_spec (nodeConfig node) _ _ _ _ _ _ w3 Hinv3 Htr)
    as (res4 & w4 & E4 & Hho4 & Hinv4 & Hhit4).
  rewrite (bind_run _ _ _ _ _ E4).
  destruct res4 as [[]|e].
  2: { eexists _, _. split; [reflexivity|].
       split; [by eapply heap_only_trans|]. split; [apply Hinv4|].
       split; [apply Hinv4|].
       intros r ro casts inc' -> Hro _ _ _ Hok.
       by destruct (Hhit4 _ _ _ eq_refl (Hr3 _ _ eq_refl Hro) Hok). }
  assert (rec ≠ VUndef ∧ rec ≠ VNull) as [Hnu Hnn] by (by destruct rec).
  pose proof (round_inv_field _ _ _ _ _ _ w4 "new_state" "last_changed" Hinv4
                ltac:(by right)) as Elc.
  rewrite read_prop_value in Elc by done.
  rewrite (bind_run _ _ _ _ _ Elc).
  rewrite (bind_run _ _ _ _ _
             (round_inv_target _ _ _ _ _ _ w4 "new_state" Hinv4 ltac:(by right))).
  destruct (is_object rec) eqn:Hobj.
  2: { rewrite (bind_run _ _ _ _ _ (write_prop_primitive _ _ _ _ Hobj)).
       eexists _, _. split; [reflexivity|].
       split; [by eapply heap_only_trans|]. split; [apply Hinv4|].
       split; [apply Hinv4|]. intros r ro casts inc' ->. done. }
  destruct rec as [| | | | |r]; try done.
  rewrite (bind_run _ _ _ _ _ (write_prop_ref _ _ _ _)).
  set (w5 := with_heap _ w4).
  assert (heap_only w w5) as Hho5.
  { eapply heap_only_trans; [exact Hho3|]. by eapply heap_only_trans. }
  assert (wheap w5 = <[r := <["timeSinceChangedMs" :=
              timeSinceChanged tick (prop_of (wheap w4) (VRef r) "last_changed")]>
              (default ∅ (wheap w4 !! r))]> (wheap w4)) as Hh5 by done.
  assert (round_inv h (VRef r) e1 e3 EO MO (wheap w5)) as Hinv5.
  { rewrite Hh5. by apply round_inv_write. }
  clearbody w5.
  destruct (getConstraintComparatorResults_start_allocates (nodeConfig node) (VRef e3) w5)
    as [Hho6 Hext6].
  destruct (getConstraintComparatorResults_start (nodeConfig node) (VRef e3) w5)
    as [res6 w6]. simpl in *.
  pose proof (round_inv_extends _ _ _ _ _ _ _ _ Hinv5 Hext6) as Hinv6.
  exists res6, w6. split; [done|].
  split; [by eapply heap_only_trans|]. split; [apply Hinv6|].
  split; [apply Hinv6|].
  intros r' ro casts inc' [= <-] Hro _ _ _ Hok.
  destruct (Hhit4 _ _ _ eq_refl (Hr3 _ _ eq_refl Hro) Hok) as [_ Hr4].
  rewrite Hext6 by (rewrite Hh5, lookup_insert_eq; eauto).
  rewrite Hh5, lookup_insert_eq, Hr4. simpl.
  rewrite (prop_of_lookup _ _ _ _ Hr4), cast_result_last_changed. done.
Qed.

Lemma alloc_run o w :
  alloc o w = (Ret (VRef (fresh (dom (wheap w)))),
               with_heap (λ h, <[fresh (dom (wheap w)) := o]> h) w).
Proof. done. Qed.

(** One round of [onStatesLoaded]. *)
Lemma onStatesLoaded_round_spec node (el : loc) eo tick (k : string) w :
  wheap w !! el = Some eo →
  value_allocated (wheap w) (default VUndef (eo !! k)) →
  ∃ w', onStatesLoaded_round node (VRef el) (tick, k) w = (Ret tt, w') ∧
    heap_only w w' ∧
    (∀ p, is_Some (wheap w !! p) → is_Some (wheap w' !! p)) ∧
    (∀ p, is_Some (wheap w !! p) → VRef p ≠ default VUndef (eo !! k) →
       wheap w' !! p = wheap w !! p) ∧
    ∀ r ro casts inc, default VUndef (eo !! k) = VRef r → wheap w !! r = Some ro →
      isEnabled node ≠ VBool false →
      shouldIncludeEvent (VStr k) (entityid (nodeConfig node))
        (entityidfiltertype (nodeConfig node)) = Ret inc →
      truthy inc = true →
      cast_ok (nodeConfig node) casts ro →
      wheap w' !! r = Some (deployed_record tick casts ro).
Proof.
  intros Hel Hal. set (rec := default VUndef (eo !! k)) in *.
  unfold onStatesLoaded_round. cbn [fst snd].
  pose proof (read_prop_value (VRef el) k w ltac:(done) ltac:(done)) as Er.
  rewrite (prop_of_lookup _ _ _ _ Hel) in Er. fold rec in Er.
  rewrite (bind_run _ _ _ _ _ Er). rewrite (bind_run _ _ _ _ _ Er).
  rewrite (bind_run _ _ _ _ _ (alloc_run _ w)).
  set (e1 := fresh (dom (wheap w))).
  assert (wheap w !! e1 = None) as He1 by apply fresh_loc_unused.
  set (EO := <["entity_id" := VStr k]> (<["old_state" := rec]> {["new_state" := rec]})).
  set (w1 := with_heap _ w).
  assert (heap_only w w1) as Hho1 by done.
  assert (wheap w1 = <[e1 := EO]> (wheap w)) as Hh1 by done.
  clearbody w1.
  rewrite (bind_run _ _ _ _ _ (alloc_run _ w1)).
  set (e2 := fresh (dom (wheap w1))).
  assert (wheap w1 !! e2 = None) as He2 by apply fresh_loc_unused.
  assert (e1 ≠ e2) as He12.
  { intros Heq. rewrite <- Heq, Hh1, lookup_insert_eq in He2. done. }
  assert (wheap w !! e2 = None) as He20.
  { rewrite Hh1, lookup_insert_ne in He2; done. }
  set (MO := <["event_type" := VStr "state_changed"]>
               (<["entity_id" := VStr k]> {["event" := VRef e1]})).
  set (w2 := with_heap _ w1).
  assert (heap_only w w2) as Hho2 by (by eapply heap_only_trans).
  assert (wheap w2 = <[e2 := MO]> (<[e1 := EO]> (wheap w))) as Hh2.
  { unfold w2. simpl. by rewrite Hh1. }
  clearbody w2.
  destruct (onEntityStateChanged_start_built node tick (wheap w) rec e1 e2 EO MO k w2)
    as (w' & E & Hho & Hdom & Hfr & Hhit); try done.
  - rewrite Hh2. apply extends_write_new; [done|]. by apply extends_insert_new.
  - rewrite Hh2, lookup_insert_ne, lookup_insert_eq; done.
  - by rewrite Hh2, lookup_insert_eq.
  - exists w'. split; [done|]. split; [by eapply heap_only_trans|]. done.
Qed.

Lemma forEach_app {A} (l1 l2 : list A) (f : A → M unit) w :
  forEach (l1 ++ l2) f w =
    match forEach l1 f w with
    | (Ret _, w1) => forEach l2 f w1
    | (Throw e, w1) => (Throw e, w1)
    end.
Proof.
  revert w. induction l1 as [|x l1 IH]; intros w; [done|].
  simpl. unfold mbind, M_bind. destruct (f x w) as [[[]|e] w1]; [|done].
  apply IH.
Qed.

(** The loop of [onStatesLoaded]: it returns, and an object that is not
    the record of an enumerated entity is as it was. *)
Lemma onStatesLoaded_loop node (el : loc) eo (l : list string) n w :
  wheap w !! el = Some eo →
  (∀ k, k ∈ l → value_allocated (wheap w) (default VUndef (eo !! k))) →
  (∀ k, k ∈ l → default VUndef (eo !! k) ≠ VRef el) →
  ∃ w', forEach (zip (seq n (length l)) l) (onStatesLoaded_round node (VRef el)) w
          = (Ret tt, w') ∧
    heap_only w w' ∧
    (∀ p, is_Some (wheap w !! p) → is_Some (wheap w' !! p)) ∧
    (∀ p, is_Some (wheap w !! p) →
       (∀ k, k ∈ l → default VUndef (eo !! k) ≠ VRef p) →
       wheap w' !! p = wheap w !! p).
Proof.
  revert n w. induction l as [|k l IH]; intros n w Hel Hal Hnel.
  { exists w. split; [done|]. split; [apply heap_only_refl|]. done. }
  simpl.
  destruct (onStatesLoaded_round_spec node el eo n k w Hel)
    as (w1 & E1 & Hho1 & Hdom1 & Hfr1 & _).
  { apply Hal. left. }
  rewrite (bind_run _ _ _ _ _ E1).
  assert (wheap w1 !! el = Some eo) as Hel1.
  { rewrite Hfr1; [done|by rewrite Hel|]. intros Heq.
    by apply (Hnel k); [left|]. }
  destruct (IH (S n) w1 Hel1) as (w' & E & Hho & Hdom & Hfr).
  { intros k' Hk'. specialize (Hal k' ltac:(by right)).
    destruct (default VUndef (eo !! k')); try done. by apply Hdom1. }
  { intros k' Hk'. apply Hnel. by right. }
  exists w'. split; [done|]. split; [by eapply heap_only_trans|].
  split; [intros p Hp; by apply Hdom, Hdom1|].
  intros p Hp Hnp. rewrite Hfr.
  - apply Hfr1; [done|]. intros Heq. by apply (Hnp k); [left|].
  - by apply Hdom1.
  - intros k' Hk'. apply Hnp. by right.
Qed.

Lemma zip_seq_app (pre post : list string) (k : string) :
  zip (seq 0 (length (pre ++ k :: post))) (pre ++ k :: post) =
    zip (seq 0 (length pre)) pre ++
    (length pre, k) :: zip (seq (S (length pre)) (length post)) post.
Proof.
  rewrite length_app. cbn [length]. rewrite seq_app. cbn [seq Nat.add].
  rewrite zip_with_app by (by rewrite length_seq). done.
Qed.

(** [onStatesLoaded] for a table in which exactly one enumerated key
    holds the record [r]. *)
Lemma onStatesLoaded_hit node (el : loc) eo (pre post : list string) (k : string)
    w (r : loc) ro casts inc :
  wheap w !! el = Some eo →
  (∀ k', k' ∈ pre ++ k :: post →
     value_allocated (wheap w) (default VUndef (eo !! k'))) →
  (∀ k', k' ∈ pre ++ k :: post → default VUndef (eo !! k') ≠ VRef el) →
  eo !! k = Some (VRef r) → wheap w !! r = Some ro →
  (∀ k', k' ∈ pre ++ post → eo !! k' ≠ Some (VRef r)) →
  isEnabled node ≠ VBool false →
  shouldIncludeEvent (VStr k) (entityid (nodeConfig node))
    (entityidfiltertype (nodeConfig node)) = Ret inc →
  truthy inc = true →
  cast_ok (nodeConfig node) casts ro →
  ∃ w', onStatesLoaded node (pre ++ k :: post) (VRef el) w = (Ret tt, w') ∧
    heap_only w w' ∧
    wheap w' !! r = Some (deployed_record (length pre) casts ro) ∧
    (∀ p, is_Some (wheap w !! p) →
       (∀ k', k' ∈ pre ++ k :: post → default VUndef (eo !! k') ≠ VRef p) →
       wheap w' !! p = wheap w !! p).
Proof.
  intros Hel Hal Hnel Hk Hr Huniq Hen Hinc Htinc Hok.
  assert (∀ (l : list string) k', k' ∈ l →
            (∀ k', k' ∈ l → eo !! k' ≠ Some (VRef r)) →
            default VUndef (eo !! k') ≠ VRef r) as Hne.
  { intros l k' Hk' Hl Heq. apply (Hl k' Hk').
    destruct (eo !! k') as [v|]; [|done]. simpl in Heq. by subst v. }
  unfold onStatesLoaded. rewrite zip_seq_app, forEach_app.
  destruct (onStatesLoaded_loop node el eo pre 0 w Hel)
    as (w1 & E1 & Hho1 & Hdom1 & Hfr1).
  { intros k' Hk'. apply Hal. apply elem_of_app. by left. }
  { intros k' Hk'. apply Hnel. apply elem_of_app. by left. }
  rewrite E1.
  assert (r ≠ el) as Hrel.
  { intros ->. apply (Hnel k); [|by rewrite Hk]. apply elem_of_app. right. left. }
  assert (wheap w1 !! el = Some eo) as Hel1.
  { rewrite Hfr1; [done|by rewrite Hel|].
    intros k' Hk'. apply Hnel. apply elem_of_app. by left. }
  assert (wheap w1 !! r = Some ro) as Hr1.
  { rewrite Hfr1; [done|by rewrite Hr|].
    intros k' Hk'. apply (Hne pre); [done|].
    intros k'' Hk''. apply Huniq. apply elem_of_app. by left. }
  cbn [forEach].
  destruct (onStatesLoaded_round_spec node el eo (length pre) k w1 Hel1)
    as (w2 & E2 & Hho2 & Hdom2 & Hfr2 & Hhit2).
  { rewrite Hk. simpl. rewrite Hr1. eauto. }
  rewrite (bind_run _ _ _ _ _ E2).
  assert (wheap w2 !! el = Some eo) as Hel2.
  { rewrite Hfr2; [done|by rewrite Hel1|]. rewrite Hk. simpl. congruence. }
  assert (wheap w2 !! r = Some (deployed_record (length pre) casts ro)) as Hr2.
  { apply (Hhit2 r ro casts inc); try done. by rewrite Hk. }
  destruct (onStatesLoaded_loop node el eo post (S (length pre)) w2 Hel2)
    as (w3 & E3 & Hho3 & Hdom3 & Hfr3).
  { intros k' Hk'.
    specialize (Hal k' ltac:(apply elem_of_app; right; by right)).
    destruct (default VUndef (eo !! k')); try done. by apply Hdom2, Hdom1. }
  { intros k' Hk'. apply Hnel. apply elem_of_app. right. by right. }
  exists w3. split; [done|].
  split; [eapply heap_only_trans; [exact Hho1|]; by eapply heap_only_trans|].
  split.
  - rewrite Hfr3; [done|by rewrite Hr2|].
    intros k' Hk'. apply (Hne post); [done|].
    intros k'' Hk''. apply Huniq. apply elem_of_app. by right.
  - intros p Hp Hnp. rewrite Hfr3, Hfr2, Hfr1; try done.
    + intros k' Hk'. apply Hnp. apply elem_of_app. by left.
    + by apply Hdom1.
    + intros Heq. apply (Hnp k); [|done]. apply elem_of_app. right. left.
    + by apply Hdom2, Hdom1.
    + intros k' Hk'. apply Hnp. apply elem_of_app. right. by right.
Qed.

Lemma getStates_all (sl : loc) so w :
  states (this w) = VRef sl → wheap w !! sl = Some so →
  getStates VUndef (VBool false) w =
    (Ret (VRef (fresh (dom (wheap w)))),
     with_heap (λ h, <[fresh (dom (wheap w)) := so]> h) w).
Proof.
  intros Hs Hsl. unfold getStates, object_keys_length. mstep. rewrite Hs. simpl.
  by rewrite (spread_ref sl so w Hsl).
Qed.

Lemma heap_closed_record h (sl : loc) so (k : string) :
  heap_closed h → h !! sl = Some so →
  value_allocated h (default VUndef (so !! k)).
Proof.
  intros Hcl Hsl. destruct (so !! k) as [v|] eqn:E; [|done]. simpl.
  by eapply heap_closed_lookup.
Qed.

(** [onDeploy] on a cache whose table is an object of a closed heap. *)
Lemma onDeploy_frame node (order : list string) w (sl : loc) so :
  heap_closed (wheap w) →
  states (this w) = VRef sl → wheap w !! sl = Some so →
  ∃ w', onDeploy node order w = (Ret tt, w') ∧ heap_only w w' ∧
    ∀ p, is_Some (wheap w !! p) →
      (∀ k, k ∈ order → so !! k ≠ Some (VRef p)) →
      wheap w' !! p = wheap w !! p.
Proof.
  intros Hcl Hs Hsl. unfold onDeploy, onStatesLoaded.
  rewrite (bind_run _ _ _ _ _ (getStates_all sl so w Hs Hsl)).
  set (el := fresh (dom (wheap w))).
  assert (wheap w !! el = None) as Hel0 by apply fresh_loc_unused.
  set (w1 := with_heap _ w).
  assert (heap_only w w1) as Hho1 by done.
  assert (wheap w1 = <[el := so]> (wheap w)) as Hh1 by done.
  clearbody w1.
  assert (∀ k, value_allocated (wheap w) (default VUndef (so !! k))) as Hal
    by (intros k; by eapply heap_closed_record).
  destruct (onStatesLoaded_loop node el so order 0 w1)
    as (w' & E & Hho & Hdom & Hfr).
  { by rewrite Hh1, lookup_insert_eq. }
  { intros k _. specialize (Hal k).
    destruct (default VUndef (so !! k)) as [| | | | |n]; try done.
    simpl in *. rewrite Hh1, lookup_insert_ne; [done|].
    intros <-. rewrite Hel0 in Hal. by destruct Hal. }
  { intros k _ Heq. specialize (Hal k). rewrite Heq in Hal.
    simpl in Hal. rewrite Hel0 in Hal. by destruct Hal. }
  exists w'. split; [done|]. split; [by eapply heap_only_trans|].
  intros p Hp Hnp.
  assert (p ≠ el) as Hpel by (intros ->; rewrite Hel0 in Hp; by destruct Hp).
  rewrite Hfr.
  - rewrite Hh1. by rewrite lookup_insert_ne.
  - rewrite Hh1. by rewrite lookup_insert_ne.
  - intros k Hk Heq. apply (Hnp k Hk).
    destruct (so !! k) as [v|]; [|done]. simpl in Heq. by subst v.
Qed.

Lemma onDeploy_record node (pre post : list string) (k : string) w
    (sl r : loc) so ro casts inc :
  heap_closed (wheap w) →
  states (this w) = VRef sl → wheap w !! sl = Some so →
  so !! k = Some (VRef r) → wheap w !! r = Some ro →
  (∀ k', k' ∈ pre ++ post → so !! k' ≠ Some (VRef r)) →
  isEnabled node ≠ VBool false →
  shouldIncludeEvent (VStr k) (entityid (nodeConfig node))
    (entityidfiltertype (nodeConfig node)) = Ret inc →
  truthy inc = true →
  cast_ok (nodeConfig node) casts ro →
  ∃ w', onDeploy node (pre ++ k :: post) w = (Ret tt, w') ∧ heap_only w w' ∧
    wheap w' !! r = Some (deployed_record (length pre) casts ro) ∧
    ∀ p, is_Some (wheap w !! p) →
      (∀ k', k' ∈ pre ++ k :: post → so !! k' ≠ Some (VRef p)) →
      wheap w' !! p = wheap w !! p.
Proof.
  intros Hcl Hs Hsl Hk Hr Huniq Hen Hinc Htinc Hok. unfold onDeploy.
  rewrite (bind_run _ _ _ _ _ (getStates_all sl so w Hs Hsl)).
  set (el := fresh (dom (wheap w))).
  assert (wheap w !! el = None) as Hel0 by apply fresh_loc_unused.
  set (w1 := with_heap _ w).
  assert (heap_only w w1) as Hho1 by done.
  assert (wheap w1 = <[el := so]> (wheap w)) as Hh1 by done.
  clearbody w1.
  assert (r ≠ el) as Hrel by congruence.
  assert (∀ k, value_allocated (wheap w) (default VUndef (so !! k))) as Hal
    by (intros k'; by eapply heap_closed_record).
  destruct (onStatesLoaded_hit node el so pre post k w1 r ro casts inc)
    as (w' & E & Hho & Hr' & Hfr); try done.
  { by rewrite Hh1, lookup_insert_eq. }
  { intros k' _. specialize (Hal k').
    destruct (default VUndef (so !! k')) as [| | | | |n]; try done.
    simpl in *. rewrite Hh1, lookup_insert_ne; [done|].
    intros <-. rewrite Hel0 in Hal. by destruct Hal. }
  { intros k' _ Heq. specialize (Hal k'). rewrite Heq in Hal.
    simpl in Hal. rewrite Hel0 in Hal. by destruct Hal. }
  { by rewrite Hh1, lookup_insert_ne. }
  exists w'. split; [done|]. split; [by eapply heap_only_trans|].
  split; [done|].
  intros p Hp Hnp.
  assert (p ≠ el) as Hpel by (intros ->; rewrite Hel0 in Hp; by destruct Hp).
  rewrite Hfr.
  - rewrite Hh1. by rewrite lookup_insert_ne.
  - rewrite Hh1. by rewrite lookup_insert_ne.
  - intros k' Hk' Heq. apply (Hnp k' Hk').
    destruct (so !! k') as [v|]; [|done]. simpl in Heq. by subst v.
Qed.
End round_steps.

Section deploy.
Context `{NodeExternals}.

(** X23.  What [onDeploy] of a trigger-state node can change.  On a cache
    whose table is an object of a closed heap, [onDeploy] returns to its
    caller whatever the node's filter, casts and constraints do, and by
    then it has changed nothing but the heap: the instance, and so the
    reference to the table, is as before; and an object that existed and
    is not the cached record of one of the enumerated entities is as it
    was, the table itself included unless it is one of its own
    records. *)
Theorem onDeploy_touches_only_records
    (node : TriggerState) (order : list string) (w : World) (sl : loc) (so : obj) :
  heap_closed (wheap w) →
  states (this w) = VRef sl → wheap w !! sl = Some so →
  ∃ w', onDeploy node order w = (Ret tt, w') ∧
    this w' = this w ∧ network w' = network w ∧ emitted w' = emitted w ∧
    ∀ p, is_Some (wheap w !! p) →
      (∀ k, k ∈ order → so !! k ≠ Some (VRef p)) →
      wheap w' !! p = wheap w !! p.
Proof.
  intros Hcl Hs Hsl.
  destruct (onDeploy_frame node order w sl so Hcl Hs Hsl) as (w' & E & Hho & Hfr).
  exists w'. split; [done|]. rewrite Hho. done.
Qed.

(** X24.  The record that [getStates()] hands to the node is the cache's
    own, so what the node writes into it lands in the cache.  On a cache
    whose table is an object of a closed heap and is not one of its own
    records, for an entity whose cached record is an object held under no
    other enumerated key, with the node enabled, its filter letting the
    entity through and its casts (if it converts states) returning: when
    [onDeploy] returns, the cached record carries [timeSinceChangedMs],
    and a later [getStates(id)] of any consumer returns a copy with that
    property. *)
Theorem onDeploy_stamps_cached_record
    (node : TriggerState) (pre post : list string) (k : string) (w : World)
    (sl r : loc) (so ro : obj) (casts : option (value * value)) (inc : value) :
  heap_closed (wheap w) →
  states (this w) = VRef sl → wheap w !! sl = Some so →
  (∀ k', k' ∈ pre ++ k :: post → so !! k' ≠ Some (VRef sl)) →
  k ≠ "" → so !! k = Some (VRef r) → wheap w !! r = Some ro →
  (∀ k', k' ∈ pre ++ post → so !! k' ≠ Some (VRef r)) →
  isEnabled node ≠ VBool false →
  shouldIncludeEvent (VStr k) (entityid (nodeConfig node))
    (entityidfiltertype (nodeConfig node)) = Ret inc →
  truthy inc = true →
  cast_ok (nodeConfig node) casts ro →
  observe (getStates (VStr k) (VBool false) w) = ObsObject ro ∧
  ∃ w', onDeploy node (pre ++ k :: post) w = (Ret tt, w') ∧
    wheap w' !! r = Some (deployed_record (length pre) casts ro) ∧
    observe (getStates (VStr k) (VBool false) w') =
      ObsObject (deployed_record (length pre) casts ro) ∧
    deployed_record (length pre) casts ro !! "timeSinceChangedMs" =
      Some (timeSinceChanged (length pre) (default VUndef (ro !! "last_changed"))).
Proof.
  intros Hcl Hs Hsl Hself Hk0 Hk Hr Huniq Hen Hinc Htinc Hok.
  assert (∀ w0 o, states (this w0) = VRef sl → wheap w0 !! sl = Some so →
            wheap w0 !! r = Some o →
            observe (getStates (VStr k) (VBool false) w0) = ObsObject o) as Hread.
  { intros w0 o Hs0 Hsl0 Hr0.
    change (getStates (VStr k) (VBool false) w0)
      with (getStates (VStr k) VUndef w0).
    rewrite (getStates_entity w0 sl (VStr k) (VRef r)); try done.
    - simpl. rewrite lookup_insert_eq. unfold own_props. by rewrite Hr0.
    - simpl. by destruct k.
    - change (to_key (VStr k)) with k.
      by rewrite (prop_of_lookup _ _ _ _ Hsl0), Hk. }
  split; [by apply Hread|].
  destruct (onDeploy_record node pre post k w sl r so ro casts inc)
    as (w' & E & Hho & Hr' & Hfr); try done.
  exists w'. split; [done|]. split; [done|]. split.
  - apply Hread; [by rewrite (heap_only_this _ _ Hho)| |done].
    rewrite Hfr; [done|by rewrite Hsl|done].
  - unfold deployed_record. by rewrite lookup_insert_eq.
Qed.

(** X25.  [onStatesLoaded] hands the same object to the node as old and
    as new state, so a node that converts states converts the state of
    that object twice.  Under the conditions of X24, for a node that
    converts states and whose cast returns [c1] for the cached state and
    [c2] for [c1]: when [onDeploy] returns, the cached record has
    [original_state] equal to [c1], the result of the first cast and not
    the state the server sent, and [state] equal to [c2]; its other
    properties, [timeSinceChangedMs] apart, are as they were. *)
Theorem onDeploy_converts_cached_state_twice
    (node : TriggerState) (pre post : list string) (k : string) (w : World)
    (sl r : loc) (so ro : obj) (c1 c2 inc : value) :
  heap_closed (wheap w) →
  states (this w) = VRef sl → wheap w !! sl = Some so →
  so !! k = Some (VRef r) → wheap w !! r = Some ro →
  (∀ k', k' ∈ pre ++ post → so !! k' ≠ Some (VRef r)) →
  isEnabled node ≠ VBool false →
  shouldIncludeEvent (VStr k) (entityid (nodeConfig node))
    (entityidfiltertype (nodeConfig node)) = Ret inc →
  truthy inc = true →
  casting (nodeConfig node) = true →
  getCastValue (state_type (nodeConfig node)) (default VUndef (ro !! "state")) = Ret c1 →
  getCastValue (state_type (nodeConfig node)) c1 = Ret c2 →
  ∃ w' ro', onDeploy node (pre ++ k :: post) w = (Ret tt, w') ∧
    wheap w' !! r = Some ro' ∧
    ro' !! "original_state" = Some c1 ∧
    ro' !! "state" = Some c2 ∧
    ∀ key, key ≠ "original_state" → key ≠ "state" → key ≠ "timeSinceChangedMs" →
      ro' !! key = ro !! key.
Proof.
  intros Hcl Hs Hsl Hk Hr Huniq Hen Hinc Htinc Hcast Hc1 Hc2.
  destruct (onDeploy_record node pre post k w sl r so ro (Some (c1, c2)) inc)
    as (w' & E & Hho & Hr' & Hfr); try done.
  exists w'. eexists. split; [done|]. split; [done|].
  unfold deployed_record, cast_result, converted. split_and!.
  - rewrite lookup_insert_ne by done. rewrite lookup_insert_ne by done.
    by rewrite lookup_insert_eq.
  - rewrite lookup_insert_ne by done. by rewrite lookup_insert_eq.
  - intros key ? ? ?. by rewrite !lookup_insert_ne.
Qed.
End deploy.

Lemma heap_closed_cache_world : heap_closed (wheap cache_world).
Proof. apply (bool_decide_unpack _). vm_compute. exact I. Qed.

Lemma getConstraintTargetData_reads_cache_witness :
  ∃ td w',
    getConstraintTargetData (nodeConfig example_node) kitchen_constraint VUndef
      cache_world = (Ret (VRef td), w') ∧
    wheap cache_world !! td = None ∧
    extends (wheap cache_world) (wheap w') ∧
    prop_of (wheap w') (VRef td) "entityid" = VStr "light.kitchen".
Proof.
  destruct (getConstraintTargetData_reads_cache (nodeConfig example_node)
              kitchen_constraint VUndef cache_world 3%positive
              {["light.kitchen" := VRef 4%positive]} heap_closed_cache_world)
    as (td & w' & E & Htd & _ & Hext & Hid & _).
  - vm_compute. reflexivity.
  - vm_compute. reflexivity.
  - intros _. apply (bool_decide_unpack _). vm_compute. exact I.
  - exists td, w'. split; [exact E|]. split; [exact Htd|]. split; [exact Hext|].
    exact Hid.
Defined.

Lemma onDeploy_touches_only_records_witness :
  ∃ w', onDeploy (H := example_externals) example_node ["light.kitchen"] cache_world
          = (Ret tt, w') ∧
    this w' = this cache_world ∧
    wheap w' !! 5%positive = wheap cache_world !! 5%positive.
Proof.
  destruct (onDeploy_touches_only_records (H := example_externals) example_node
              ["light.kitchen"] cache_world 3%positive
              {["light.kitchen" := VRef 4%positive]} heap_closed_cache_world)
    as (w' & E & Hthis & _ & _ & Hfr).
  - vm_compute. reflexivity.
  - vm_compute. reflexivity.
  - exists w'. split; [exact E|]. split; [exact Hthis|]. apply Hfr.
    + vm_compute. eexists. reflexivity.
    + intros k Hk Hl. apply list_elem_of_singleton in Hk. subst k.
      vm_compute in Hl. discriminate Hl.
Defined.

Lemma onDeploy_stamps_cached_record_witness :
  ∃ w', onDeploy (H := example_externals) example_node ["light.kitchen"] cache_world
          = (Ret tt, w') ∧
    observe (getStates (VStr "light.kitchen") (VBool false) w') =
      ObsObject (deployed_record (H := example_externals) 0
                   (Some (VBool true, VBool true))
                   (<["state" := VStr "on"]> {["attributes" := VRef 5%positive]})).
Proof.
  destruct (onDeploy_stamps_cached_record (H := example_externals) example_node
              [] [] "light.kitchen" cache_world 3%positive 4%positive
              {["light.kitchen" := VRef 4%positive]}
              (<["state" := VStr "on"]> {["attributes" := VRef 5%positive]})
              (Some (VBool true, VBool true)) (VBool true)
              heap_closed_cache_world)
    as (_ & w' & E & _ & Hobs & _).
  - vm_compute. reflexivity.
  - vm_compute. reflexivity.
  - intros k Hk Hl. apply list_elem_of_singleton in Hk. subst k.
    vm_compute in Hl. discriminate Hl.
  - discriminate.
  - vm_compute. reflexivity.
  - vm_compute. reflexivity.
  - intros k Hk. by apply elem_of_nil in Hk.
  - discriminate.
  - vm_compute. reflexivity.
  - reflexivity.
  - split; [vm_compute; reflexivity|]. split; vm_compute; reflexivity.
  - exists w'. split; [exact E|exact Hobs].
Defined.

Lemma onDeploy_converts_cached_state_twice_witness :
  ∃ w' ro',
    onDeploy (H := example_externals) example_node ["light.kitchen"] cache_world
      = (Ret tt, w') ∧
    wheap w' !! 4%positive = Some ro' ∧
    ro' !! "original_state" = Some (VBool true) ∧
    ro' !! "state" = Some (VBool true).
Proof.
  destruct (onDeploy_converts_cached_state_twice (H := example_externals) example_node
              [] [] "light.kitchen" cache_world 3%positive 4%positive
              {["light.kitchen" := VRef 4%positive]}
              (<["state" := VStr "on"]> {["attributes" := VRef 5%positive]})
              (VBool true) (VBool true) (VBool true)
              heap_closed_cache_world)
    as (w' & ro' & E & Hr & Ho & Hs & _).
  - vm_compute. reflexivity.
  - vm_compute. reflexivity.
  - vm_compute. reflexivity.
  - vm_compute. reflexivity.
  - intros k Hk. by apply elem_of_nil in Hk.
  - discriminate.
  - vm_compute. reflexivity.
  - reflexivity.
  - vm_compute. reflexivity.
  - vm_compute. reflexivity.
  - vm_compute. reflexivity.
  - exists w', ro'. split; [exact E|]. split; [exact Hr|]. split; [exact Ho|exact Hs].
Defined.
